(** * Ultimate tic-tac-toe: rule engine and Monte Carlo tree search

    A shallow embedding of [src/tictactoe.ts] (the bitboard variant of the
    rule engine) and of [src/mcts.ts], with the properties the specification
    states about them.

    Conventions of the embedding.
    - A JavaScript [number] that holds an integer is a [Z].  The bitwise
      operators of JavaScript first convert their operands to 32-bit signed
      integers; this conversion is [toInt32] and it is written out in every
      operator below.
    - A JavaScript array of numbers indexed by a computed integer is a
      [gmap Z Z]: reading an absent index gives [undefined], which every
      bitwise operator converts to [0]; writing an absent index creates it.
    - A method that mutates [this] and may [throw] is a function from the
      object to an outcome together with the object as the method left it,
      so that a mutation made before a [throw] stays visible. *)

From Stdlib Require Import ZArith List Bool Lia.
From stdpp Require Import base option list gmap strings pretty.

Open Scope Z_scope.

(** ** JavaScript 32-bit integer operators *)

Module JS.

(** [ToInt32]: the integer modulo 2^32, taken in [-2^31, 2^31).  The mask
    4294967295 is 2^32 - 1, so [Z.land z 4294967295] is [z mod 2^32]. *)
Definition toInt32 (z : Z) : Z :=
  let int32bit := Z.land z 4294967295 in
  if int32bit <? 2147483648 then int32bit else int32bit - 4294967296.

(** [a | b] *)
Definition bor (a b : Z) : Z := Z.lor (toInt32 a) (toInt32 b).

(** [a & b] *)
Definition band (a b : Z) : Z := Z.land (toInt32 a) (toInt32 b).

(** [~a] *)
Definition bnot (a : Z) : Z := Z.lnot (toInt32 a).

(** [a << n]: the shift count is taken modulo 32, the result wraps. *)
Definition shl (a n : Z) : Z := toInt32 (Z.shiftl (toInt32 a) (Z.land n 31)).

(** [a >> n]: sign-propagating shift, count modulo 32. *)
Definition shr (a n : Z) : Z := Z.shiftr (toInt32 a) (Z.land n 31).

(** [Math.floor(a / 3)] on an integer [a]. *)
Definition floorDiv3 (a : Z) : Z := a / 3.

(** [a % 3]: the remainder has the sign of the dividend. *)
Definition rem3 (a : Z) : Z := Z.rem a 3.

(** Truthiness of a number used as a condition. *)
Definition truthy (a : Z) : bool := negb (a =? 0).

End JS.

(** ** Outcomes of methods that may throw *)

Inductive Error : Type :=
  | TileAlreadyTaken          (* 'Tile already taken by ...' *)
  | MoveNotInActiveSubgrid    (* 'Move is not in the active subgrid' *)
  | ChildNotFound             (* 'Child not found' *)
  | ChildNotExpanded          (* 'Child not expanded' *)
  | UCB1RootNode              (* 'UCB1 not defined for root node' *)
  | NoBestPlay                (* 'No best play found. ...' *)
  | TypeError                 (* property read on undefined or null *)
  | OutOfFuel.                (* not an error of the program: a loop of the
                                 embedding reached its iteration bound *)

Inductive Outcome (A : Type) : Type :=
  | Ok (a : A)
  | Throw (e : Error).
Arguments Ok {A} a.
Arguments Throw {A} e.

(** A method of an object of type [S]. *)
Definition Method (S A : Type) : Type := S -> Outcome A * S.

Definition throw {S A} (e : Error) : Method S A := fun s => (Throw e, s).
Definition get {S} : Method S S := fun s => (Ok s, s).
Definition modify {S} (f : S -> S) : Method S unit := fun s => (Ok tt, f s).

#[global] Instance Method_ret {S} : MRet (Method S) :=
  fun A a s => (Ok a, s).
#[global] Instance Method_bind {S} : MBind (Method S) :=
  fun A B k m s =>
    match m s with
    | (Ok a, s') => k a s'
    | (Throw e, s') => (Throw e, s')
    end.

Definition when {S} (b : bool) (m : Method S unit) : Method S unit :=
  if b then m else mret tt.

(** ** The rule engine: data *)

Inductive Player : Type := X | O.

(** [Tile = Player | null] *)
Definition Tile : Type := option Player.

(** [GameOutcome = Player | 'none' | 'draw'] *)
Inductive GameOutcome : Type :=
  | Winner (p : Player)
  | none
  | draw.

Definition Coordinate : Type := (Z * Z)%type.

(** [Coordinate | 'any'] *)
Inductive ActiveSubgrid : Type :=
  | any
  | Forced (c : Coordinate).

Record Move : Type := mkMove {
  coordinate : Coordinate;
  player : Player;
  currentSubgrid : Coordinate   (* "For easier undo" *)
}.

Record GameState : Type := mkGameState {
  aSubgridBitboard : gmap Z Z;
  bSubgridBitboard : gmap Z Z;
  activeSubgrid : ActiveSubgrid;
  playerToMove : Player;
  complete : bool;
  moves : list Move
}.

#[global] Instance Player_eq_dec : EqDecision Player.
Proof. solve_decision. Defined.
#[global] Instance GameOutcome_eq_dec : EqDecision GameOutcome.
Proof. solve_decision. Defined.
#[global] Instance ActiveSubgrid_eq_dec : EqDecision ActiveSubgrid.
Proof. solve_decision. Defined.
#[global] Instance Move_eq_dec : EqDecision Move.
Proof. solve_decision. Defined.

(** ** The rule engine: pure helpers *)

Definition otherPlayer (p : Player) : Player :=
  match p with X => O | O => X end.

Definition coordinatesEqual (a b : Coordinate) : bool :=
  (a.1 =? b.1) && (a.2 =? b.2).

Definition isPlayer (tile : GameOutcome) : bool :=
  match tile with Winner _ => true | _ => false end.

Definition setBit (bitboard x y : Z) : Z :=
  let index := x + y * 3 in
  JS.bor bitboard (JS.shl 1 index).

Definition unsetBit (bitboard x y : Z) : Z :=
  let index := x + y * 3 in
  JS.band bitboard (JS.bnot (JS.shl 1 index)).

Definition getBit (bitboard x y : Z) : Z :=
  let index := x + y * 3 in
  JS.band (JS.shr bitboard index) 1.

(** The eight masks, in the order of the source:
    0b111000000, 0b000111000, 0b000000111, 0b100100100, 0b010010010,
    0b001001001, 0b100010001, 0b001010100. *)
Definition isBitboardWinning (bitboard : Z) : bool :=
  (JS.band bitboard 448 =? 448) ||
  (JS.band bitboard 56 =? 56) ||
  (JS.band bitboard 7 =? 7) ||
  (JS.band bitboard 292 =? 292) ||
  (JS.band bitboard 146 =? 146) ||
  (JS.band bitboard 73 =? 73) ||
  (JS.band bitboard 273 =? 273) ||
  (JS.band bitboard 84 =? 84).

Definition bitboardGridResult (xBitboard yBitboard : Z) : GameOutcome :=
  let xWin := isBitboardWinning xBitboard in
  let yWin := isBitboardWinning yBitboard in
  if xWin then Winner X
  else if yWin then Winner O
  else if JS.bor xBitboard yBitboard =? 511 then draw
  else none.

(** [arr[idx]] read into a bitwise context: [undefined] counts as [0]. *)
Definition readBitboard (arr : gmap Z Z) (idx : Z) : Z := default 0 (arr !! idx).

Definition emptyBitboards : gmap Z Z :=
  list_to_map ((fun i => (i, 0)) <$> [0; 1; 2; 3; 4; 5; 6; 7; 8]).

Definition initialGameState : GameState :=
  {| aSubgridBitboard := emptyBitboards;
     bSubgridBitboard := emptyBitboards;
     activeSubgrid := any;
     playerToMove := X;
     complete := false;
     moves := [] |}.

(** The range of [for (let i = 0; i < 3; i++)]. *)
Definition range3 : list Z := [0; 1; 2].

(** ** The rule engine: read-only methods *)

Definition checkWinSubgrid (s : GameState) (subgrid : Coordinate) : GameOutcome :=
  let idx := subgrid.1 + subgrid.2 * 3 in
  let xBitboard := readBitboard (aSubgridBitboard s) idx in
  let yBitboard := readBitboard (bSubgridBitboard s) idx in
  bitboardGridResult xBitboard yBitboard.

(** The three accumulators of [checkWinWholeBoard]. *)
Record MetaBitboards : Type := mkMeta {
  xWinsBitboard : Z;
  yWinsBitboard : Z;
  neutralBitboard : Z
}.

(** Body of the inner loop of [checkWinWholeBoard]. *)
Definition metaStep (sub : Coordinate -> GameOutcome) (x : Z)
    (acc : MetaBitboards) (y : Z) : MetaBitboards :=
  match sub (x, y) with
  | Winner X => mkMeta (setBit (xWinsBitboard acc) x y) (yWinsBitboard acc) (neutralBitboard acc)
  | Winner O => mkMeta (xWinsBitboard acc) (setBit (yWinsBitboard acc) x y) (neutralBitboard acc)
  | draw => mkMeta (xWinsBitboard acc) (yWinsBitboard acc) (setBit (neutralBitboard acc) x y)
  | none => acc
  end.

Definition metaBitboards (sub : Coordinate -> GameOutcome) : MetaBitboards :=
  fold_left (fun acc x => fold_left (metaStep sub x) range3 acc) range3 (mkMeta 0 0 0).

(** [checkWinWholeBoard], with the calls [this.checkWinSubgrid([x, y])]
    passed as [sub]. *)
Definition wholeBoardResult (sub : Coordinate -> GameOutcome) : GameOutcome :=
  let m := metaBitboards sub in
  let playerResult := bitboardGridResult (xWinsBitboard m) (yWinsBitboard m) in
  if isPlayer playerResult then playerResult
  else if bool_decide (playerResult = draw) ||
          (JS.bor (JS.bor (xWinsBitboard m) (yWinsBitboard m)) (neutralBitboard m) =? 511)
  then draw
  else none.

Definition checkWinWholeBoard (s : GameState) : GameOutcome :=
  wholeBoardResult (checkWinSubgrid s).

Definition getTile (s : GameState) (coordinate : Coordinate) : Tile :=
  let subgridX := JS.floorDiv3 coordinate.1 in
  let subgridY := JS.floorDiv3 coordinate.2 in
  let idx := subgridX + subgridY * 3 in
  let xBitboard := readBitboard (aSubgridBitboard s) idx in
  let yBitboard := readBitboard (bSubgridBitboard s) idx in
  let x := JS.rem3 coordinate.1 in
  let y := JS.rem3 coordinate.2 in
  if JS.truthy (getBit xBitboard x y) then Some X
  else if JS.truthy (getBit yBitboard x y) then Some O
  else None.

Definition legalMovesSubgrid (s : GameState) (subgrid : Coordinate) : list Move :=
  let idx := subgrid.1 + subgrid.2 * 3 in
  let xBitboard := readBitboard (aSubgridBitboard s) idx in
  let yBitboard := readBitboard (bSubgridBitboard s) idx in
  flat_map (fun offsetX =>
    flat_map (fun offsetY =>
      if JS.truthy (getBit xBitboard offsetX offsetY) ||
         JS.truthy (getBit yBitboard offsetX offsetY)
      then []
      else [ {| coordinate := (subgrid.1 * 3 + offsetX, subgrid.2 * 3 + offsetY);
                player := playerToMove s;
                currentSubgrid := subgrid |} ])
      range3)
    range3.

Definition activeAllows (a : ActiveSubgrid) (c : Coordinate) : bool :=
  match a with
  | any => true
  | Forced a' => coordinatesEqual a' c
  end.

Definition legalMoves (s : GameState) : list Move :=
  if complete s then []
  else
    flat_map (fun x =>
      flat_map (fun y =>
        if negb (bool_decide (checkWinSubgrid s (x, y) = none)) then []
        else if activeAllows (activeSubgrid s) (x, y) then legalMovesSubgrid s (x, y)
        else [])
        range3)
      range3.

(** ** The rule engine: the [Game] object and its mutating methods *)

(** A [Game] holds [currentState].  [onMove] is the hook "to be overriden";
    the class's own [onMove] has an empty body.  [onMoveCalls] is a ghost
    field that records each invocation of the hook, oldest first. *)
Record Game : Type := mkGame {
  currentState : GameState;
  onMoveCalls : list Move
}.

Definition newGame (state : GameState) : Game :=
  {| currentState := state; onMoveCalls := [] |}.

Definition updState (f : GameState -> GameState) : Method Game unit :=
  modify (fun g => {| currentState := f (currentState g); onMoveCalls := onMoveCalls g |}).

Definition set_aSubgridBitboard (idx v : Z) (s : GameState) : GameState :=
  {| aSubgridBitboard := <[idx := v]> (aSubgridBitboard s);
     bSubgridBitboard := bSubgridBitboard s;
     activeSubgrid := activeSubgrid s;
     playerToMove := playerToMove s;
     complete := complete s;
     moves := moves s |}.

Definition set_bSubgridBitboard (idx v : Z) (s : GameState) : GameState :=
  {| aSubgridBitboard := aSubgridBitboard s;
     bSubgridBitboard := <[idx := v]> (bSubgridBitboard s);
     activeSubgrid := activeSubgrid s;
     playerToMove := playerToMove s;
     complete := complete s;
     moves := moves s |}.

Definition set_activeSubgrid (v : ActiveSubgrid) (s : GameState) : GameState :=
  {| aSubgridBitboard := aSubgridBitboard s;
     bSubgridBitboard := bSubgridBitboard s;
     activeSubgrid := v;
     playerToMove := playerToMove s;
     complete := complete s;
     moves := moves s |}.

Definition set_playerToMove (v : Player) (s : GameState) : GameState :=
  {| aSubgridBitboard := aSubgridBitboard s;
     bSubgridBitboard := bSubgridBitboard s;
     activeSubgrid := activeSubgrid s;
     playerToMove := v;
     complete := complete s;
     moves := moves s |}.

Definition set_complete (v : bool) (s : GameState) : GameState :=
  {| aSubgridBitboard := aSubgridBitboard s;
     bSubgridBitboard := bSubgridBitboard s;
     activeSubgrid := activeSubgrid s;
     playerToMove := playerToMove s;
     complete := v;
     moves := moves s |}.

(** [moves.push(move)] *)
Definition push_move (move : Move) (s : GameState) : GameState :=
  {| aSubgridBitboard := aSubgridBitboard s;
     bSubgridBitboard := bSubgridBitboard s;
     activeSubgrid := activeSubgrid s;
     playerToMove := playerToMove s;
     complete := complete s;
     moves := moves s ++ [move] |}.

(** [moves.pop()]: on an empty array it returns [undefined] and changes
    nothing. *)
Definition pop_move (s : GameState) : GameState :=
  {| aSubgridBitboard := aSubgridBitboard s;
     bSubgridBitboard := bSubgridBitboard s;
     activeSubgrid := activeSubgrid s;
     playerToMove := playerToMove s;
     complete := complete s;
     moves := removelast (moves s) |}.

Definition onMove (move : Move) : Method Game unit :=
  modify (fun g => {| currentState := currentState g;
                      onMoveCalls := onMoveCalls g ++ [move] |}).

Definition doMove (move : Move) : Method Game unit :=
  let coordinate := coordinate move in
  let player := player move in
  g0 ← get;
  let aSubgridBitboard0 := aSubgridBitboard (currentState g0) in
  let bSubgridBitboard0 := bSubgridBitboard (currentState g0) in
  let activeSubgrid0 := activeSubgrid (currentState g0) in
  let subgridX := JS.floorDiv3 coordinate.1 in
  let subgridY := JS.floorDiv3 coordinate.2 in
  let offsetX := JS.rem3 coordinate.1 in
  let offsetY := JS.rem3 coordinate.2 in
  let idx := subgridX + subgridY * 3 in
  let xBitboard := readBitboard aSubgridBitboard0 idx in
  let yBitboard := readBitboard bSubgridBitboard0 idx in
  let tile := getTile (currentState g0) coordinate in
  when (bool_decide (tile ≠ None)) (throw TileAlreadyTaken);;
  when (match activeSubgrid0 with
        | any => false
        | Forced a => negb (coordinatesEqual a (subgridX, subgridY))
        end) (throw MoveNotInActiveSubgrid);;
  updState (push_move move);;
  match player with
  | X => updState (set_aSubgridBitboard idx (setBit xBitboard offsetX offsetY))
  | O => updState (set_bSubgridBitboard idx (setBit yBitboard offsetX offsetY))
  end;;
  updState (set_activeSubgrid (Forced (offsetX, offsetY)));;
  g1 ← get;
  let subgridOutcome := checkWinSubgrid (currentState g1) (offsetX, offsetY) in
  when (bool_decide (subgridOutcome ≠ none)) (updState (set_activeSubgrid any));;
  updState (set_playerToMove (otherPlayer player));;
  g2 ← get;
  updState (set_complete (bool_decide (checkWinWholeBoard (currentState g2) ≠ none)));;
  onMove move.

Definition undoMove (move : Move) : Method Game unit :=
  let coordinate := coordinate move in
  let player := player move in
  updState pop_move;;
  let subgridX := JS.floorDiv3 coordinate.1 in
  let subgridY := JS.floorDiv3 coordinate.2 in
  let offsetX := JS.rem3 coordinate.1 in
  let offsetY := JS.rem3 coordinate.2 in
  let idx := subgridX + subgridY * 3 in
  g0 ← get;
  let xBitboard := readBitboard (aSubgridBitboard (currentState g0)) idx in
  let yBitboard := readBitboard (bSubgridBitboard (currentState g0)) idx in
  match player with
  | X => updState (set_aSubgridBitboard idx (unsetBit xBitboard offsetX offsetY))
  | O => updState (set_bSubgridBitboard idx (unsetBit yBitboard offsetX offsetY))
  end;;
  updState (set_activeSubgrid (Forced (currentSubgrid move)));;
  updState (set_playerToMove player);;
  updState (set_complete false).

(** [copy()]: a new [Game] on a structured clone of the state; the clone
    has the class's own hook. *)
Definition copy (g : Game) : Game := newGame (currentState g).

(** [`${move.coordinate.join(move.player)}`]: the two coordinates in
    decimal with the player's letter between them. *)
Definition playerName (p : Player) : string :=
  match p with X => "X" | O => "O" end.

Definition moveHash (move : Move) : string :=
  pretty (coordinate move).1 +:+ playerName (player move) +:+ pretty (coordinate move).2.

Fixpoint join (sep : string) (l : list string) : string :=
  match l with
  | [] => ""
  | [a] => a
  | a :: l' => a +:+ sep +:+ join sep l'
  end.

Definition hash (s : GameState) : string :=
  join " " (map moveHash (moves s)).

(** A state is reachable when play from the initial state arrives at it:
    each move is taken from [legalMoves()] and applied with [doMove], and
    the move just applied may be taken back with [undoMove]. *)
Inductive reachable : GameState -> Prop :=
  | reachable_initial : reachable initialGameState
  | reachable_doMove s m calls g' :
      reachable s ->
      In m (legalMoves s) ->
      doMove m (mkGame s calls) = (Ok tt, g') ->
      reachable (currentState g')
  | reachable_undoMove s m calls g1 g2 :
      reachable s ->
      In m (legalMoves s) ->
      doMove m (mkGame s calls) = (Ok tt, g1) ->
      undoMove m g1 = (Ok tt, g2) ->
      reachable (currentState g2).


(** * Monte Carlo tree search ([src/mcts.ts]) *)

(** ** Insertion-ordered maps ([Map<string, V>]) *)

Fixpoint map_get {V} (k : string) (l : list (string * V)) : option V :=
  match l with
  | [] => None
  | (k', v) :: l' => if decide (k = k') then Some v else map_get k l'
  end.

(** [set] replaces the value of a present key in place and appends an
    absent key. *)
Fixpoint map_set {V} (k : string) (v : V) (l : list (string * V)) : list (string * V) :=
  match l with
  | [] => [(k, v)]
  | (k', v') :: l' =>
      if decide (k = k') then (k, v) :: l' else (k', v') :: map_set k v l'
  end.

Definition map_has {V} (k : string) (l : list (string * V)) : bool :=
  bool_decide (is_Some (map_get k l)).

Definition map_values {V} (l : list (string * V)) : list V := map snd l.

(** ** Nodes *)

(** A reference to a node object: its index in the store of nodes. *)
Abbreviation NodeRef := nat (only parsing).

(** A value of the [children] map: [{ play, node }]. *)
Record Child : Type := mkChild {
  childPlay : Move;
  node : option NodeRef
}.

Record MonteCarloNode : Type := mkNode {
  play : option Move;
  state : Game;
  n_plays : Z;
  n_wins : Z;
  parent : option NodeRef;
  children : list (string * Child)
}.

(** [node.state], for use where [state] names an argument. *)
Definition stateOf (n : MonteCarloNode) : Game := state n.

(** The floating-point side of UCB1 is left abstract: the type of the
    values, minus infinity, the formula
    [n_wins / n_plays + Math.sqrt(biasParam * Math.log(parent.n_plays) / n_plays)]
    as a function of [biasParam], [n_wins], [n_plays] and [parent.n_plays],
    and the comparison [>]. *)
Record UCB1Model : Type := mkUCB1 {
  Score : Type;
  minusInfinity : Score;
  ucb1 : Z -> Z -> Z -> Z -> Score;
  score_gt : Score -> Score -> bool
}.

(** The search object: the store of node objects, the map [nodes] from
    [State.hash()] to node, [UCB1ExploreParam], and the source of the values
    of [Math.random()] ([random k] decides the [k]-th draw). *)
Record MonteCarlo : Type := mkMonteCarlo {
  store : list MonteCarloNode;
  nodes : list (string * NodeRef);
  UCB1ExploreParam : Z;
  random : nat -> nat;
  randomPos : nat
}.

Definition newMonteCarlo (random : nat -> nat) : MonteCarlo :=
  {| store := []; nodes := []; UCB1ExploreParam := 2;
     random := random; randomPos := 0%nat |}.

Definition set_store (f : list MonteCarloNode -> list MonteCarloNode) (w : MonteCarlo) : MonteCarlo :=
  {| store := f (store w); nodes := nodes w; UCB1ExploreParam := UCB1ExploreParam w;
     random := random w; randomPos := randomPos w |}.

Definition set_nodes (f : list (string * NodeRef) -> list (string * NodeRef)) (w : MonteCarlo) : MonteCarlo :=
  {| store := store w; nodes := f (nodes w); UCB1ExploreParam := UCB1ExploreParam w;
     random := random w; randomPos := randomPos w |}.

(** Dereference; a reference always points into the store. *)
Definition deref (r : NodeRef) : Method MonteCarlo MonteCarloNode :=
  fun w => match store w !! r with
           | Some n => (Ok n, w)
           | None => (Throw TypeError, w)
           end.

(** [new MonteCarloNode(...)]: the new object goes at the end of the store. *)
Definition alloc (n : MonteCarloNode) : Method MonteCarlo NodeRef :=
  fun w => (Ok (length (store w)), set_store (fun h => h ++ [n]) w).

Definition update (r : NodeRef) (f : MonteCarloNode -> MonteCarloNode) : Method MonteCarlo unit :=
  modify (set_store (fun h => match h !! r with
                              | Some n => <[r := f n]> h
                              | None => h
                              end)).

(** [Math.floor(Math.random() * len)]: any index below [len]; [0] when
    [len] is [0]. *)
Definition randomIndex (len : nat) : Method MonteCarlo nat :=
  fun w =>
    let r := random w (randomPos w) in
    (Ok (match len with 0%nat => 0%nat | _ => r mod len end)%nat,
     {| store := store w; nodes := nodes w; UCB1ExploreParam := UCB1ExploreParam w;
        random := random w; randomPos := S (randomPos w) |}).

(** Lifting an outcome without effect on the search object. *)
Definition liftOutcome {S A} (o : Outcome A) : Method S A := fun w => (o, w).

Module Node.

(** The constructor. *)
Definition new (parent : option NodeRef) (play : option Move) (state : Game)
    (unexpandedPlays : list Move) : MonteCarloNode :=
  {| play := play;
     state := state;
     n_plays := 0;
     n_wins := 0;
     parent := parent;
     children := fold_left (fun ch p => map_set (moveHash p) (mkChild p None) ch)
                           unexpandedPlays [] |}.

Definition set_children (ch : list (string * Child)) (n : MonteCarloNode) : MonteCarloNode :=
  {| play := play n; state := state n; n_plays := n_plays n; n_wins := n_wins n;
     parent := parent n; children := ch |}.

Definition set_counts (plays wins : Z) (n : MonteCarloNode) : MonteCarloNode :=
  {| play := play n; state := state n; n_plays := plays; n_wins := wins;
     parent := parent n; children := children n |}.

Definition childNode (this : MonteCarloNode) (play : Move) : Outcome NodeRef :=
  match map_get (moveHash play) (children this) with
  | None => Throw ChildNotFound
  | Some child =>
      match node child with
      | None => Throw ChildNotExpanded
      | Some r => Ok r
      end
  end.

Definition expand (this : NodeRef) (play : Move) (childState : Game)
    (unexpandedPlays : list Move) : Method MonteCarlo NodeRef :=
  n ← deref this;
  if negb (map_has (moveHash play) (children n)) then throw ChildNotFound
  else
    childNode ← alloc (new (Some this) (Some play) childState unexpandedPlays);
    update this (fun n => set_children
      (map_set (moveHash play) (mkChild play (Some childNode)) (children n)) n);;
    mret childNode.

Definition allPlays (this : MonteCarloNode) : list Move :=
  map childPlay (map_values (children this)).

Definition unexpandedPlays (this : MonteCarloNode) : list Move :=
  map childPlay (filter (fun child => node child = None) (map_values (children this))).

Definition isFullyExpanded (this : MonteCarloNode) : bool :=
  forallb (fun child => bool_decide (node child <> None)) (map_values (children this)).

Definition isLeaf (this : MonteCarloNode) : bool :=
  bool_decide (length (children this) = 0%nat).

Definition getUCB1 (U : UCB1Model) (this : MonteCarloNode) (biasParam : Z) :
    Method MonteCarlo (Score U) :=
  match parent this with
  | None => throw UCB1RootNode
  | Some p =>
      pn ← deref p;
      mret (ucb1 U biasParam (n_wins this) (n_plays this) (n_plays pn))
  end.

End Node.

Module MCTS.

(** [makeNode]: "If given state does not exist, create dangling node." *)
Definition makeNode (state : Game) : Method MonteCarlo unit :=
  w ← get;
  if negb (map_has (hash (currentState state)) (nodes w)) then
    let unexpandedPlays := legalMoves (currentState state) in
    r ← alloc (Node.new None None state unexpandedPlays);
    modify (set_nodes (map_set (hash (currentState state)) r))
  else mret tt.

(** [this.nodes.get(state.hash())!] followed by a use of the node. *)
Definition lookupNode (state : Game) : Method MonteCarlo NodeRef :=
  w ← get;
  match map_get (hash (currentState state)) (nodes w) with
  | Some r => mret r
  | None => throw TypeError
  end.

(** The loop of [bestPlay] over [allPlays]; [max] is [None] for
    [-Infinity]. *)
Fixpoint bestPlayLoop (this : MonteCarloNode) (allPlays : list Move)
    (bestPlay : option Move) (max : option Z) : Method MonteCarlo (option Move) :=
  match allPlays with
  | [] => mret bestPlay
  | play :: rest =>
      r ← liftOutcome (Node.childNode this play);
      childNode ← deref r;
      if n_plays childNode =? 0 then bestPlayLoop this rest bestPlay max
      else if match max with
              | None => true
              | Some mx => mx <? n_plays childNode
              end
      then bestPlayLoop this rest (Some play) (Some (n_plays childNode))
      else bestPlayLoop this rest bestPlay max
  end.

Definition bestPlay (state : Game) : Method MonteCarlo Move :=
  makeNode state;;
  r ← lookupNode state;
  this ← deref r;
  best ← bestPlayLoop this (Node.allPlays this) None None;
  match best with
  | None => throw NoBestPlay
  | Some play => mret play
  end.

Section Search.

Variable U : UCB1Model.

(** The inner loop of [select]: the play of greatest UCB1, the first one
    among equals. *)
Fixpoint selectBest (this : MonteCarloNode) (plays : list Move)
    (bestPlay : option Move) (bestUCB1 : Score U) : Method MonteCarlo (option Move) :=
  match plays with
  | [] => mret bestPlay
  | play :: rest =>
      w ← get;
      r ← liftOutcome (Node.childNode this play);
      child ← deref r;
      childUCB1 ← Node.getUCB1 U child (UCB1ExploreParam w);
      if score_gt U childUCB1 bestUCB1
      then selectBest this rest (Some play) childUCB1
      else selectBest this rest bestPlay bestUCB1
  end.

(** The outer loop of [select], from the node [r]. *)
Fixpoint selectLoop (fuel : nat) (r : NodeRef) : Method MonteCarlo NodeRef :=
  match fuel with
  | 0%nat => throw OutOfFuel
  | S fuel' =>
      this ← deref r;
      if Node.isFullyExpanded this && negb (Node.isLeaf this) then
        best ← selectBest this (Node.allPlays this) None (minusInfinity U);
        match best with
        | None => throw NoBestPlay
        | Some bestPlay =>
            r' ← liftOutcome (Node.childNode this bestPlay);
            selectLoop fuel' r'
        end
      else mret r
  end.

(** "Phase 1, Selection: Select until not fully expanded OR leaf".  A
    descent visits each node at most once, so the number of nodes bounds
    the loop. *)
Definition select (state : Game) : Method MonteCarlo NodeRef :=
  r ← lookupNode state;
  w ← get;
  selectLoop (S (length (store w))) r.

(** [plays[i]] followed by [doMove] on the element: a [TypeError] when the
    element is [undefined]. *)
Definition doMoveAt (plays : list Move) (i : nat) (g : Game) : Outcome (Move * Game) :=
  match plays !! i with
  | None => Throw TypeError
  | Some move =>
      match doMove move g with
      | (Ok _, g') => Ok (move, g')
      | (Throw e, _) => Throw e
      end
  end.

(** "Phase 2, Expansion: Expand a random unexpanded child node" *)
Definition expand (r : NodeRef) : Method MonteCarlo NodeRef :=
  this ← deref r;
  let plays := Node.unexpandedPlays this in
  i ← randomIndex (length plays);
  let childState := copy (state this) in
  '(randomMove, childState') ← liftOutcome (doMoveAt plays i childState);
  let childUnexpandedPlays := legalMoves (currentState childState') in
  childNode ← Node.expand r randomMove childState' childUnexpandedPlays;
  modify (set_nodes (map_set (hash (currentState childState')) childNode));;
  mret childNode.

(** The loop of [simulate]. *)
Fixpoint simulateLoop (fuel : nat) (state : Game) (winner : GameOutcome) :
    Method MonteCarlo GameOutcome :=
  if bool_decide (winner = none) then
    match fuel with
    | 0%nat => throw OutOfFuel
    | S fuel' =>
        let plays := legalMoves (currentState state) in
        i ← randomIndex (length plays);
        '(_, state') ← liftOutcome (doMoveAt plays i state);
        simulateLoop fuel' state' (checkWinWholeBoard (currentState state'))
    end
  else mret winner.

(** "Phase 3, Simulation: Play game to terminal state, return winner".  A
    game has at most 81 moves. *)
Definition simulate (r : NodeRef) : Method MonteCarlo GameOutcome :=
  this ← deref r;
  let state := copy (state this) in
  simulateLoop 82 state (checkWinWholeBoard (currentState state)).

(** The loop of [backpropagate]. *)
Fixpoint backpropagateLoop (fuel : nat) (currentNode : option NodeRef)
    (winner : GameOutcome) : Method MonteCarlo unit :=
  match currentNode with
  | None => mret tt
  | Some r =>
      match fuel with
      | 0%nat => throw OutOfFuel
      | S fuel' =>
          n ← deref r;
          update r (fun n => Node.set_counts (n_plays n + 1) (n_wins n) n);;
          when (bool_decide (Winner (otherPlayer (playerToMove (currentState (state n)))) = winner))
               (update r (fun n => Node.set_counts (n_plays n) (n_wins n + 1) n));;
          n' ← deref r;
          backpropagateLoop fuel' (parent n') winner
      end
  end.

(** "Phase 4, Backpropagation: Update ancestor statistics" *)
Definition backpropagate (r : NodeRef) (winner : GameOutcome) : Method MonteCarlo unit :=
  w ← get;
  backpropagateLoop (S (length (store w))) (Some r) winner.

(** One turn of the loop of [runSearch]. *)
Definition iteration (state : Game) : Method MonteCarlo unit :=
  r ← select state;
  n ← deref r;
  let winner := checkWinWholeBoard (currentState (stateOf n)) in
  if negb (Node.isLeaf n) && bool_decide (winner = none) then
    r' ← expand r;
    winner' ← simulate r';
    backpropagate r' winner'
  else backpropagate r winner.

Fixpoint iterate (iterations : nat) (state : Game) : Method MonteCarlo unit :=
  match iterations with
  | 0%nat => mret tt
  | S k => iteration state;; iterate k state
  end.

(** [runSearch]: the loop runs while the clock is before the deadline;
    [iterations] is the number of turns that fit before it. *)
Definition runSearch (iterations : nat) (state : Game) : Method MonteCarlo unit :=
  makeNode state;;
  iterate iterations state.

End Search.

End MCTS.

(** An instance of the abstract UCB1 on integers, for running examples:
    the visit count of the child, negated, so that the least visited child
    is preferred. *)
Definition exampleUCB1 : UCB1Model :=
  {| Score := option Z;
     minusInfinity := None;
     ucb1 := fun _ _ plays _ => Some (- plays);
     score_gt := fun a b => match a, b with
                            | Some x, Some y => y <? x
                            | Some _, None => true
                            | None, _ => false
                            end |}.

(** The source of random values that always picks the first element. *)
Definition firstRandom : nat -> nat := fun _ => 0%nat.

(** [runSearch] making exactly one turn of its loop on the initial game,
    from a new [MonteCarlo], and the search object it leaves. *)
Definition afterOneIteration : Outcome unit * MonteCarlo :=
  MCTS.runSearch exampleUCB1 1 (newGame initialGameState) (newMonteCarlo firstRandom).

Definition oneIterationSearch : MonteCarlo :=
  Eval vm_compute in snd afterOneIteration.

(** * Definitions used to state the properties *)

(** The nine coordinates of a 3x3 board, in the order the nested loops of
    the source visit them ([x] outer, [y] inner). *)
Definition cells : list Coordinate :=
  [(0,0); (0,1); (0,2); (1,0); (1,1); (1,2); (2,0); (2,1); (2,2)].

(** Bit position of a cell in a bitboard. *)
Definition bitIndex (c : Coordinate) : Z := c.1 + c.2 * 3.

(** Exchange of the player labels in an outcome. *)
Definition swapLabels (o : GameOutcome) : GameOutcome :=
  match o with
  | Winner p => Winner (otherPlayer p)
  | none => none
  | draw => draw
  end.

(** The three rows, three columns and two diagonals of a 3x3 board. *)
Definition winningTriples : list (list Coordinate) :=
  [ [(0,0); (1,0); (2,0)]; [(0,1); (1,1); (2,1)]; [(0,2); (1,2); (2,2)];
    [(0,0); (0,1); (0,2)]; [(1,0); (1,1); (1,2)]; [(2,0); (2,1); (2,2)];
    [(0,0); (1,1); (2,2)]; [(2,0); (1,1); (0,2)] ].

(** A player owns a triple of the meta-board when the outcome of each of
    its three subgrids is that player; a drawn subgrid belongs to nobody. *)
Definition ownsTriple (sub : Coordinate -> GameOutcome) (p : Player) : bool :=
  existsb (forallb (fun c => bool_decide (sub c = Winner p))) winningTriples.

(** The board outcome as the specification words it, over the meta-board
    [sub] of subgrid outcomes: the winning-triple test (first player
    first, as in [bitboardGridResult]), then drawn when every subgrid is
    decided, in progress otherwise. *)
Definition boardOutcomeSpec (sub : Coordinate -> GameOutcome) : GameOutcome :=
  if ownsTriple sub X then Winner X
  else if ownsTriple sub O then Winner O
  else if forallb (fun c => bool_decide (sub c <> none)) cells then draw
  else none.

(** The bitboard with exactly the cells selected by [f] set. *)
Definition maskOf (f : Coordinate -> bool) : Z :=
  fold_left (fun acc c => if f c then setBit acc c.1 c.2 else acc) cells 0.

(** The subgrid a move is played in, and its cell within that subgrid. *)
Definition subgridOf (m : Move) : Coordinate :=
  (JS.floorDiv3 (coordinate m).1, JS.floorDiv3 (coordinate m).2).

Definition offsetOf (m : Move) : Coordinate :=
  (JS.rem3 (coordinate m).1, JS.rem3 (coordinate m).2).

(** The two ways a move can violate the preconditions of [doMove]. *)
Definition targetOccupied (s : GameState) (m : Move) : Prop :=
  getTile s (coordinate m) <> None.

Definition wrongSubgrid (s : GameState) (m : Move) : Prop :=
  exists a, activeSubgrid s = Forced a /\ coordinatesEqual a (subgridOf m) = false.

(** The state a successful [doMove] leaves behind, written in one piece. *)
Definition afterMove (m : Move) (s : GameState) : GameState :=
  let idx := bitIndex (subgridOf m) in
  let off := offsetOf m in
  let s1 :=
    match player m with
    | X => set_aSubgridBitboard idx
             (setBit (readBitboard (aSubgridBitboard s) idx) off.1 off.2) (push_move m s)
    | O => set_bSubgridBitboard idx
             (setBit (readBitboard (bSubgridBitboard s) idx) off.1 off.2) (push_move m s)
    end in
  let s2 := set_activeSubgrid (Forced off) s1 in
  let s2' :=
    if bool_decide (checkWinSubgrid s2 off <> none)
    then set_activeSubgrid any s2 else s2 in
  let s3 := set_playerToMove (otherPlayer (player m)) s2' in
  set_complete (bool_decide (checkWinWholeBoard s3 <> none)) s3.

(** The state [undoMove] leaves behind. *)
Definition afterUndo (m : Move) (s : GameState) : GameState :=
  let idx := bitIndex (subgridOf m) in
  let off := offsetOf m in
  let s0 := pop_move s in
  let s1 :=
    match player m with
    | X => set_aSubgridBitboard idx
             (unsetBit (readBitboard (aSubgridBitboard s0) idx) off.1 off.2) s0
    | O => set_bSubgridBitboard idx
             (unsetBit (readBitboard (bSubgridBitboard s0) idx) off.1 off.2) s0
    end in
  set_complete false (set_playerToMove (player m)
    (set_activeSubgrid (Forced (currentSubgrid m)) s1)).

(** Concrete moves and states used in examples. *)
Definition m00 : Move := mkMove (0, 0) X (0, 0).

(** Play in which each player takes the first move of [legalMoves()],
    until there is none or [fuel] moves were made. *)
Fixpoint playFirst (fuel : nat) (g : Game) : Game :=
  match fuel with
  | 0%nat => g
  | S fuel' =>
      match legalMoves (currentState g) with
      | [] => g
      | m :: _ =>
          match doMove m g with
          | (Ok _, g') => playFirst fuel' g'
          | (Throw _, g') => g'
          end
      end
  end.

(** A finished game: the state that play reaches from the initial state.
    After 50 moves the second player has won the subgrids (2,0), (1,1) and
    (0,2), a diagonal of the meta-board; the cell (8,8) is still empty. *)
Definition finishedGame : GameState :=
  Eval vm_compute in currentState (playFirst 81 (newGame initialGameState)).

Definition m88 : Move := mkMove (8, 8) X (2, 2).

(** A state in which both players own a triple of the meta-board: the
    first player holds the top row (0b000000111) of the subgrids 0, 1, 2,
    the second player that of the subgrids 3, 4, 5. *)
Definition bothOwnState : GameState :=
  {| aSubgridBitboard :=
       list_to_map [(0, 7); (1, 7); (2, 7); (3, 0); (4, 0); (5, 0); (6, 0); (7, 0); (8, 0)];
     bSubgridBitboard :=
       list_to_map [(0, 0); (1, 0); (2, 0); (3, 7); (4, 7); (5, 7); (6, 0); (7, 0); (8, 0)];
     activeSubgrid := any;
     playerToMove := X;
     complete := false;
     moves := [] |}.

(** Invariant of the states of play: the nine bitboards of each player are
    present and hold 9-bit values, [complete] agrees with the board, and a
    forced subgrid is one of the nine and still in progress. *)
Definition boardsInRange (bb : gmap Z Z) : Prop :=
  forall c, In c cells -> exists v, bb !! bitIndex c = Some v /\ 0 <= v < 512.

Definition wellFormed (s : GameState) : Prop :=
  boardsInRange (aSubgridBitboard s) /\
  boardsInRange (bSubgridBitboard s) /\
  complete s = bool_decide (checkWinWholeBoard s <> none) /\
  (forall a, activeSubgrid s = Forced a -> In a cells /\ checkWinSubgrid s a = none).

(** Invariant of the store of nodes: the counters are ordered, a parent
    was created before its children and has at least their visits, and the
    node of an expanded child names its parent. *)
Definition storeInv (h : list MonteCarloNode) : Prop :=
  (forall r n, h !! r = Some n -> 0 <= n_wins n <= n_plays n) /\
  (forall r n p, h !! r = Some n -> parent n = Some p -> (p < r)%nat) /\
  (forall r n p pn, h !! r = Some n -> parent n = Some p -> h !! p = Some pn ->
                    n_plays n <= n_plays pn) /\
  (forall p pn k ch c, h !! p = Some pn -> In (k, ch) (children pn) -> node ch = Some c ->
                       exists cn, h !! c = Some cn /\ parent cn = Some p).

(** The root of the search is the node at index 0 of the store: the one
    node without a parent. *)
Definition rootAtZero (h : list MonteCarloNode) : Prop :=
  forall r n, h !! r = Some n -> (parent n = None <-> r = 0%nat).

(** Invariant of the visits below the root, between two turns of the loop
    of [runSearch]: every node but the root was counted when it was made,
    and a node that is not the root has at least one visit more than any
    of its children. *)
Definition strictInv (h : list MonteCarloNode) : Prop :=
  rootAtZero h /\
  (forall r n, h !! r = Some n -> r <> 0%nat -> 1 <= n_plays n) /\
  (forall r n p pn, h !! r = Some n -> parent n = Some p -> h !! p = Some pn ->
                    p <> 0%nat -> 1 + n_plays n <= n_plays pn).

(** The statistics of a finished search: wins never exceed visits; the
    root, at index 0, is the one node without a parent, and has at least
    the visits of each of its expanded children; every other node has a
    visit, and at least one visit more than each of its expanded
    children. *)
Definition visitsConsistent (h : list MonteCarloNode) : Prop :=
  forall r n, h !! r = Some n ->
    n_wins n <= n_plays n /\
    (parent n = None <-> r = 0%nat) /\
    (r <> 0%nat -> 1 <= n_plays n) /\
    forall k ch c cn, In (k, ch) (children n) -> node ch = Some c -> h !! c = Some cn ->
                      n_plays cn <= n_plays n /\
                      (r <> 0%nat -> 1 + n_plays cn <= n_plays n).

(** A method that leaves the store of nodes as it found it. *)
Definition keepsStore {A} (m : Method MonteCarlo A) : Prop :=
  forall w, store (snd (m w)) = store w.

(** Partial correctness of a method: from a search object satisfying [P],
    a normal return with value [a] leaves one satisfying [Q a]. *)
Definition hoare {A} (P : MonteCarlo -> Prop) (m : Method MonteCarlo A)
    (Q : A -> MonteCarlo -> Prop) : Prop :=
  forall w a w', P w -> m w = (Ok a, w') -> Q a w'.

(** The invariant of the store in the middle of [backpropagate], when
    [cur] is the next node to count the visit: a child of [cur] may be one
    visit ahead of it. *)
Definition storeInvAt (h : list MonteCarloNode) (cur : option nat) : Prop :=
  (forall r n, h !! r = Some n -> 0 <= n_wins n <= n_plays n) /\
  (forall r n p, h !! r = Some n -> parent n = Some p -> (p < r)%nat) /\
  (forall r n p pn, h !! r = Some n -> parent n = Some p -> h !! p = Some pn ->
                    n_plays n <= n_plays pn \/
                    (cur = Some p /\ n_plays n <= n_plays pn + 1)) /\
  (forall p pn k ch c, h !! p = Some pn -> In (k, ch) (children pn) -> node ch = Some c ->
                       exists cn, h !! c = Some cn /\ parent cn = Some p).

(** The invariant of the visits below the root in the middle of
    [backpropagate]: the node [cur], if just made, has no visit yet, and a
    child of [cur] that was just counted has as many visits as [cur]. *)
Definition strictInvAt (h : list MonteCarloNode) (cur : option nat) : Prop :=
  rootAtZero h /\
  (forall r n, h !! r = Some n -> r <> 0%nat -> 1 <= n_plays n \/ cur = Some r) /\
  (forall r n p pn, h !! r = Some n -> parent n = Some p -> h !! p = Some pn ->
                    p <> 0%nat ->
                    1 + n_plays n <= n_plays pn \/
                    (cur = Some p /\ n_plays n <= n_plays pn)).

(** The second half of the statistics as the specification states it,
    with the "1 +": a node with children has at least one visit more than
    any of its expanded children. *)
Definition parentVisitsStrict (h : list MonteCarloNode) : Prop :=
  forall r n, h !! r = Some n -> Node.isLeaf n = false ->
    forall k ch c cn, In (k, ch) (children n) -> node ch = Some c -> h !! c = Some cn ->
                      1 + n_plays cn <= n_plays n.

(** The plays of a node with the visit counts of their nodes, in the order
    of [children]; [None] when a child is unexpanded. *)
Definition childVisits (h : list MonteCarloNode) (n : MonteCarloNode) : option (list (Move * Z)) :=
  mapM (fun ch => r ← node ch; cn ← h !! r; Some (childPlay ch, n_plays cn))
       (map_values (children n)).

(** The keys of [children] as the constructor and [expand] leave them: the
    key of an entry is the hash of its play, and no key occurs twice. *)
Definition keysOk (ch : list (string * Child)) : Prop :=
  NoDup (map fst ch) /\ forall k c, In (k, c) ch -> k = moveHash (childPlay c).

(** The loop of [bestPlay] over the plays and their visit counts: the best
    play so far with its visits. *)
Fixpoint mostVisited (l : list (Move * Z)) (best : option (Move * Z)) : option (Move * Z) :=
  match l with
  | [] => best
  | (p, v) :: rest =>
      if v =? 0 then mostVisited rest best
      else if match best with None => true | Some (_, mx) => mx <? v end
      then mostVisited rest (Some (p, v))
      else mostVisited rest best
  end.


(** A search with a fully expanded root: 25 turns of the loop from the
    position one move before the end of the play above, where 19 moves are
    legal. *)
Definition lateGame : Game :=
  Eval vm_compute in playFirst 49 (newGame initialGameState).

Definition lateSearch : MonteCarlo :=
  Eval vm_compute in snd (MCTS.runSearch exampleUCB1 25 lateGame (newMonteCarlo firstRandom)).

Definition lateRoot : MonteCarloNode :=
  Eval vm_compute in default (Node.new None None lateGame []) (store lateSearch !! 0%nat).

Definition lateVisits : list (Move * Z) :=
  Eval vm_compute in default [] (childVisits (store lateSearch) lateRoot).

(** * Further definitions *)

(** ** The rest of the rule engine *)

Definition subgridAt (c : Coordinate) : Coordinate :=
  (JS.floorDiv3 c.1, JS.floorDiv3 c.2).

Definition offsetAt (c : Coordinate) : Coordinate :=
  (JS.rem3 c.1, JS.rem3 c.2).

(** A coordinate of the 9x9 board. *)
Definition onBoard (c : Coordinate) : Prop := 0 <= c.1 < 9 /\ 0 <= c.2 < 9.

(** The 81 coordinates of the board, subgrid by subgrid. *)
Definition board : list Coordinate :=
  flat_map (fun c => map (fun o => (c.1 * 3 + o.1, c.2 * 3 + o.2)) cells) cells.

(** Number of cells of the board holding the tile [t]. *)
Definition tileCount (s : GameState) (t : Tile) : nat :=
  length (filter (fun c => getTile s c = t) board).

(** [reset()] *)
Definition reset : Method Game unit :=
  modify (fun g => {| currentState := initialGameState; onMoveCalls := onMoveCalls g |}).

(** States of play without undo: from the initial state by [doMove] of
    moves taken from [legalMoves()]. *)
Inductive played : GameState -> Prop :=
  | played_initial : played initialGameState
  | played_doMove s m calls g' :
      played s ->
      In m (legalMoves s) ->
      doMove m (mkGame s calls) = (Ok tt, g') ->
      played (currentState g').

(** The invariants of play beyond [wellFormed]: the two players' boards
    share no cell, the marks on the board are as many as the moves of the
    history, and the first player has as many marks as the second, or one
    more when the second is to move. *)
Definition noOverlap (s : GameState) : Prop :=
  forall c, In c cells ->
    Z.land (readBitboard (aSubgridBitboard s) (bitIndex c))
           (readBitboard (bSubgridBitboard s) (bitIndex c)) = 0.

Definition countsAgree (s : GameState) : Prop :=
  (tileCount s (Some X) + tileCount s (Some O) = length (moves s))%nat /\
  tileCount s (Some X) =
    (tileCount s (Some O) + match playerToMove s with X => 0 | O => 1 end)%nat.

(** ** The search *)

(** The root of the search, at index 0 of the store, holds the game
    [st] and has counted [k] visits. *)
Definition rootVisits (h : list MonteCarloNode) (st : Game) (k : Z) : Prop :=
  exists root, h !! 0%nat = Some root /\ state root = st /\ n_plays root = k.

(** What the search needs of the floating-point UCB1 with the exploration
    parameter [biasParam]: on a child that has a visit, with no more wins
    than visits and no more visits than its parent, the value is a number
    greater than [-Infinity].  (With a parameter that is not negative, the
    quotient of wins and visits is between 0 and 1 and the square root is
    taken of a number that is not negative.) *)
Definition positiveScores (U : UCB1Model) (biasParam : Z) : Prop :=
  forall wins plays parentPlays,
    0 <= wins <= plays -> 1 <= plays <= parentPlays ->
    score_gt U (ucb1 U biasParam wins plays parentPlays) (minusInfinity U) = true.

(** A method that leaves [UCB1ExploreParam] as it found it. *)
Definition keepsParam {A} (m : Method MonteCarlo A) : Prop :=
  forall w, UCB1ExploreParam (snd (m w)) = UCB1ExploreParam w.

(** The children of a node are filed under the hashes of their plays, and
    their plays are legal moves of the node's game. *)
Definition childrenLegal (n : MonteCarloNode) : Prop :=
  forall k ch, In (k, ch) (children n) ->
    k = moveHash (childPlay ch) /\
    In (childPlay ch) (legalMoves (currentState (state n))).

(** Invariant of the search object for the game [st]: the game has a node,
    the map of nodes points into the store, and every node holds a
    reachable game with its legal moves as children. *)
Definition shapeInv (st : Game) (w : MonteCarlo) : Prop :=
  is_Some (map_get (hash (currentState st)) (nodes w)) /\
  (forall k r, map_get k (nodes w) = Some r -> (r < length (store w))%nat) /\
  (forall r n, store w !! r = Some n ->
               childrenLegal n /\ reachable (currentState (state n))).

Definition searchInv (st : Game) (w : MonteCarlo) : Prop :=
  storeInv (store w) /\ strictInv (store w) /\ shapeInv st w.

(** A play of [this] whose child can be scored: the child is expanded, its
    parent is in the store, and the counters are in the domain of
    [positiveScores]. *)
Definition scorable (w : MonteCarlo) (this : MonteCarloNode) (play : Move) : Prop :=
  exists r cn p pn,
    Node.childNode this play = Ok r /\
    store w !! r = Some cn /\ parent cn = Some p /\ store w !! p = Some pn /\
    0 <= n_wins cn <= n_plays cn /\ 1 <= n_plays cn <= n_plays pn.

(** ** Views of the board *)

(** The move of player [p] at each of the 81 coordinates, in the order of
    [board]. *)
Definition boardMoves (p : Player) : list Move :=
  map (fun c => mkMove c p (subgridAt c)) board.

(** The tile at cell [o] of subgrid [c]. *)
Definition tileAt (s : GameState) (c o : Coordinate) : Tile :=
  getTile s (c.1 * 3 + o.1, c.2 * 3 + o.2).

(** A player holds a triple of a 3x3 grid of tiles. *)
Definition holdsTriple (tiles : Coordinate -> Tile) (p : Player) : bool :=
  existsb (forallb (fun o => bool_decide (tiles o = Some p))) winningTriples.

(** The outcome of a 3x3 grid of tiles: a player who holds a triple, the
    first player first; else drawn when no cell is empty; else in
    progress. *)
Definition gridOutcome (tiles : Coordinate -> Tile) : GameOutcome :=
  if holdsTriple tiles X then Winner X
  else if holdsTriple tiles O then Winner O
  else if forallb (fun o => bool_decide (tiles o <> None)) cells then draw
  else none.

(** Two stores with the same nodes up to their counters. *)
Definition sameShape (h h' : list MonteCarloNode) : Prop :=
  length h' = length h /\
  forall q x', h' !! q = Some x' ->
    exists x, h !! q = Some x /\ children x' = children x /\ state x' = state x.

(** The root of the search for [st], with [u] plays still unexpanded: the
    map of nodes sends the hash of [st] to the root, the games of all
    other nodes have longer hashes, and the children of the root are the
    legal moves of [st] under distinct keys. *)
Definition rootEntry (st : Game) (u : nat) (w : MonteCarlo) : Prop :=
  map_get (hash (currentState st)) (nodes w) = Some 0%nat /\
  (forall r n, store w !! r = Some n -> r <> 0%nat ->
     (String.length (hash (currentState st)) <
      String.length (hash (currentState (state n))))%nat) /\
  exists root, store w !! 0%nat = Some root /\ state root = st /\
               NoDup (map fst (children root)) /\
               length (children root) = length (legalMoves (currentState st)) /\
               length (Node.unexpandedPlays root) = u.

(** * Properties of the rule engine *)

(** ** The 32-bit operators on 9-bit boards *)

Lemma toInt32_mod z :
  JS.toInt32 z = (z + 2 ^ 31) mod 2 ^ 32 - 2 ^ 31.
Proof.
  unfold JS.toInt32. cbv zeta.
  change 4294967295 with (Z.ones 32). rewrite Z.land_ones by lia.
  change 2147483648 with (2 ^ 31). change 4294967296 with (2 ^ 32).
  pose proof (Z.mod_pos_bound z (2 ^ 32) ltac:(lia)) as Hm.
  destruct (Z.ltb_spec (z mod 2 ^ 32) (2 ^ 31)) as [Hlt | Hge].
  - symmetry. apply Z.add_move_r.
    symmetry. apply (Z.mod_unique_pos (z + 2 ^ 31) (2 ^ 32) (z / 2 ^ 32)); [lia |].
    pose proof (Z.div_mod z (2 ^ 32) ltac:(lia)). lia.
  - symmetry. apply Z.add_move_r.
    symmetry. apply (Z.mod_unique_pos (z + 2 ^ 31) (2 ^ 32) (z / 2 ^ 32 + 1)); [lia |].
    pose proof (Z.div_mod z (2 ^ 32) ltac:(lia)). lia.
Qed.

Lemma toInt32_small z : - 2 ^ 31 <= z < 2 ^ 31 -> JS.toInt32 z = z.
Proof.
  intros Hz. rewrite toInt32_mod.
  rewrite Z.mod_small; lia.
Qed.

(** Checking a decidable property of every board in [0, 512) by running it. *)
Lemma forall_boards (P : Z -> bool) :
  forallb P (seqZ 0 512) = true ->
  forall b, 0 <= b < 512 -> P b = true.
Proof.
  intros H b Hb.
  rewrite forallb_forall in H. apply H.
  apply list_elem_of_In, elem_of_seqZ. lia.
Qed.

Lemma cells_range c :
  In c cells <-> In c.1 range3 /\ In c.2 range3.
Proof.
  destruct c as [x y]. unfold cells, range3. simpl. split.
  - intros H. repeat (destruct H as [H | H]; [inversion H; subst; tauto |]). contradiction.
  - intros [Hx Hy].
    repeat (destruct Hx as [Hx | Hx]; [subst x |]); try contradiction;
    repeat (destruct Hy as [Hy | Hy]; [subst y |]); try contradiction; tauto.
Qed.

Lemma getBit_testbit b c :
  0 <= b < 512 -> In c cells ->
  getBit b c.1 c.2 = Z.b2z (Z.testbit b (bitIndex c)).
Proof.
  intros Hb Hc.
  pose proof (forall_boards
    (fun b => forallb (fun c => getBit b c.1 c.2 =? Z.b2z (Z.testbit b (bitIndex c))) cells)) as H.
  specialize (H ltac:(vm_compute; reflexivity) b Hb).
  rewrite forallb_forall in H. apply Z.eqb_eq, H, Hc.
Qed.

Lemma setBit_lor b c :
  0 <= b < 512 -> In c cells ->
  setBit b c.1 c.2 = Z.lor b (2 ^ bitIndex c).
Proof.
  intros Hb Hc.
  pose proof (forall_boards
    (fun b => forallb (fun c => setBit b c.1 c.2 =? Z.lor b (2 ^ bitIndex c)) cells)) as H.
  specialize (H ltac:(vm_compute; reflexivity) b Hb).
  rewrite forallb_forall in H. apply Z.eqb_eq, H, Hc.
Qed.

Lemma setBit_range b c :
  0 <= b < 512 -> In c cells -> 0 <= setBit b c.1 c.2 < 512.
Proof.
  intros Hb Hc.
  pose proof (forall_boards
    (fun b => forallb (fun c => (0 <=? setBit b c.1 c.2) && (setBit b c.1 c.2 <? 512)) cells)) as H.
  specialize (H ltac:(vm_compute; reflexivity) b Hb).
  rewrite forallb_forall in H. specialize (H c Hc).
  apply andb_true_iff in H. lia.
Qed.

Lemma unsetBit_setBit b c :
  0 <= b < 512 -> In c cells -> getBit b c.1 c.2 = 0 ->
  unsetBit (setBit b c.1 c.2) c.1 c.2 = b.
Proof.
  intros Hb Hc.
  pose proof (forall_boards
    (fun b => forallb (fun c => implb (getBit b c.1 c.2 =? 0)
                                      (unsetBit (setBit b c.1 c.2) c.1 c.2 =? b)) cells)) as H.
  specialize (H ltac:(vm_compute; reflexivity) b Hb).
  rewrite forallb_forall in H. specialize (H c Hc).
  intros Hg. rewrite Hg in H. simpl in H. lia.
Qed.

Lemma testbit_setBit b c c' :
  0 <= b < 512 -> In c cells -> In c' cells ->
  Z.testbit (setBit b c.1 c.2) (bitIndex c') =
  Z.testbit b (bitIndex c') || bool_decide (c = c').
Proof.
  intros Hb Hc Hc'.
  rewrite setBit_lor by assumption. rewrite Z.lor_spec. f_equal.
  assert (Hi : forall d, In d cells -> 0 <= bitIndex d).
  { intros [x y] Hd. apply cells_range in Hd. unfold bitIndex, range3 in *. simpl in *. lia. }
  rewrite Z.pow2_bits_eqb by (apply Hi, Hc).
  destruct c as [x y], c' as [x' y'].
  apply cells_range in Hc, Hc'. unfold bitIndex, range3 in *. simpl in *.
  case_bool_decide as Heq.
  - inversion Heq; subst. apply Z.eqb_refl.
  - apply Z.eqb_neq. intros E. apply Heq. f_equal; lia.
Qed.

Lemma full_board_testbit u :
  0 <= u < 512 ->
  (u =? 511) = forallb (fun c => Z.testbit u (bitIndex c)) cells.
Proof.
  intros Hu.
  pose proof (forall_boards
    (fun u => Bool.eqb (u =? 511) (forallb (fun c => Z.testbit u (bitIndex c)) cells))) as H.
  specialize (H ltac:(vm_compute; reflexivity) u Hu).
  apply Bool.eqb_prop in H. exact H.
Qed.

Lemma lor_board_range a b :
  0 <= a < 512 -> 0 <= b < 512 -> 0 <= Z.lor a b < 512.
Proof.
  intros Ha Hb. split; [apply Z.lor_nonneg; lia |].
  destruct (Z.eq_dec (Z.lor a b) 0) as [-> | Hne]; [lia |].
  assert (0 < Z.lor a b) by (pose proof (proj2 (Z.lor_nonneg a b)); lia).
  change 512 with (2 ^ 9). apply Z.log2_lt_pow2; [assumption |].
  rewrite Z.log2_lor by lia.
  assert (Hl : forall z, 0 <= z < 512 -> Z.log2 z < 9).
  { intros z Hz. destruct (Z.eq_dec z 0) as [-> | ]; [reflexivity |].
    apply Z.log2_lt_pow2; lia. }
  specialize (Hl a Ha) as Hla. specialize (Hl b Hb) as Hlb. lia.
Qed.

Lemma bor_board a b :
  0 <= a < 512 -> 0 <= b < 512 -> JS.bor a b = Z.lor a b.
Proof.
  intros Ha Hb. unfold JS.bor. rewrite !toInt32_small; [reflexivity | lia | lia].
Qed.

(** ** Masks built cell by cell *)

Lemma fold_mask (f : Coordinate -> bool) l acc :
  0 <= acc < 512 -> (forall c, In c l -> In c cells) ->
  let r := fold_left (fun acc c => if f c then setBit acc c.1 c.2 else acc) l acc in
  0 <= r < 512 /\
  forall c', In c' cells ->
    Z.testbit r (bitIndex c') =
    Z.testbit acc (bitIndex c') || existsb (fun c => f c && bool_decide (c = c')) l.
Proof.
  revert acc. induction l as [| c l IH]; intros acc Hacc Hl; simpl.
  - split; [assumption |]. intros c' _. now rewrite orb_false_r.
  - assert (Hc : In c cells) by (apply Hl; now left).
    assert (Hl' : forall d, In d l -> In d cells) by (intros d Hd; apply Hl; now right).
    destruct (f c) eqn:Hf.
    + destruct (IH (setBit acc c.1 c.2) (setBit_range _ _ Hacc Hc) Hl') as [Hr Hb].
      split; [exact Hr |]. intros c' Hc'.
      rewrite (Hb c' Hc'), testbit_setBit by assumption.
      simpl. now rewrite orb_assoc.
    + destruct (IH acc Hacc Hl') as [Hr Hb].
      split; [exact Hr |]. intros c' Hc'. now rewrite (Hb c' Hc').
Qed.

Lemma maskOf_range f : 0 <= maskOf f < 512.
Proof. apply (fold_mask f cells 0); [lia | auto]. Qed.

Lemma maskOf_testbit f c :
  In c cells -> Z.testbit (maskOf f) (bitIndex c) = f c.
Proof.
  intros Hc.
  destruct (fold_mask f cells 0 ltac:(lia) ltac:(auto)) as [_ H].
  unfold maskOf. rewrite (H c Hc), Z.bits_0. simpl.
  unfold cells in Hc. simpl in Hc.
  repeat (destruct Hc as [<- | Hc];
          [simpl; repeat (rewrite ?andb_false_r, ?andb_true_r, ?orb_false_r; simpl);
           reflexivity |]).
  contradiction.
Qed.

Lemma triples_in_cells t c : In t winningTriples -> In c t -> In c cells.
Proof.
  unfold winningTriples, cells. simpl. intros Ht Hc.
  repeat (destruct Ht as [<- | Ht];
          [simpl in Hc; repeat (destruct Hc as [<- | Hc]; [tauto |]); contradiction |]).
  contradiction.
Qed.

Lemma forallb_ext_in {A} (f g : A -> bool) l :
  (forall a, In a l -> f a = g a) -> forallb f l = forallb g l.
Proof.
  induction l as [| a l IH]; intros H; simpl; [reflexivity |].
  rewrite (H a) by now left. rewrite IH; [reflexivity |].
  intros b Hb. apply H. now right.
Qed.

Lemma existsb_ext_in {A} (f g : A -> bool) l :
  (forall a, In a l -> f a = g a) -> existsb f l = existsb g l.
Proof.
  induction l as [| a l IH]; intros H; simpl; [reflexivity |].
  rewrite (H a) by now left. rewrite IH; [reflexivity |].
  intros b Hb. apply H. now right.
Qed.

Lemma isBitboardWinning_triples m :
  0 <= m < 512 ->
  isBitboardWinning m =
  existsb (forallb (fun c => Z.testbit m (bitIndex c))) winningTriples.
Proof.
  intros Hm.
  pose proof (forall_boards
    (fun m => Bool.eqb (isBitboardWinning m)
       (existsb (forallb (fun c => Z.testbit m (bitIndex c))) winningTriples))) as H.
  specialize (H ltac:(vm_compute; reflexivity) m Hm).
  apply Bool.eqb_prop in H. exact H.
Qed.

Lemma isBitboardWinning_maskOf f :
  isBitboardWinning (maskOf f) = existsb (forallb f) winningTriples.
Proof.
  rewrite isBitboardWinning_triples by apply maskOf_range.
  apply existsb_ext_in. intros t Ht.
  apply forallb_ext_in. intros c Hc.
  apply maskOf_testbit. eapply triples_in_cells; eassumption.
Qed.

Lemma bor_maskOf f g :
  (JS.bor (maskOf f) (maskOf g) =? 511) = forallb (fun c => f c || g c) cells.
Proof.
  pose proof (maskOf_range f) as Hf. pose proof (maskOf_range g) as Hg.
  rewrite bor_board by assumption.
  rewrite full_board_testbit by (apply lor_board_range; assumption).
  apply forallb_ext_in. intros c Hc.
  now rewrite Z.lor_spec, !maskOf_testbit.
Qed.

Lemma bor3_maskOf f g h :
  (JS.bor (JS.bor (maskOf f) (maskOf g)) (maskOf h) =? 511) =
  forallb (fun c => f c || g c || h c) cells.
Proof.
  pose proof (maskOf_range f) as Hf. pose proof (maskOf_range g) as Hg.
  pose proof (maskOf_range h) as Hh.
  pose proof (lor_board_range _ _ Hf Hg) as Hfg.
  rewrite (bor_board (maskOf f)) by assumption.
  rewrite bor_board by assumption.
  rewrite full_board_testbit by (apply lor_board_range; assumption).
  apply forallb_ext_in. intros c Hc.
  now rewrite !Z.lor_spec, !maskOf_testbit.
Qed.

(** The accumulators of [checkWinWholeBoard] are the masks of the subgrids
    won by the first player, won by the second, and drawn. *)
Lemma metaBitboards_masks sub :
  metaBitboards sub =
  mkMeta (maskOf (fun c => bool_decide (sub c = Winner X)))
         (maskOf (fun c => bool_decide (sub c = Winner O)))
         (maskOf (fun c => bool_decide (sub c = draw))).
Proof.
  assert (Hstep : forall x y fx fo fd l,
    metaStep sub x
      (mkMeta (fold_left (fun acc c => if bool_decide (sub c = Winner X) then setBit acc c.1 c.2 else acc) l fx)
              (fold_left (fun acc c => if bool_decide (sub c = Winner O) then setBit acc c.1 c.2 else acc) l fo)
              (fold_left (fun acc c => if bool_decide (sub c = draw) then setBit acc c.1 c.2 else acc) l fd)) y =
    mkMeta (fold_left (fun acc c => if bool_decide (sub c = Winner X) then setBit acc c.1 c.2 else acc) (l ++ [(x, y)]) fx)
           (fold_left (fun acc c => if bool_decide (sub c = Winner O) then setBit acc c.1 c.2 else acc) (l ++ [(x, y)]) fo)
           (fold_left (fun acc c => if bool_decide (sub c = draw) then setBit acc c.1 c.2 else acc) (l ++ [(x, y)]) fd)).
  { intros x y fx fo fd l. rewrite !fold_left_app. unfold metaStep. simpl.
    destruct (sub (x, y)) as [[|] | |]; reflexivity. }
  unfold metaBitboards, range3. cbn [fold_left].
  change (mkMeta 0 0 0) with
    (mkMeta (fold_left (fun acc c => if bool_decide (sub c = Winner X) then setBit acc c.1 c.2 else acc) [] 0)
            (fold_left (fun acc c => if bool_decide (sub c = Winner O) then setBit acc c.1 c.2 else acc) [] 0)
            (fold_left (fun acc c => if bool_decide (sub c = draw) then setBit acc c.1 c.2 else acc) [] 0)).
  rewrite !Hstep. reflexivity.
Qed.

Lemma wholeBoardResult_spec sub : wholeBoardResult sub = boardOutcomeSpec sub.
Proof.
  unfold wholeBoardResult, boardOutcomeSpec, ownsTriple.
  rewrite metaBitboards_masks. cbn [xWinsBitboard yWinsBitboard neutralBitboard].
  unfold bitboardGridResult.
  rewrite !isBitboardWinning_maskOf, bor_maskOf, bor3_maskOf.
  destruct (existsb _ winningTriples); [reflexivity |].
  destruct (existsb _ winningTriples); [reflexivity |].
  assert (Hd : forallb (fun c => bool_decide (sub c = Winner X) || bool_decide (sub c = Winner O)
                         || bool_decide (sub c = draw)) cells =
               forallb (fun c => bool_decide (sub c <> none)) cells).
  { apply forallb_ext_in. intros c _. destruct (sub c) as [[|] | |]; reflexivity. }
  rewrite Hd. clear Hd.
  destruct (forallb (fun c => bool_decide (sub c = Winner X) || bool_decide (sub c = Winner O)) cells) eqn:Hxo.
  - assert (Hall : forallb (fun c => bool_decide (sub c <> none)) cells = true).
    { rewrite forallb_forall in Hxo |- *. intros c Hc. specialize (Hxo c Hc).
      destruct (sub c) as [[|] | |]; simpl in *; congruence. }
    rewrite Hall. reflexivity.
  - remember (forallb (fun c => bool_decide (sub c <> none)) cells) as q.
    destruct q; reflexivity.
Qed.

(** ** [doMove] and [undoMove] in closed form *)

Ltac unfold_method :=
  unfold when, throw, updState, modify, get, onMove, mbind, Method_bind,
         mret, Method_ret in *.

Lemma doMove_occupied g m :
  targetOccupied (currentState g) m -> doMove m g = (Throw TileAlreadyTaken, g).
Proof.
  unfold targetOccupied, doMove. intros H. unfold_method.
  rewrite bool_decide_eq_true_2 by assumption. reflexivity.
Qed.

Lemma doMove_wrong g m :
  ~ targetOccupied (currentState g) m -> wrongSubgrid (currentState g) m ->
  doMove m g = (Throw MoveNotInActiveSubgrid, g).
Proof.
  unfold targetOccupied, wrongSubgrid, subgridOf, doMove.
  intros H (a & Ha & Hne). unfold_method.
  rewrite bool_decide_eq_false_2 by assumption.
  rewrite Ha, Hne. reflexivity.
Qed.

Lemma doMove_accepted g m :
  ~ targetOccupied (currentState g) m -> ~ wrongSubgrid (currentState g) m ->
  doMove m g = (Ok tt, mkGame (afterMove m (currentState g)) (onMoveCalls g ++ [m])).
Proof.
  unfold targetOccupied, wrongSubgrid, doMove. intros H Hw. unfold_method.
  rewrite bool_decide_eq_false_2 by assumption.
  assert (Hact : match activeSubgrid (currentState g) with
                 | any => false
                 | Forced a => negb (coordinatesEqual a
                     (JS.floorDiv3 (coordinate m).1, JS.floorDiv3 (coordinate m).2))
                 end = false).
  { destruct (activeSubgrid (currentState g)) as [| a] eqn:Ha; [reflexivity |].
    destruct (coordinatesEqual a _) eqn:Hc; [reflexivity |].
    exfalso. apply Hw. exists a. split; [reflexivity | exact Hc]. }
  rewrite Hact. unfold afterMove, subgridOf, offsetOf, bitIndex.
  destruct g as [s calls]. cbn [currentState onMoveCalls fst snd].
  destruct (player m); cbn [currentState onMoveCalls];
    match goal with
    | |- context [bool_decide (checkWinSubgrid ?a ?b <> none)] =>
        destruct (bool_decide (checkWinSubgrid a b <> none))
    end; reflexivity.
Qed.

Lemma undoMove_result g m :
  undoMove m g = (Ok tt, mkGame (afterUndo m (currentState g)) (onMoveCalls g)).
Proof.
  unfold undoMove, afterUndo, subgridOf, offsetOf, bitIndex. unfold_method.
  destruct g as [s calls]. cbn [currentState onMoveCalls fst snd].
  destruct (player m); reflexivity.
Qed.

Lemma targetOccupied_dec s m : targetOccupied s m \/ ~ targetOccupied s m.
Proof. unfold targetOccupied. destruct (getTile s (coordinate m)); [left | right]; congruence. Qed.

Lemma wrongSubgrid_dec s m : wrongSubgrid s m \/ ~ wrongSubgrid s m.
Proof.
  unfold wrongSubgrid. destruct (activeSubgrid s) as [| a].
  - right. intros (a & Ha & _). discriminate.
  - destruct (coordinatesEqual a (subgridOf m)) eqn:Hc.
    + right. intros (a' & Ha & Hn). congruence.
    + left. eauto.
Qed.

(** ** Outcome of a subgrid: symmetry *)

(** C8, as stated, fails: with both bitboards winning (the first holds
    0b111000000, the second 0b000000111) the first argument wins in either
    order, so swapping the arguments does not swap the label. *)
Lemma bitboardGridResult_swap_counterexample :
  (0 <= 448 < 512) /\ (0 <= 7 < 512) /\
  bitboardGridResult 448 7 = Winner X /\
  bitboardGridResult 7 448 = Winner X /\
  bitboardGridResult 7 448 <> swapLabels (bitboardGridResult 448 7).
Proof.
  repeat split; try lia; try (vm_compute; reflexivity).
  vm_compute. discriminate.
Qed.

(** C8 (amended): for every pair of bitboards that are not both winning,
    [bitboardGridResult] of the swapped pair is [bitboardGridResult] of the
    original pair with the player labels exchanged, drawn and in-progress
    mapping to themselves; and for every pair of bitboards that are both
    winning, the first argument wins in either order: both orders give
    the first player. *)
Theorem bitboardGridResult_swap (a b : Z) :
  (~ (isBitboardWinning a = true /\ isBitboardWinning b = true) ->
   bitboardGridResult b a = swapLabels (bitboardGridResult a b)) /\
  (isBitboardWinning a = true -> isBitboardWinning b = true ->
   bitboardGridResult a b = Winner X /\ bitboardGridResult b a = Winner X).
Proof.
  split.
  - intros Hnb. unfold bitboardGridResult.
    assert (Hc : JS.bor b a = JS.bor a b) by (unfold JS.bor; apply Z.lor_comm).
    rewrite Hc.
    destruct (isBitboardWinning a) eqn:Ha, (isBitboardWinning b) eqn:Hb; simpl.
    + exfalso. apply Hnb. split; reflexivity.
    + reflexivity.
    + reflexivity.
    + destruct (JS.bor a b =? 511); reflexivity.
  - intros Ha Hb. unfold bitboardGridResult. rewrite Ha, Hb. split; reflexivity.
Qed.

Lemma bitboardGridResult_swap_witness :
  (bitboardGridResult 24 7 = swapLabels (bitboardGridResult 7 24) /\
   bitboardGridResult 7 24 = Winner X) /\
  (bitboardGridResult 7 56 = Winner X /\ bitboardGridResult 56 7 = Winner X).
Proof.
  split; [split |].
  - apply (proj1 (bitboardGridResult_swap 7 24)).
    vm_compute. intros [_ H]. discriminate H.
  - vm_compute. reflexivity.
  - apply (proj2 (bitboardGridResult_swap 7 56)); vm_compute; reflexivity.
Defined.

(** ** Outcome of the whole board *)

(** C7, as stated, fails: in [bothOwnState] the first player has won the
    subgrids (0,0), (1,0), (2,0) and the second player the subgrids (0,1),
    (1,1), (2,1).  The second player owns a triple of the meta-board, yet
    [checkWinWholeBoard] returns the first player, not the second. *)
Lemma checkWinWholeBoard_meta_board_counterexample :
  ownsTriple (checkWinSubgrid bothOwnState) O = true /\
  ownsTriple (checkWinSubgrid bothOwnState) X = true /\
  checkWinWholeBoard bothOwnState = Winner X /\
  checkWinWholeBoard bothOwnState <> Winner O.
Proof.
  refine (conj _ (conj _ (conj _ _))); try (vm_compute; reflexivity).
  vm_compute. discriminate.
Qed.

(** C7 (amended): [checkWinWholeBoard] is the winning-triple test on the
    meta-board of subgrid outcomes, a drawn subgrid owned by nobody, the
    first player tested first: the first player is returned exactly when
    that player owns a meta-triple, the second player exactly when the
    second player owns one and the first player owns none, drawn exactly
    when nobody owns one and no subgrid is in progress, and in-progress
    exactly when nobody owns one and some subgrid is in progress. *)
Theorem checkWinWholeBoard_meta_board (s : GameState) :
  checkWinWholeBoard s = boardOutcomeSpec (checkWinSubgrid s) /\
  (checkWinWholeBoard s = Winner X <-> ownsTriple (checkWinSubgrid s) X = true) /\
  (checkWinWholeBoard s = Winner O <->
     ownsTriple (checkWinSubgrid s) X = false /\ ownsTriple (checkWinSubgrid s) O = true) /\
  (checkWinWholeBoard s = draw <->
     ownsTriple (checkWinSubgrid s) X = false /\ ownsTriple (checkWinSubgrid s) O = false /\
     forall c, In c cells -> checkWinSubgrid s c <> none) /\
  (checkWinWholeBoard s = none <->
     ownsTriple (checkWinSubgrid s) X = false /\ ownsTriple (checkWinSubgrid s) O = false /\
     exists c, In c cells /\ checkWinSubgrid s c = none).
Proof.
  unfold checkWinWholeBoard. rewrite wholeBoardResult_spec.
  unfold boardOutcomeSpec.
  set (sub := checkWinSubgrid s).
  destruct (ownsTriple sub X) eqn:HX; [| destruct (ownsTriple sub O) eqn:HO].
  - repeat split; intros; try solve [intuition congruence].
  - repeat split; intros; try solve [intuition congruence].
  - destruct (forallb (fun c => bool_decide (sub c <> none)) cells) eqn:Hall.
    + rewrite forallb_forall in Hall.
      assert (Hdec : forall c, In c cells -> sub c <> none).
      { intros c Hc. specialize (Hall c Hc). now apply bool_decide_eq_true in Hall. }
      repeat split; intros; try solve [intuition congruence]; auto.
      destruct H as (_ & _ & c & Hc & Hn). exfalso. exact (Hdec c Hc Hn).
    + assert (Hex : exists c, In c cells /\ sub c = none).
      { apply not_true_iff_false in Hall.
        destruct (existsb (fun c => bool_decide (sub c = none)) cells) eqn:Hex.
        - apply existsb_exists in Hex. destruct Hex as (c & Hc & Hn).
          exists c. split; [exact Hc |]. now apply bool_decide_eq_true in Hn.
        - exfalso. apply Hall. apply forallb_forall. intros c Hc.
          apply bool_decide_eq_true. intros Hn.
          assert (existsb (fun c => bool_decide (sub c = none)) cells = true).
          { apply existsb_exists. exists c. split; [exact Hc |].
            now apply bool_decide_eq_true. }
          congruence. }
      repeat split; intros; try solve [intuition congruence]; auto.
      destruct H as (_ & _ & Hdec). destruct Hex as (c & Hc & Hn).
      exfalso. exact (Hdec c Hc Hn).
Qed.

Lemma checkWinWholeBoard_none_cell s :
  checkWinWholeBoard s = none ->
  exists c, In c cells /\ checkWinSubgrid s c = none.
Proof.
  unfold checkWinWholeBoard. rewrite wholeBoardResult_spec. unfold boardOutcomeSpec.
  destruct (ownsTriple _ X); [discriminate |].
  destruct (ownsTriple _ O); [discriminate |].
  destruct (forallb _ cells) eqn:Hall; [discriminate |]. intros _.
  assert (Hex : exists c, In c cells /\
                bool_decide (checkWinSubgrid s c <> none) = false).
  { clear -Hall. induction cells as [| c l IH]; simpl in Hall; [discriminate |].
    destruct (bool_decide (checkWinSubgrid s c <> none)) eqn:Hc.
    - destruct (IH Hall) as (c' & Hin & Hc'). exists c'. split; [now right | exact Hc'].
    - exists c. split; [now left | exact Hc]. }
  destruct Hex as (c & Hin & Hc). exists c. split; [exact Hin |].
  apply bool_decide_eq_false in Hc.
  destruct (checkWinSubgrid s c); try reflexivity; exfalso; apply Hc; discriminate.
Qed.

(** ** Rejected and accepted moves *)

(** C6: a move onto an occupied cell fails with the occupied-cell error, a
    move outside a forced subgrid with the wrong-subgrid error; in both
    cases the game object (state and record of hook calls) is as before.
    [doMove] fails for no other reason, and a successful [doMove] invokes
    the hook exactly once, with the move. *)
Theorem doMove_rejection_and_hook (g : Game) (m : Move) :
  (targetOccupied (currentState g) m ->
     doMove m g = (Throw TileAlreadyTaken, g)) /\
  (~ targetOccupied (currentState g) m -> wrongSubgrid (currentState g) m ->
     doMove m g = (Throw MoveNotInActiveSubgrid, g)) /\
  (forall e g', doMove m g = (Throw e, g') ->
     g' = g /\ (targetOccupied (currentState g) m \/ wrongSubgrid (currentState g) m)) /\
  (forall g', doMove m g = (Ok tt, g') ->
     onMoveCalls g' = onMoveCalls g ++ [m] /\
     ~ targetOccupied (currentState g) m /\ ~ wrongSubgrid (currentState g) m).
Proof.
  destruct (targetOccupied_dec (currentState g) m) as [Ho | Ho];
    [| destruct (wrongSubgrid_dec (currentState g) m) as [Hw | Hw]].
  - pose proof (doMove_occupied g m Ho) as E.
    repeat split; try tauto; rewrite E in *; try congruence; try discriminate.
  - pose proof (doMove_wrong g m Ho Hw) as E.
    repeat split; try tauto; rewrite E in *; try congruence; try discriminate.
  - pose proof (doMove_accepted g m Ho Hw) as E.
    repeat split; try tauto; rewrite E in *; try congruence; try discriminate.
    inversion H. reflexivity.
Qed.

(** C10: [doMove] never looks at [complete].  In a finished game
    [legalMoves] is empty, yet a move onto an empty cell in an allowed
    subgrid is accepted and changes the state: the move is appended to the
    history. *)
Theorem doMove_ignores_complete (g : Game) (m : Move) :
  complete (currentState g) = true ->
  ~ targetOccupied (currentState g) m ->
  ~ wrongSubgrid (currentState g) m ->
  legalMoves (currentState g) = [] /\
  exists g', doMove m g = (Ok tt, g') /\
             moves (currentState g') = moves (currentState g) ++ [m] /\
             currentState g' <> currentState g.
Proof.
  intros Hc Ho Hw. split.
  - unfold legalMoves. now rewrite Hc.
  - eexists. split; [apply doMove_accepted; assumption |].
    assert (Hm : moves (afterMove m (currentState g)) = moves (currentState g) ++ [m]).
    { unfold afterMove. cbn. destruct (player m); cbn;
        match goal with
        | |- context [bool_decide (checkWinSubgrid ?a ?b <> none)] =>
            destruct (bool_decide (checkWinSubgrid a b <> none))
        end; reflexivity. }
    cbn [currentState]. split; [exact Hm |].
    intros E. rewrite E in Hm.
    apply (f_equal (@length Move)) in Hm. rewrite length_app in Hm. simpl in Hm. lia.
Qed.

(** ** Undo on an empty history *)

(** C2, as stated, fails: on the initial state, whose history is empty,
    [undoMove] returns normally. *)
Lemma undoMove_empty_history_counterexample :
  moves initialGameState = [] /\
  fst (undoMove m00 (newGame initialGameState)) = Ok tt /\
  activeSubgrid (currentState (snd (undoMove m00 (newGame initialGameState)))) = Forced (0, 0).
Proof. repeat split. Qed.

(** C2 (amended): on a state whose history is empty, [undoMove] with any
    move does not fail; it returns normally, the history stays empty, and
    it overwrites [activeSubgrid], [playerToMove] and [complete] from the
    move as on any other state, without a call of the hook. *)
Theorem undoMove_empty_history (g : Game) (m : Move) :
  moves (currentState g) = [] ->
  exists g', undoMove m g = (Ok tt, g') /\
             moves (currentState g') = [] /\
             activeSubgrid (currentState g') = Forced (currentSubgrid m) /\
             playerToMove (currentState g') = player m /\
             complete (currentState g') = false /\
             onMoveCalls g' = onMoveCalls g.
Proof.
  intros Hm. eexists. split; [apply undoMove_result |].
  destruct g as [s calls]. cbn [currentState onMoveCalls] in *.
  unfold afterUndo. destruct (player m); cbn; rewrite Hm; repeat split.
Qed.

Lemma undoMove_empty_history_witness :
  exists g', undoMove m00 (newGame initialGameState) = (Ok tt, g') /\
             moves (currentState g') = [] /\
             activeSubgrid (currentState g') = Forced (currentSubgrid m00) /\
             playerToMove (currentState g') = player m00 /\
             complete (currentState g') = false /\
             onMoveCalls g' = onMoveCalls (newGame initialGameState).
Proof.
  apply (undoMove_empty_history (newGame initialGameState) m00). reflexivity.
Defined.

(** ** What [legalMoves] enumerates *)

Lemma legalMovesSubgrid_In s c m :
  In m (legalMovesSubgrid s c) <->
  exists o, In o cells /\
    JS.truthy (getBit (readBitboard (aSubgridBitboard s) (bitIndex c)) o.1 o.2) = false /\
    JS.truthy (getBit (readBitboard (bSubgridBitboard s) (bitIndex c)) o.1 o.2) = false /\
    m = mkMove (c.1 * 3 + o.1, c.2 * 3 + o.2) (playerToMove s) c.
Proof.
  unfold legalMovesSubgrid, bitIndex. rewrite in_flat_map. split.
  - intros (ox & Hox & H). apply in_flat_map in H. destruct H as (oy & Hoy & H).
    exists (ox, oy). cbn [fst snd].
    destruct (JS.truthy (getBit (readBitboard (aSubgridBitboard s) _) ox oy)); [contradiction |].
    destruct (JS.truthy (getBit (readBitboard (bSubgridBitboard s) _) ox oy)); [contradiction |].
    destruct H as [<- | []].
    split; [apply cells_range; split; assumption |]. repeat split.
  - intros ([ox oy] & Ho & Ha & Hb & ->). cbn [fst snd] in *.
    apply cells_range in Ho. destruct Ho as [Hox Hoy].
    exists ox. split; [exact Hox |]. apply in_flat_map.
    exists oy. split; [exact Hoy |]. rewrite Ha, Hb. now left.
Qed.

Lemma legalMoves_In s m :
  In m (legalMoves s) <->
  complete s = false /\
  exists c, In c cells /\ checkWinSubgrid s c = none /\
            activeAllows (activeSubgrid s) c = true /\
            In m (legalMovesSubgrid s c).
Proof.
  unfold legalMoves. destruct (complete s).
  - split; [contradiction | intros [? _]; discriminate].
  - rewrite in_flat_map. split.
    + intros (x & Hx & H). apply in_flat_map in H. destruct H as (y & Hy & H).
      split; [reflexivity |]. exists (x, y).
      case_bool_decide as Hn; [| contradiction]. simpl in H.
      destruct (activeAllows (activeSubgrid s) (x, y)); [| contradiction].
      split; [apply cells_range; split; assumption |]. repeat split; assumption.
    + intros (_ & [x y] & Hc & Hn & Ha & H).
      apply cells_range in Hc. destruct Hc as [Hx Hy]. cbn [fst snd] in *.
      exists x. split; [exact Hx |]. apply in_flat_map.
      exists y. split; [exact Hy |].
      rewrite bool_decide_eq_true_2 by assumption. simpl. now rewrite Ha.
Qed.

Lemma cell_of_global (c o : Z) :
  In c range3 -> In o range3 ->
  JS.floorDiv3 (c * 3 + o) = c /\ JS.rem3 (c * 3 + o) = o.
Proof.
  unfold range3. simpl. intros Hc Ho.
  repeat (destruct Hc as [<- | Hc]; [| ]); try contradiction;
  repeat (destruct Ho as [<- | Ho]; [| ]); try contradiction; split; reflexivity.
Qed.

(** Shape of a legal move: played in subgrid [c] at cell [o], both empty
    bits there, by the player to move, and carrying [c] as
    [currentSubgrid]. *)
Lemma legalMoves_shape s m :
  In m (legalMoves s) ->
  complete s = false /\
  In (subgridOf m) cells /\ In (offsetOf m) cells /\
  coordinate m = ((subgridOf m).1 * 3 + (offsetOf m).1, (subgridOf m).2 * 3 + (offsetOf m).2) /\
  currentSubgrid m = subgridOf m /\
  player m = playerToMove s /\
  checkWinSubgrid s (subgridOf m) = none /\
  activeAllows (activeSubgrid s) (subgridOf m) = true /\
  JS.truthy (getBit (readBitboard (aSubgridBitboard s) (bitIndex (subgridOf m)))
                    (offsetOf m).1 (offsetOf m).2) = false /\
  JS.truthy (getBit (readBitboard (bSubgridBitboard s) (bitIndex (subgridOf m)))
                    (offsetOf m).1 (offsetOf m).2) = false.
Proof.
  intros H. apply legalMoves_In in H.
  destruct H as (Hc & [cx cy] & Hin & Hn & Ha & H).
  apply legalMovesSubgrid_In in H. destruct H as ([ox oy] & Ho & Hxa & Hxb & ->).
  cbn [fst snd] in *.
  pose proof (proj1 (cells_range _) Hin) as [Hcx Hcy].
  pose proof (proj1 (cells_range _) Ho) as [Hox Hoy].
  cbn [fst snd] in *.
  destruct (cell_of_global cx ox Hcx Hox) as [Edx Erx].
  destruct (cell_of_global cy oy Hcy Hoy) as [Edy Ery].
  unfold subgridOf, offsetOf. cbn [coordinate player currentSubgrid fst snd].
  rewrite Edx, Edy, Erx, Ery. cbn [fst snd].
  repeat split; assumption.
Qed.

Lemma legalMoves_not_occupied s m : In m (legalMoves s) -> ~ targetOccupied s m.
Proof.
  intros H. apply legalMoves_shape in H.
  destruct H as (_ & _ & _ & _ & _ & _ & _ & _ & Ha & Hb).
  unfold targetOccupied, getTile.
  unfold subgridOf, offsetOf, bitIndex in Ha, Hb. cbn [fst snd] in Ha, Hb.
  rewrite Ha, Hb. intros E. now apply E.
Qed.

Lemma legalMoves_not_wrong s m : In m (legalMoves s) -> ~ wrongSubgrid s m.
Proof.
  intros H. apply legalMoves_shape in H.
  destruct H as (_ & _ & _ & _ & _ & _ & _ & Hact & _).
  intros (a & Ha & Hne). rewrite Ha in Hact. simpl in Hact. congruence.
Qed.

Lemma legalMoves_doMove s calls m :
  In m (legalMoves s) ->
  doMove m (mkGame s calls) = (Ok tt, mkGame (afterMove m s) (calls ++ [m])).
Proof.
  intros H.
  exact (doMove_accepted (mkGame s calls) m
           (legalMoves_not_occupied s m H) (legalMoves_not_wrong s m H)).
Qed.

Lemma legalMoves_forced s m a :
  In m (legalMoves s) -> activeSubgrid s = Forced a ->
  coordinatesEqual a (subgridOf m) = true.
Proof.
  intros H Ha. pose proof (legalMoves_not_wrong s m H) as Hw.
  destruct (coordinatesEqual a (subgridOf m)) eqn:E; [reflexivity |].
  exfalso. apply Hw. exists a. split; assumption.
Qed.

(** C9: every move of [legalMoves()] meets the preconditions of [doMove]
    (in any state, reachable or not): its cell is empty, its subgrid is the
    forced one when one is forced, its player is the player to move; so
    [doMove] applies it without reaching an error branch. *)
Theorem legalMoves_accepted_by_doMove (s : GameState) (calls : list Move) (m : Move) :
  In m (legalMoves s) ->
  getTile s (coordinate m) = None /\
  (forall a, activeSubgrid s = Forced a -> coordinatesEqual a (subgridOf m) = true) /\
  player m = playerToMove s /\
  doMove m (mkGame s calls) = (Ok tt, mkGame (afterMove m s) (calls ++ [m])).
Proof.
  intros H.
  pose proof (legalMoves_not_occupied s m H) as Ho.
  pose proof (legalMoves_not_wrong s m H) as Hw.
  pose proof (legalMoves_shape s m H) as (_ & _ & _ & _ & _ & Hp & _).
  repeat split.
  - unfold targetOccupied in Ho. destruct (getTile s (coordinate m)); [| reflexivity].
    exfalso. apply Ho. discriminate.
  - intros a Ha. exact (legalMoves_forced s m a H Ha).
  - exact Hp.
  - exact (legalMoves_doMove s calls m H).
Qed.

Lemma legalMoves_accepted_by_doMove_witness :
  getTile initialGameState (coordinate m00) = None /\
  (forall a, activeSubgrid initialGameState = Forced a ->
             coordinatesEqual a (subgridOf m00) = true) /\
  player m00 = playerToMove initialGameState /\
  doMove m00 (mkGame initialGameState []) =
    (Ok tt, mkGame (afterMove m00 initialGameState) ([] ++ [m00])).
Proof.
  apply (legalMoves_accepted_by_doMove initialGameState [] m00).
  vm_compute. left. reflexivity.
Defined.

(** ** The invariant of reachable states *)

Lemma bitIndex_inj c c' : In c cells -> In c' cells -> bitIndex c = bitIndex c' -> c = c'.
Proof.
  destruct c as [x y], c' as [x' y']. intros Hc Hc'.
  apply cells_range in Hc, Hc'. unfold bitIndex, range3 in *. simpl in *.
  intros E. f_equal; lia.
Qed.

Lemma boardsInRange_read bb c :
  boardsInRange bb -> In c cells ->
  bb !! bitIndex c = Some (readBitboard bb (bitIndex c)) /\
  0 <= readBitboard bb (bitIndex c) < 512.
Proof.
  intros H Hc. destruct (H c Hc) as (v & Hv & Hr).
  unfold readBitboard. rewrite Hv. simpl. split; [reflexivity | exact Hr].
Qed.

Lemma boardsInRange_insert bb c v :
  boardsInRange bb -> 0 <= v < 512 -> boardsInRange (<[bitIndex c := v]> bb).
Proof.
  intros H Hv c' Hc'.
  destruct (Z.eq_dec (bitIndex c) (bitIndex c')) as [E | E].
  - exists v. rewrite E, lookup_insert_eq. split; [reflexivity | exact Hv].
  - rewrite lookup_insert_ne by exact E. apply H, Hc'.
Qed.

Lemma checkWinSubgrid_boards s s' c :
  aSubgridBitboard s = aSubgridBitboard s' ->
  bSubgridBitboard s = bSubgridBitboard s' ->
  checkWinSubgrid s c = checkWinSubgrid s' c.
Proof. intros Ha Hb. unfold checkWinSubgrid. now rewrite Ha, Hb. Qed.

Lemma checkWinWholeBoard_boards s s' :
  aSubgridBitboard s = aSubgridBitboard s' ->
  bSubgridBitboard s = bSubgridBitboard s' ->
  checkWinWholeBoard s = checkWinWholeBoard s'.
Proof.
  intros Ha Hb. unfold checkWinWholeBoard, checkWinSubgrid. now rewrite Ha, Hb.
Qed.

Lemma wellFormed_initial : wellFormed initialGameState.
Proof.
  assert (Hb : boardsInRange emptyBitboards).
  { intros c Hc. exists 0. split; [| lia].
    unfold cells in Hc. simpl in Hc.
    repeat (destruct Hc as [<- | Hc]; [reflexivity |]). contradiction. }
  repeat split; try exact Hb; discriminate.
Qed.

Lemma finish_fields s1 off p :
  let s2 := set_activeSubgrid (Forced off) s1 in
  let s2' := if bool_decide (checkWinSubgrid s2 off <> none)
             then set_activeSubgrid any s2 else s2 in
  let s3 := set_playerToMove p s2' in
  let s' := set_complete (bool_decide (checkWinWholeBoard s3 <> none)) s3 in
  aSubgridBitboard s' = aSubgridBitboard s1 /\
  bSubgridBitboard s' = bSubgridBitboard s1 /\
  activeSubgrid s' = (if bool_decide (checkWinSubgrid s' off <> none) then any else Forced off) /\
  playerToMove s' = p /\
  complete s' = bool_decide (checkWinWholeBoard s' <> none) /\
  moves s' = moves s1.
Proof.
  intros s2 s2' s3 s'.
  assert (Ha : aSubgridBitboard s' = aSubgridBitboard s1).
  { subst s' s3 s2' s2.
    destruct (bool_decide (checkWinSubgrid _ _ <> none)); reflexivity. }
  assert (Hb : bSubgridBitboard s' = bSubgridBitboard s1).
  { subst s' s3 s2' s2.
    destruct (bool_decide (checkWinSubgrid _ _ <> none)); reflexivity. }
  assert (Hsub : checkWinSubgrid s' off = checkWinSubgrid s2 off).
  { apply checkWinSubgrid_boards; [rewrite Ha | rewrite Hb]; reflexivity. }
  assert (Hwhole : checkWinWholeBoard s' = checkWinWholeBoard s3).
  { apply checkWinWholeBoard_boards; reflexivity. }
  refine (conj Ha (conj Hb (conj _ (conj _ (conj _ _))))).
  - rewrite Hsub. subst s' s3 s2'.
    destruct (bool_decide (checkWinSubgrid s2 off <> none)); reflexivity.
  - reflexivity.
  - rewrite Hwhole. reflexivity.
  - subst s' s3 s2' s2.
    destruct (bool_decide (checkWinSubgrid _ _ <> none)); reflexivity.
Qed.

(** The fields of [afterMove], one by one. *)
Lemma afterMove_fields m s :
  let idx := bitIndex (subgridOf m) in
  let off := offsetOf m in
  let s' := afterMove m s in
  aSubgridBitboard s' =
    match player m with
    | X => <[idx := setBit (readBitboard (aSubgridBitboard s) idx) off.1 off.2]> (aSubgridBitboard s)
    | O => aSubgridBitboard s
    end /\
  bSubgridBitboard s' =
    match player m with
    | X => bSubgridBitboard s
    | O => <[idx := setBit (readBitboard (bSubgridBitboard s) idx) off.1 off.2]> (bSubgridBitboard s)
    end /\
  activeSubgrid s' = (if bool_decide (checkWinSubgrid s' off <> none) then any else Forced off) /\
  playerToMove s' = otherPlayer (player m) /\
  complete s' = bool_decide (checkWinWholeBoard s' <> none) /\
  moves s' = moves s ++ [m].
Proof.
  cbv zeta. unfold afterMove.
  match goal with
  | |- context [set_activeSubgrid (Forced ?off) ?s1] =>
      pose proof (finish_fields s1 off (otherPlayer (player m))) as H
  end.
  cbv zeta in H. destruct H as (Ha & Hb & Hact & Hp & Hc & Hm).
  refine (conj _ (conj _ (conj Hact (conj Hp (conj Hc _))))).
  - rewrite Ha. destruct (player m); reflexivity.
  - rewrite Hb. destruct (player m); reflexivity.
  - rewrite Hm. destruct (player m); reflexivity.
Qed.

Lemma wellFormed_afterMove s m :
  wellFormed s -> In m (legalMoves s) -> wellFormed (afterMove m s).
Proof.
  intros (Hra & Hrb & _ & _) Hm.
  pose proof (legalMoves_shape s m Hm) as (_ & Hsub & Hoff & _).
  pose proof (afterMove_fields m s) as H. cbv zeta in H.
  destruct H as (Ha & Hb & Hact & _ & Hc & _).
  destruct (boardsInRange_read _ _ Hra Hsub) as [_ Hxa].
  destruct (boardsInRange_read _ _ Hrb Hsub) as [_ Hxb].
  refine (conj _ (conj _ (conj Hc _))).
  - rewrite Ha. destruct (player m); [| exact Hra].
    apply boardsInRange_insert; [exact Hra |]. now apply setBit_range.
  - rewrite Hb. destruct (player m); [exact Hrb |].
    apply boardsInRange_insert; [exact Hrb |]. now apply setBit_range.
  - intros a Hf. rewrite Hact in Hf.
    destruct (decide (checkWinSubgrid (afterMove m s) (offsetOf m) = none)) as [E | E].
    + rewrite bool_decide_eq_false_2 in Hf by (intros Hne; exact (Hne E)).
      inversion Hf; subst a. split; [exact Hoff | exact E].
    + rewrite bool_decide_eq_true_2 in Hf by exact E. discriminate.
Qed.

(** ** Legal moves exist until the game is complete *)

Lemma forallb_exists_false {A} (f : A -> bool) l :
  forallb f l = false -> exists a, In a l /\ f a = false.
Proof.
  induction l as [| a l IH]; simpl; [discriminate |].
  destruct (f a) eqn:Hf; simpl.
  - intros H. destruct (IH H) as (b & Hb & Hfb). exists b. split; [now right | exact Hfb].
  - intros _. exists a. split; [now left | exact Hf].
Qed.

Lemma none_has_free_cell xb yb :
  0 <= xb < 512 -> 0 <= yb < 512 ->
  bitboardGridResult xb yb = none ->
  exists o, In o cells /\ getBit xb o.1 o.2 = 0 /\ getBit yb o.1 o.2 = 0.
Proof.
  intros Hx Hy. unfold bitboardGridResult.
  destruct (isBitboardWinning xb); [discriminate |].
  destruct (isBitboardWinning yb); [discriminate |].
  destruct (JS.bor xb yb =? 511) eqn:Hfull; [discriminate |]. intros _.
  rewrite bor_board in Hfull by assumption.
  rewrite full_board_testbit in Hfull by (apply lor_board_range; assumption).
  destruct (forallb_exists_false _ cells Hfull) as (o & Ho & Hbit).
  exists o. split; [exact Ho |].
  rewrite Z.lor_spec in Hbit. apply orb_false_iff in Hbit. destruct Hbit as [Hbx Hby].
  rewrite !getBit_testbit by assumption. now rewrite Hbx, Hby.
Qed.

Lemma legalMoves_nonempty s :
  wellFormed s -> complete s = false -> exists m, In m (legalMoves s).
Proof.
  intros (Hra & Hrb & Hc & Hact) Hnc.
  assert (Hnone : checkWinWholeBoard s = none).
  { rewrite Hc in Hnc. apply bool_decide_eq_false in Hnc.
    destruct (checkWinWholeBoard s); try reflexivity; exfalso; apply Hnc; discriminate. }
  destruct (checkWinWholeBoard_none_cell s Hnone) as (c0 & Hc0 & Hn0).
  assert (Hpick : exists c, In c cells /\ checkWinSubgrid s c = none /\
                            activeAllows (activeSubgrid s) c = true).
  { destruct (activeSubgrid s) as [| a] eqn:Ea.
    - exists c0. repeat split; assumption.
    - destruct (Hact a eq_refl) as [Hin Hn]. exists a. repeat split; try assumption.
      unfold activeAllows, coordinatesEqual. now rewrite !Z.eqb_refl. }
  destruct Hpick as (c & Hin & Hn & Hallow).
  destruct (boardsInRange_read _ _ Hra Hin) as [_ Hxa].
  destruct (boardsInRange_read _ _ Hrb Hin) as [_ Hxb].
  unfold checkWinSubgrid in Hn. fold (bitIndex c) in Hn.
  destruct (none_has_free_cell _ _ Hxa Hxb Hn) as (o & Ho & Hga & Hgb).
  exists (mkMove (c.1 * 3 + o.1, c.2 * 3 + o.2) (playerToMove s) c).
  apply legalMoves_In. split; [exact Hnc |].
  exists c. refine (conj Hin (conj Hn (conj Hallow _))).
  apply legalMovesSubgrid_In. exists o. rewrite Hga, Hgb. repeat split. exact Ho.
Qed.

(** ** A move followed by its undo *)

Lemma removelast_snoc {A} (l : list A) a : removelast (l ++ [a]) = l.
Proof.
  induction l as [| b l IH]; [reflexivity |].
  simpl. destruct (l ++ [a]) eqn:E.
  - destruct l; discriminate.
  - now rewrite IH.
Qed.

Lemma coordinatesEqual_eq a b : coordinatesEqual a b = true -> a = b.
Proof.
  destruct a, b. unfold coordinatesEqual. simpl.
  intros H. apply andb_true_iff in H. destruct H as [H1 H2].
  apply Z.eqb_eq in H1, H2. now subst.
Qed.

Lemma truthy_false z : JS.truthy z = false -> z = 0.
Proof. unfold JS.truthy. intros H. apply negb_false_iff in H. now apply Z.eqb_eq. Qed.

Lemma insert_restore (bb : gmap Z Z) c o :
  boardsInRange bb -> In c cells -> In o cells ->
  getBit (readBitboard bb (bitIndex c)) o.1 o.2 = 0 ->
  let bb' := <[bitIndex c := setBit (readBitboard bb (bitIndex c)) o.1 o.2]> bb in
  <[bitIndex c := unsetBit (readBitboard bb' (bitIndex c)) o.1 o.2]> bb' = bb.
Proof.
  intros Hr Hc Ho Hg bb'.
  destruct (boardsInRange_read bb c Hr Hc) as [Hl Hv].
  assert (Hread : readBitboard bb' (bitIndex c) =
                  setBit (readBitboard bb (bitIndex c)) o.1 o.2).
  { unfold readBitboard at 1. subst bb'. now rewrite lookup_insert_eq. }
  rewrite Hread, unsetBit_setBit by assumption.
  subst bb'. rewrite insert_insert_eq. now apply insert_id.
Qed.

(** [doMove] followed by [undoMove] on a well-formed state, for a move of
    [legalMoves()]. *)
Lemma doMove_undoMove_wellFormed (s : GameState) (calls : list Move) (m : Move) :
  wellFormed s ->
  In m (legalMoves s) ->
  exists g1 g2,
    doMove m (mkGame s calls) = (Ok tt, g1) /\
    undoMove m g1 = (Ok tt, g2) /\
    aSubgridBitboard (currentState g2) = aSubgridBitboard s /\
    bSubgridBitboard (currentState g2) = bSubgridBitboard s /\
    playerToMove (currentState g2) = playerToMove s /\
    complete (currentState g2) = complete s /\
    moves (currentState g2) = moves s /\
    activeSubgrid (currentState g2) = Forced (subgridOf m) /\
    (forall a, activeSubgrid s = Forced a -> activeSubgrid (currentState g2) = activeSubgrid s) /\
    (activeSubgrid s = any -> activeSubgrid (currentState g2) <> activeSubgrid s).
Proof.
  intros (Hra & Hrb & _ & _) Hm.
  pose proof (legalMoves_doMove s calls m Hm) as Hdo.
  pose proof (fun a => legalMoves_forced s m a Hm) as Hforced.
  pose proof (legalMoves_shape s m Hm)
    as (Hc & Hsub & Hoff & _ & Hcur & Hp & _ & _ & Hga & Hgb).
  apply truthy_false in Hga, Hgb.
  pose proof (afterMove_fields m s) as H. cbv zeta in H.
  destruct H as (Ha & Hb & _ & _ & _ & Hmv).
  eexists. eexists. split; [exact Hdo |]. split; [apply undoMove_result |].
  cbn [currentState]. unfold afterUndo.
  set (s' := afterMove m s) in *.
  destruct (player m) eqn:Epl; cbn [aSubgridBitboard bSubgridBitboard playerToMove complete
      moves activeSubgrid set_complete set_playerToMove set_activeSubgrid
      set_aSubgridBitboard set_bSubgridBitboard pop_move];
    rewrite ?Ha, ?Hb, ?Hmv, ?removelast_snoc, ?Hcur.
  - rewrite (insert_restore _ _ _ Hra Hsub Hoff Hga).
    refine (conj eq_refl (conj eq_refl (conj _ (conj _ (conj eq_refl (conj eq_refl (conj _ _))))))).
    + congruence.
    + congruence.
    + intros a Hf. rewrite Hf. f_equal. symmetry.
      apply coordinatesEqual_eq, Hforced, Hf.
    + intros Hany. rewrite Hany. discriminate.
  - rewrite (insert_restore _ _ _ Hrb Hsub Hoff Hgb).
    refine (conj eq_refl (conj eq_refl (conj _ (conj _ (conj eq_refl (conj eq_refl (conj _ _))))))).
    + congruence.
    + congruence.
    + intros a Hf. rewrite Hf. f_equal. symmetry.
      apply coordinatesEqual_eq, Hforced, Hf.
    + intros Hany. rewrite Hany. discriminate.
Qed.

Lemma reachable_wellFormed s : reachable s -> wellFormed s.
Proof.
  induction 1 as [| s m calls g' _ IH Hm Hdo | s m calls g1 g2 _ IH Hm Hdo Hundo].
  - apply wellFormed_initial.
  - pose proof (legalMoves_doMove s calls m Hm) as E.
    rewrite E in Hdo. inversion Hdo; subst g'. cbn [currentState].
    now apply wellFormed_afterMove.
  - destruct (doMove_undoMove_wellFormed s calls m IH Hm)
      as (g1' & g2' & Hdo' & Hundo' & Ha & Hb & _ & Hc & _ & Hact & _).
    rewrite Hdo in Hdo'. inversion Hdo'; subst g1'.
    rewrite Hundo in Hundo'. inversion Hundo'; subst g2'.
    pose proof (legalMoves_shape s m Hm) as (_ & Hsub & _ & _ & _ & _ & Hnone & _).
    destruct IH as (Hra & Hrb & Hcs & _).
    refine (conj _ (conj _ (conj _ _))).
    + now rewrite Ha.
    + now rewrite Hb.
    + rewrite Hc, Hcs. f_equal.
      rewrite (checkWinWholeBoard_boards _ s Ha Hb). reflexivity.
    + intros a Hf. rewrite Hact in Hf. inversion Hf; subst a.
      split; [exact Hsub |].
      rewrite (checkWinSubgrid_boards _ s _ Ha Hb). exact Hnone.
Qed.

(** C5: in every reachable state (reached by legal moves, the last of
    which may have been undone), [legalMoves()] is empty exactly when
    [complete] is true, and [complete] is true exactly when the outcome of
    the whole board is not in-progress. *)
Theorem legalMoves_empty_iff_complete (s : GameState) :
  reachable s ->
  (legalMoves s = [] <-> complete s = true) /\
  (complete s = true <-> checkWinWholeBoard s <> none).
Proof.
  intros Hr. pose proof (reachable_wellFormed s Hr) as Hwf. split.
  - split.
    + intros Hnil. destruct (complete s) eqn:Hc; [reflexivity |].
      destruct (legalMoves_nonempty s Hwf Hc) as (m & Hm).
      rewrite Hnil in Hm. contradiction.
    + intros Hc. unfold legalMoves. now rewrite Hc.
  - destruct Hwf as (_ & _ & Hc & _). rewrite Hc. apply bool_decide_eq_true.
Qed.

Lemma legalMoves_empty_iff_complete_witness :
  (legalMoves initialGameState = [] <-> complete initialGameState = true) /\
  (complete initialGameState = true <-> checkWinWholeBoard initialGameState <> none).
Proof.
  apply (legalMoves_empty_iff_complete initialGameState). apply reachable_initial.
Defined.

(** What [doMove] followed by [undoMove] restores on a reachable state, for
    a move of [legalMoves()]: both bitboard arrays, the player to move,
    [complete] and the history.  [activeSubgrid] comes back as the subgrid
    the move was played in, which is the earlier value when a subgrid was
    forced, and is not when the earlier value was [any]. *)
Theorem doMove_undoMove_restores (s : GameState) (calls : list Move) (m : Move) :
  reachable s ->
  In m (legalMoves s) ->
  exists g1 g2,
    doMove m (mkGame s calls) = (Ok tt, g1) /\
    undoMove m g1 = (Ok tt, g2) /\
    aSubgridBitboard (currentState g2) = aSubgridBitboard s /\
    bSubgridBitboard (currentState g2) = bSubgridBitboard s /\
    playerToMove (currentState g2) = playerToMove s /\
    complete (currentState g2) = complete s /\
    moves (currentState g2) = moves s /\
    activeSubgrid (currentState g2) = Forced (subgridOf m) /\
    (forall a, activeSubgrid s = Forced a -> activeSubgrid (currentState g2) = activeSubgrid s) /\
    (activeSubgrid s = any -> activeSubgrid (currentState g2) <> activeSubgrid s).
Proof.
  intros Hr. apply doMove_undoMove_wellFormed. now apply reachable_wellFormed.
Qed.

Lemma doMove_undoMove_restores_witness :
  exists g1 g2,
    doMove m00 (mkGame initialGameState []) = (Ok tt, g1) /\
    undoMove m00 g1 = (Ok tt, g2) /\
    aSubgridBitboard (currentState g2) = aSubgridBitboard initialGameState /\
    bSubgridBitboard (currentState g2) = bSubgridBitboard initialGameState /\
    playerToMove (currentState g2) = playerToMove initialGameState /\
    complete (currentState g2) = complete initialGameState /\
    moves (currentState g2) = moves initialGameState /\
    activeSubgrid (currentState g2) = Forced (subgridOf m00) /\
    (forall a, activeSubgrid initialGameState = Forced a ->
               activeSubgrid (currentState g2) = activeSubgrid initialGameState) /\
    (activeSubgrid initialGameState = any ->
       activeSubgrid (currentState g2) <> activeSubgrid initialGameState).
Proof.
  apply (doMove_undoMove_restores initialGameState [] m00).
  - apply reachable_initial.
  - vm_compute. left. reflexivity.
Defined.

(** C1 fails on the code.  On the initial state, where [activeSubgrid] is
    [any], the legal move at (0,0) carries [currentSubgrid = (0,0)];
    [doMove] then [undoMove] both succeed, the bitboards, the player to
    move, [complete] and the history are as before, but [activeSubgrid] is
    the subgrid (0,0) and no longer [any]. *)
Theorem doMove_undoMove_loses_any :
  reachable initialGameState /\
  In m00 (legalMoves initialGameState) /\
  activeSubgrid initialGameState = any /\
  exists g1 g2,
    doMove m00 (newGame initialGameState) = (Ok tt, g1) /\
    undoMove m00 g1 = (Ok tt, g2) /\
    aSubgridBitboard (currentState g2) = aSubgridBitboard initialGameState /\
    bSubgridBitboard (currentState g2) = bSubgridBitboard initialGameState /\
    playerToMove (currentState g2) = playerToMove initialGameState /\
    complete (currentState g2) = complete initialGameState /\
    activeSubgrid (currentState g2) = Forced (0, 0) /\
    currentState g2 <> initialGameState.
Proof.
  split; [apply reachable_initial |].
  split; [vm_compute; left; reflexivity |].
  split; [reflexivity |].
  eexists. eexists.
  split; [vm_compute; reflexivity |].
  split; [vm_compute; reflexivity |].
  repeat split; try (vm_compute; reflexivity).
  intros E. apply (f_equal activeSubgrid) in E. vm_compute in E. discriminate E.
Qed.

(** ** A finished game reached by play *)

Lemma playFirst_reachable fuel g :
  reachable (currentState g) -> reachable (currentState (playFirst fuel g)).
Proof.
  revert g. induction fuel as [| fuel IH]; intros g Hr; simpl; [exact Hr |].
  destruct (legalMoves (currentState g)) as [| m rest] eqn:El; [exact Hr |].
  assert (Hm : In m (legalMoves (currentState g))) by (rewrite El; now left).
  destruct g as [s calls]. cbn [currentState] in *.
  pose proof (legalMoves_doMove s calls m Hm) as E.
  rewrite E. apply IH. cbn [currentState].
  exact (reachable_doMove s m calls _ Hr Hm E).
Qed.

Lemma finishedGame_reachable : reachable finishedGame.
Proof.
  assert (E : finishedGame = currentState (playFirst 81 (newGame initialGameState)))
    by (vm_compute; reflexivity).
  rewrite E. apply playFirst_reachable. apply reachable_initial.
Qed.

Lemma doMove_ignores_complete_witness :
  reachable finishedGame /\
  complete finishedGame = true /\
  legalMoves finishedGame = [] /\
  exists g', doMove m88 (newGame finishedGame) = (Ok tt, g') /\
             moves (currentState g') = moves finishedGame ++ [m88] /\
             currentState g' <> finishedGame.
Proof.
  split; [exact finishedGame_reachable |].
  split; [reflexivity |].
  apply (doMove_ignores_complete (newGame finishedGame) m88).
  - reflexivity.
  - unfold targetOccupied. vm_compute. intros H. apply H. reflexivity.
  - unfold wrongSubgrid. intros (a & Ha & _). discriminate Ha.
Defined.

(** * Properties of the search *)

(** ** Rules for methods *)

Lemma bind_inv {S A B} (m : Method S A) (k : A -> Method S B) w b w' :
  (m ≫= k) w = (Ok b, w') ->
  exists a w1, m w = (Ok a, w1) /\ k a w1 = (Ok b, w').
Proof.
  unfold mbind, Method_bind. destruct (m w) as [[a | e] w1]; [| discriminate].
  intros H. exists a, w1. split; [reflexivity | exact H].
Qed.

Lemma hoare_bind {A B} P (m : Method MonteCarlo A) (k : A -> Method MonteCarlo B) Q R :
  hoare P m Q -> (forall a, hoare (Q a) (k a) R) -> hoare P (m ≫= k) R.
Proof.
  intros Hm Hk w b w' HP E.
  apply bind_inv in E. destruct E as (a & w1 & E1 & E2).
  exact (Hk a w1 b w' (Hm w a w1 HP E1) E2).
Qed.

Lemma hoare_ret {A} (P : MonteCarlo -> Prop) (a : A) : hoare P (mret a) (fun a' w => a' = a /\ P w).
Proof. intros w a' w' HP E. inversion E; subst. split; [reflexivity | exact HP]. Qed.

Lemma hoare_weaken {A} (P P' : MonteCarlo -> Prop) (m : Method MonteCarlo A)
    (Q Q' : A -> MonteCarlo -> Prop) :
  hoare P m Q -> (forall w, P' w -> P w) -> (forall a w, Q a w -> Q' a w) -> hoare P' m Q'.
Proof. intros H HP HQ w a w' HP' E. apply HQ. exact (H w a w' (HP _ HP') E). Qed.

Lemma hoare_throw {A} P e (Q : A -> MonteCarlo -> Prop) : hoare P (throw e) Q.
Proof. intros w a w' _ E. discriminate E. Qed.

Lemma hoare_get P : hoare P get (fun a w => a = w /\ P w).
Proof. intros w a w' HP E. inversion E; subst. split; [reflexivity | exact HP]. Qed.

Lemma hoare_deref P r :
  hoare P (deref r) (fun n w => store w !! r = Some n /\ P w).
Proof.
  intros w n w' HP E. unfold deref in E.
  destruct (store w !! r) eqn:El; inversion E; subst. split; [exact El | exact HP].
Qed.

Lemma hoare_liftOutcome {A} P (o : Outcome A) :
  hoare P (liftOutcome o) (fun a w => o = Ok a /\ P w).
Proof. intros w a w' HP E. unfold liftOutcome in E. inversion E; subst. split; [reflexivity | exact HP]. Qed.

Lemma keepsStore_bind {A B} (m : Method MonteCarlo A) (k : A -> Method MonteCarlo B) :
  keepsStore m -> (forall a, keepsStore (k a)) -> keepsStore (m ≫= k).
Proof.
  intros Hm Hk w. unfold mbind, Method_bind.
  specialize (Hm w). destruct (m w) as [[a | e] w1]; simpl in *.
  - rewrite Hk. exact Hm.
  - exact Hm.
Qed.

Lemma keepsStore_ret {A} (a : A) : keepsStore (mret a).
Proof. intros w. reflexivity. Qed.

Lemma keepsStore_throw {A} e : keepsStore (@throw MonteCarlo A e).
Proof. intros w. reflexivity. Qed.

Lemma keepsStore_get : keepsStore get.
Proof. intros w. reflexivity. Qed.

Lemma keepsStore_deref r : keepsStore (deref r).
Proof. intros w. unfold deref. destruct (store w !! r); reflexivity. Qed.

Lemma keepsStore_liftOutcome {A} (o : Outcome A) : keepsStore (liftOutcome o).
Proof. intros w. reflexivity. Qed.

Lemma keepsStore_randomIndex len : keepsStore (randomIndex len).
Proof. intros w. reflexivity. Qed.

Lemma keepsStore_set_nodes f : keepsStore (modify (set_nodes f)).
Proof. intros w. reflexivity. Qed.

Lemma keepsStore_hoare {A} (m : Method MonteCarlo A) (P : list MonteCarloNode -> Prop) :
  keepsStore m -> hoare (fun w => P (store w)) m (fun _ w => P (store w)).
Proof.
  intros Hk w a w' HP E. specialize (Hk w). rewrite E in Hk. simpl in Hk.
  now rewrite Hk.
Qed.

Create HintDb keeps.
#[local] Hint Resolve keepsStore_ret keepsStore_throw keepsStore_get keepsStore_deref
  keepsStore_liftOutcome keepsStore_randomIndex keepsStore_set_nodes : keeps.

Ltac keeps_step :=
  first [ apply keepsStore_bind; [| intros ?]
        | solve [auto with keeps]
        | match goal with
          | |- keepsStore (match ?x with _ => _ end) => destruct x
          | |- keepsStore (if ?b then _ else _) => destruct b
          | |- keepsStore (let '(_, _) := ?x in _) => destruct x
          end ].

Section SearchReads.

Variable U : UCB1Model.

Lemma keepsStore_getUCB1 n b : keepsStore (Node.getUCB1 U n b).
Proof. unfold Node.getUCB1. repeat keeps_step. Qed.

Lemma keepsStore_selectBest this plays best score :
  keepsStore (MCTS.selectBest U this plays best score).
Proof.
  revert best score. induction plays as [| p plays IH]; intros best score; simpl.
  - auto with keeps.
  - repeat (first [apply keepsStore_getUCB1 | apply IH | keeps_step]).
Qed.

Lemma keepsStore_selectLoop fuel r : keepsStore (MCTS.selectLoop U fuel r).
Proof.
  revert r. induction fuel as [| fuel IH]; intros r; simpl.
  - auto with keeps.
  - repeat (first [apply keepsStore_selectBest | apply IH | keeps_step]).
Qed.

Lemma keepsStore_lookupNode st : keepsStore (MCTS.lookupNode st).
Proof. unfold MCTS.lookupNode. repeat keeps_step. Qed.

Lemma keepsStore_select st : keepsStore (MCTS.select U st).
Proof.
  unfold MCTS.select.
  repeat (first [apply keepsStore_lookupNode | apply keepsStore_selectLoop | keeps_step]).
Qed.

Lemma keepsStore_simulateLoop fuel st winner :
  keepsStore (MCTS.simulateLoop fuel st winner).
Proof.
  revert st winner. induction fuel as [| fuel IH]; intros st winner; simpl.
  - destruct (bool_decide (winner = none)); auto with keeps.
  - destruct (bool_decide (winner = none)); [| auto with keeps].
    repeat (first [apply IH | keeps_step]).
Qed.

Lemma keepsStore_simulate r : keepsStore (MCTS.simulate r).
Proof.
  unfold MCTS.simulate. repeat (first [apply keepsStore_simulateLoop | keeps_step]).
Qed.

End SearchReads.

(** ** The invariant of the store under allocation and update *)

Lemma map_set_In {V} k (v : V) l k' v' :
  In (k', v') (map_set k v l) -> (k', v') = (k, v) \/ In (k', v') l.
Proof.
  induction l as [| [k0 v0] l IH]; simpl.
  - intros [H | []]. left. now symmetry.
  - destruct (decide (k = k0)); simpl.
    + intros [H | H]; [left; now symmetry | right; now right].
    + intros [H | H]; [right; now left |].
      destruct (IH H) as [E | E]; [now left | right; now right].
Qed.

Lemma new_children_unexpanded parent play st plays k ch :
  In (k, ch) (children (Node.new parent play st plays)) -> node ch = None.
Proof.
  unfold Node.new. cbn [children].
  assert (H : forall acc, (forall k ch, In (k, ch) acc -> node ch = None) ->
    In (k, ch) (fold_left (fun ch p => map_set (moveHash p) (mkChild p None) ch) plays acc) ->
    node ch = None).
  { induction plays as [| p plays IH]; intros acc Hacc; simpl.
    - apply Hacc.
    - apply IH. intros k' ch' Hin. apply map_set_In in Hin.
      destruct Hin as [E | Hin]; [inversion E; reflexivity | exact (Hacc _ _ Hin)]. }
  apply H. intros ? ? [].
Qed.

Lemma lookup_snoc {A} (h : list A) (n : A) r x :
  (h ++ [n]) !! r = Some x ->
  (r < length h)%nat /\ h !! r = Some x \/ r = length h /\ x = n.
Proof.
  intros H. destruct (decide (r < length h)%nat) as [Hlt | Hge].
  - rewrite lookup_app_l in H by exact Hlt. left. split; assumption.
  - rewrite lookup_app_r in H by lia.
    destruct (r - length h)%nat as [| d] eqn:Ed; simpl in H.
    + inversion H. right. split; [lia | reflexivity].
    + destruct d; discriminate.
Qed.

Lemma storeInv_alloc h n :
  storeInv h ->
  n_plays n = 0 -> n_wins n = 0 ->
  (forall p, parent n = Some p -> (p < length h)%nat) ->
  (forall k ch, In (k, ch) (children n) -> node ch = None) ->
  storeInv (h ++ [n]).
Proof.
  intros (I1 & I2 & I3 & I4) Hp Hw Hpar Hch.
  refine (conj _ (conj _ (conj _ _))).
  - intros r x Hx. apply lookup_snoc in Hx. destruct Hx as [[_ Hx] | [_ ->]].
    + exact (I1 r x Hx).
    + lia.
  - intros r x p Hx Hpx. apply lookup_snoc in Hx. destruct Hx as [[_ Hx] | [-> ->]].
    + exact (I2 r x p Hx Hpx).
    + exact (Hpar p Hpx).
  - intros r x p px Hx Hpx Hlp.
    apply lookup_snoc in Hx. destruct Hx as [[Hr Hx] | [-> ->]].
    + pose proof (I2 r x p Hx Hpx) as Hlt.
      apply lookup_snoc in Hlp. destruct Hlp as [[_ Hlp] | [-> _]]; [| lia].
      exact (I3 r x p px Hx Hpx Hlp).
    + pose proof (Hpar p Hpx) as Hlt.
      apply lookup_snoc in Hlp. destruct Hlp as [[_ Hlp] | [-> _]]; [| lia].
      pose proof (I1 p px Hlp). lia.
  - intros p px k ch c Hlp Hin Hc.
    apply lookup_snoc in Hlp. destruct Hlp as [[_ Hlp] | [-> ->]].
    + destruct (I4 p px k ch c Hlp Hin Hc) as (cn & Hcn & Hpc).
      exists cn. split; [| exact Hpc].
      rewrite lookup_app_l; [exact Hcn |]. now apply lookup_lt_Some in Hcn.
    + rewrite (Hch k ch Hin) in Hc. discriminate.
Qed.

Lemma lookup_insert_cases {A} (h : list A) r x r' y :
  (<[r := x]> h) !! r' = Some y ->
  (r' = r /\ y = x /\ (r < length h)%nat) \/ (r' <> r /\ h !! r' = Some y).
Proof.
  intros H. destruct (decide (r' = r)) as [-> | Hne].
  - left. assert (Hlt : (r < length h)%nat).
    { apply lookup_lt_Some in H. now rewrite length_insert in H. }
    rewrite list_lookup_insert_eq in H by exact Hlt. inversion H. repeat split. exact Hlt.
  - right. rewrite list_lookup_insert_ne in H by congruence. split; assumption.
Qed.

(** Linking a freshly allocated child into its parent. *)
Lemma storeInv_set_child h this tn k play c cn :
  storeInv h ->
  h !! this = Some tn ->
  h !! c = Some cn -> parent cn = Some this ->
  storeInv (<[this := Node.set_children
                        (map_set k (mkChild play (Some c)) (children tn)) tn]> h).
Proof.
  intros (I1 & I2 & I3 & I4) Ht Hc Hpc.
  set (tn' := Node.set_children _ tn).
  assert (Hsame : n_plays tn' = n_plays tn /\ n_wins tn' = n_wins tn /\ parent tn' = parent tn)
    by (repeat split).
  destruct Hsame as (Ep & Ew & Epar).
  assert (Hlook : forall r x, (<[this := tn']> h) !! r = Some x ->
            exists x0, h !! r = Some x0 /\ n_plays x = n_plays x0 /\
                       n_wins x = n_wins x0 /\ parent x = parent x0 /\
                       (r <> this -> x = x0) /\ (r = this -> x = tn')).
  { intros r x Hx. apply lookup_insert_cases in Hx.
    destruct Hx as [(-> & -> & _) | (Hne & Hx)].
    - exists tn. repeat split; try assumption; intros; congruence.
    - exists x. repeat split; try assumption; intros; congruence. }
  assert (Hback : forall r x0, h !! r = Some x0 ->
            exists x, (<[this := tn']> h) !! r = Some x /\ parent x = parent x0).
  { intros r x0 Hx0. destruct (decide (r = this)) as [-> | Hne].
    - exists tn'. rewrite list_lookup_insert_eq by (now apply lookup_lt_Some in Ht).
      split; [reflexivity |]. rewrite Epar. congruence.
    - exists x0. rewrite list_lookup_insert_ne by congruence. split; [exact Hx0 | reflexivity]. }
  refine (conj _ (conj _ (conj _ _))).
  - intros r x Hx. destruct (Hlook r x Hx) as (x0 & Hx0 & E1 & E2 & _).
    rewrite E1, E2. exact (I1 r x0 Hx0).
  - intros r x p Hx Hpx. destruct (Hlook r x Hx) as (x0 & Hx0 & _ & _ & E3 & _).
    rewrite E3 in Hpx. exact (I2 r x0 p Hx0 Hpx).
  - intros r x p px Hx Hpx Hlp.
    destruct (Hlook r x Hx) as (x0 & Hx0 & E1 & _ & E3 & _).
    destruct (Hlook p px Hlp) as (px0 & Hpx0 & F1 & _).
    rewrite E1, F1. rewrite E3 in Hpx. exact (I3 r x0 p px0 Hx0 Hpx Hpx0).
  - intros p px k' ch c' Hlp Hin Hnode.
    destruct (Hlook p px Hlp) as (px0 & Hpx0 & _ & _ & _ & Hother & Hthis).
    destruct (decide (p = this)) as [-> | Hne].
    + rewrite (Hthis eq_refl) in Hin. unfold tn' in Hin. cbn [children Node.set_children] in Hin.
      apply map_set_In in Hin. destruct Hin as [E | Hin].
      * inversion E; subst. cbn in Hnode. inversion Hnode; subst c'.
        destruct (Hback c cn Hc) as (x & Hx & Hpx). exists x. split; [exact Hx |]. congruence.
      * destruct (I4 this tn k' ch c' Ht Hin Hnode) as (cn' & Hcn' & Hpar').
        destruct (Hback c' cn' Hcn') as (x & Hx & Hpx). exists x. split; [exact Hx |]. congruence.
    + rewrite (Hother Hne) in Hin.
      destruct (I4 p px0 k' ch c' Hpx0 Hin Hnode) as (cn' & Hcn' & Hpar').
      destruct (Hback c' cn' Hcn') as (x & Hx & Hpx). exists x. split; [exact Hx |]. congruence.
Qed.

(** ** Backpropagation *)

Lemma storeInvAt_start h r : storeInv h -> storeInvAt h (Some r).
Proof.
  intros (I1 & I2 & I3 & I4). refine (conj I1 (conj I2 (conj _ I4))).
  intros c n p pn Hc Hp Hpn. left. exact (I3 c n p pn Hc Hp Hpn).
Qed.

Lemma storeInvAt_end h : storeInvAt h None -> storeInv h.
Proof.
  intros (I1 & I2 & I3 & I4). refine (conj I1 (conj I2 (conj _ I4))).
  intros c n p pn Hc Hp Hpn.
  destruct (I3 c n p pn Hc Hp Hpn) as [H | [H _]]; [exact H | discriminate].
Qed.

(** Counting one visit at [r], and possibly one win, moves the invariant
    from [r] to the parent of [r]. *)
Lemma storeInvAt_count h r n (win : bool) :
  storeInvAt h (Some r) ->
  h !! r = Some n ->
  storeInvAt (<[r := Node.set_counts (n_plays n + 1)
                       (if win then n_wins n + 1 else n_wins n) n]> h)
             (parent n).
Proof.
  intros (I1 & I2 & I3 & I4) Hr.
  set (n' := Node.set_counts _ _ n).
  assert (Hlt : (r < length h)%nat) by (now apply lookup_lt_Some in Hr).
  assert (Hlook : forall q x, (<[r := n']> h) !! q = Some x ->
            exists x0, h !! q = Some x0 /\ parent x = parent x0 /\
                       children x = children x0 /\
                       (q <> r -> x = x0) /\ (q = r -> x0 = n /\ x = n')).
  { intros q x Hx. apply lookup_insert_cases in Hx.
    destruct Hx as [(-> & -> & _) | (Hne & Hx)].
    - exists n. repeat split; try assumption; intros; congruence.
    - exists x. repeat split; try assumption; intros; congruence. }
  assert (Hback : forall q x0, h !! q = Some x0 ->
            exists x, (<[r := n']> h) !! q = Some x /\ parent x = parent x0).
  { intros q x0 Hx0. destruct (decide (q = r)) as [-> | Hne].
    - exists n'. rewrite list_lookup_insert_eq by exact Hlt.
      split; [reflexivity |]. unfold n'. cbn. congruence.
    - exists x0. rewrite list_lookup_insert_ne by congruence. split; [exact Hx0 | reflexivity]. }
  refine (conj _ (conj _ (conj _ _))).
  - intros q x Hx. destruct (Hlook q x Hx) as (x0 & Hx0 & _ & _ & Hother & Hthis).
    destruct (decide (q = r)) as [E | E].
    + destruct (Hthis E) as [-> ->]. pose proof (I1 r n Hr).
      unfold n'. cbn. destruct win; lia.
    + rewrite (Hother E). exact (I1 q x0 Hx0).
  - intros q x p Hx Hp. destruct (Hlook q x Hx) as (x0 & Hx0 & Epar & _).
    rewrite Epar in Hp. exact (I2 q x0 p Hx0 Hp).
  - intros c x p px Hx Hp Hpx.
    destruct (Hlook c x Hx) as (x0 & Hx0 & Epar & _ & Hother & Hthis).
    destruct (Hlook p px Hpx) as (px0 & Hpx0 & _ & _ & Hpother & Hpthis).
    rewrite Epar in Hp.
    pose proof (I2 c x0 p Hx0 Hp) as Hpc.
    pose proof (I3 c x0 p px0 Hx0 Hp Hpx0) as Hle.
    destruct (decide (c = r)) as [Ec | Ec]; destruct (decide (p = r)) as [Ep | Ep].
    + lia.
    + destruct (Hthis Ec) as [-> ->]. rewrite (Hpother Ep).
      right. split; [exact Hp |].
      destruct Hle as [Hle | [Hcur _]]; [| inversion Hcur; lia].
      unfold n'. cbn. lia.
    + rewrite (Hother Ec). destruct (Hpthis Ep) as [-> ->].
      left. unfold n'. cbn. destruct Hle as [Hle | [_ Hle]]; lia.
    + rewrite (Hother Ec), (Hpother Ep).
      destruct Hle as [Hle | [Hcur _]]; [left; exact Hle | inversion Hcur; lia].
  - intros p px k ch c Hpx Hin Hnode.
    destruct (Hlook p px Hpx) as (px0 & Hpx0 & _ & Ech & _).
    rewrite Ech in Hin.
    destruct (I4 p px0 k ch c Hpx0 Hin Hnode) as (cn & Hcn & Hpar).
    destruct (Hback c cn Hcn) as (x & Hx & Hpx'). exists x. split; [exact Hx | congruence].
Qed.

Lemma backpropagateLoop_step fuel r winner w n :
  store w !! r = Some n ->
  MCTS.backpropagateLoop (S fuel) (Some r) winner w =
  MCTS.backpropagateLoop fuel (parent n) winner
    (set_store (fun h => <[r := Node.set_counts (n_plays n + 1)
        (if bool_decide (Winner (otherPlayer (playerToMove (currentState (state n)))) = winner)
         then n_wins n + 1 else n_wins n) n]> h) w).
Proof.
  intros Hr.
  assert (Hlt : (r < length (store w))%nat) by (now apply lookup_lt_Some in Hr).
  cbn [MCTS.backpropagateLoop].
  unfold mbind, Method_bind, deref, update, modify, when, mret, Method_ret, set_store.
  cbn [store]. rewrite Hr.
  destruct (bool_decide _);
    repeat first [ progress cbn [store]
                 | rewrite Hr
                 | rewrite list_lookup_insert_eq by (rewrite ?length_insert; exact Hlt)
                 | rewrite list_insert_insert_eq ];
    reflexivity.
Qed.

Lemma hoare_backpropagateLoop fuel cur winner :
  hoare (fun w => storeInvAt (store w) cur)
        (MCTS.backpropagateLoop fuel cur winner)
        (fun _ w => storeInv (store w)).
Proof.
  revert cur. induction fuel as [| fuel IH]; intros [r |] w a w' HP E.
  - discriminate E.
  - inversion E; subst. now apply storeInvAt_end.
  - destruct (store w !! r) as [n |] eqn:Hr.
    + rewrite (backpropagateLoop_step fuel r winner w n Hr) in E.
      refine (IH (parent n) _ a w' _ E). cbn [store set_store].
      now apply storeInvAt_count.
    + cbn [MCTS.backpropagateLoop] in E.
      unfold mbind, Method_bind, deref in E. rewrite Hr in E. discriminate E.
  - inversion E; subst. now apply storeInvAt_end.
Qed.

Lemma hoare_backpropagate r winner :
  hoare (fun w => storeInv (store w)) (MCTS.backpropagate r winner)
        (fun _ w => storeInv (store w)).
Proof.
  intros w a w' HP E. unfold MCTS.backpropagate in E.
  unfold mbind, Method_bind, get in E.
  refine (hoare_backpropagateLoop _ (Some r) winner w a w' _ E).
  now apply storeInvAt_start.
Qed.

(** ** Creation and expansion of nodes *)

Ltac minv E :=
  repeat (apply bind_inv in E;
          let a := fresh "a" in let w := fresh "w" in let E1 := fresh "E" in
          destruct E as (a & w & E1 & E)).

Lemma keepsStore_eq {A} (m : Method MonteCarlo A) w o w1 :
  keepsStore m -> m w = (o, w1) -> store w1 = store w.
Proof. intros Hk E. specialize (Hk w). now rewrite E in Hk. Qed.

Lemma deref_inv r w n w1 : deref r w = (Ok n, w1) -> w1 = w /\ store w !! r = Some n.
Proof.
  unfold deref. destruct (store w !! r) eqn:E; intros H; inversion H; subst.
  split; reflexivity.
Qed.

Lemma hoare_makeNode st :
  hoare (fun w => storeInv (store w)) (MCTS.makeNode st) (fun _ w => storeInv (store w)).
Proof.
  intros w a w' HP E. unfold MCTS.makeNode in E.
  apply bind_inv in E. destruct E as (w0 & w1 & E0 & E).
  inversion E0; subst w0 w1. clear E0.
  destruct (negb (map_has _ _)).
  - apply bind_inv in E. destruct E as (r & w1 & E1 & E).
    unfold alloc in E1. inversion E1; subst r w1. clear E1.
    unfold modify in E. inversion E; subst w'. cbn [store set_nodes set_store].
    apply storeInv_alloc; try reflexivity; try assumption.
    + intros p Hp. discriminate Hp.
    + intros k ch. apply new_children_unexpanded.
  - inversion E; subst. exact HP.
Qed.

Lemma hoare_Node_expand this play childState plays :
  hoare (fun w => storeInv (store w))
        (Node.expand this play childState plays)
        (fun _ w => storeInv (store w)).
Proof.
  intros w a w' HP E. unfold Node.expand in E.
  apply bind_inv in E. destruct E as (n & w1 & E1 & E).
  apply deref_inv in E1. destruct E1 as [-> Hn].
  destruct (negb (map_has _ _)); [discriminate E |].
  apply bind_inv in E. destruct E as (c & w1 & E1 & E).
  unfold alloc in E1. inversion E1; subst c w1. clear E1.
  apply bind_inv in E. destruct E as ([] & w1 & E1 & E).
  inversion E; subst a w'. clear E.
  unfold update, modify in E1. inversion E1; subst w1. clear E1.
  cbn [store set_store].
  assert (Hlt : (this < length (store w))%nat) by (now apply lookup_lt_Some in Hn).
  set (child := Node.new (Some this) (Some play) childState plays).
  assert (Hn1 : (store w ++ [child]) !! this = Some n)
    by (rewrite lookup_app_l; assumption).
  rewrite Hn1.
  apply (storeInv_set_child _ this n _ play (length (store w)) child).
  - apply storeInv_alloc; try reflexivity; try assumption.
    + intros p Hp. inversion Hp; subst p. exact Hlt.
    + intros k ch. apply new_children_unexpanded.
  - exact Hn1.
  - rewrite lookup_app_r by lia. now rewrite Nat.sub_diag.
  - reflexivity.
Qed.

Section SearchInvariant.

Variable U : UCB1Model.

Lemma hoare_expand r :
  hoare (fun w => storeInv (store w)) (MCTS.expand r) (fun _ w => storeInv (store w)).
Proof.
  intros w a w' HP E. unfold MCTS.expand in E.
  apply bind_inv in E. destruct E as (this & w1 & E1 & E).
  apply deref_inv in E1. destruct E1 as [-> Hthis].
  apply bind_inv in E. destruct E as (i & w1 & E1 & E).
  pose proof (keepsStore_eq _ _ _ _ (keepsStore_randomIndex _) E1) as Hs1.
  apply bind_inv in E. destruct E as ([randomMove childState'] & w2 & E2 & E).
  pose proof (keepsStore_eq _ _ _ _ (keepsStore_liftOutcome _) E2) as Hs2.
  apply bind_inv in E. destruct E as (childNode & w3 & E3 & E).
  assert (H3 : storeInv (store w3)).
  { refine (hoare_Node_expand _ _ _ _ w2 childNode w3 _ E3). now rewrite Hs2, Hs1. }
  apply bind_inv in E. destruct E as ([] & w4 & E4 & E).
  pose proof (keepsStore_eq _ _ _ _ (keepsStore_set_nodes _) E4) as Hs4.
  inversion E; subst. now rewrite Hs4.
Qed.

Lemma hoare_iteration st :
  hoare (fun w => storeInv (store w)) (MCTS.iteration U st) (fun _ w => storeInv (store w)).
Proof.
  intros w a w' HP E. unfold MCTS.iteration in E.
  apply bind_inv in E. destruct E as (r & w1 & E1 & E).
  pose proof (keepsStore_eq _ _ _ _ (keepsStore_select U st) E1) as Hs1.
  apply bind_inv in E. destruct E as (n & w2 & E2 & E).
  apply deref_inv in E2. destruct E2 as [-> Hn].
  assert (H1 : storeInv (store w1)) by (now rewrite Hs1).
  destruct (negb (Node.isLeaf n) && bool_decide (_ = none)).
  - apply bind_inv in E. destruct E as (r' & w2 & E2 & E).
    pose proof (hoare_expand r w1 r' w2 H1 E2) as H2.
    apply bind_inv in E. destruct E as (winner' & w3 & E3 & E).
    pose proof (keepsStore_eq _ _ _ _ (keepsStore_simulate r') E3) as Hs3.
    refine (hoare_backpropagate r' winner' w3 a w' _ E). now rewrite Hs3.
  - exact (hoare_backpropagate r _ w1 a w' H1 E).
Qed.

Lemma hoare_iterate k st :
  hoare (fun w => storeInv (store w)) (MCTS.iterate U k st) (fun _ w => storeInv (store w)).
Proof.
  induction k as [| k IH]; intros w a w' HP E; simpl in E.
  - inversion E; subst. exact HP.
  - apply bind_inv in E. destruct E as ([] & w1 & E1 & E).
    exact (IH w1 a w' (hoare_iteration st w tt w1 HP E1) E).
Qed.

Lemma hoare_runSearch k st :
  hoare (fun w => storeInv (store w)) (MCTS.runSearch U k st) (fun _ w => storeInv (store w)).
Proof.
  intros w a w' HP E. unfold MCTS.runSearch in E.
  apply bind_inv in E. destruct E as ([] & w1 & E1 & E).
  exact (hoare_iterate k st w1 a w' (hoare_makeNode st w tt w1 HP E1) E).
Qed.

End SearchInvariant.

Lemma storeInv_empty : storeInv [].
Proof.
  refine (conj _ (conj _ (conj _ _))); intros *; rewrite lookup_nil; discriminate.
Qed.


(** ** The visits below the root *)

Lemma strictInvAt_start h r : strictInv h -> strictInvAt h (Some r).
Proof.
  intros (V0 & V1 & V2). refine (conj V0 (conj _ _)).
  - intros q n Hq Hq0. left. exact (V1 q n Hq Hq0).
  - intros c n p pn Hc Hp Hpn Hp0. left. exact (V2 c n p pn Hc Hp Hpn Hp0).
Qed.

Lemma strictInvAt_end h : strictInvAt h None -> strictInv h.
Proof.
  intros (V0 & V1 & V2). refine (conj V0 (conj _ _)).
  - intros q n Hq Hq0. destruct (V1 q n Hq Hq0) as [H | H]; [exact H | discriminate].
  - intros c n p pn Hc Hp Hpn Hp0.
    destruct (V2 c n p pn Hc Hp Hpn Hp0) as [H | [H _]]; [exact H | discriminate].
Qed.

(** Counting one visit at [r] moves the invariant from [r] to its parent:
    [r] now has a visit, and is level with its parent until the parent is
    counted in turn. *)
Lemma strictInvAt_count h r n (win : bool) :
  storeInvAt h (Some r) ->
  strictInvAt h (Some r) ->
  h !! r = Some n ->
  strictInvAt (<[r := Node.set_counts (n_plays n + 1)
                        (if win then n_wins n + 1 else n_wins n) n]> h)
              (parent n).
Proof.
  intros (I1 & I2 & _ & _) (V0 & V1 & V2) Hr.
  set (n' := Node.set_counts _ _ n).
  assert (Hlook : forall q x, (<[r := n']> h) !! q = Some x ->
            exists x0, h !! q = Some x0 /\ parent x = parent x0 /\
                       (q <> r -> x = x0) /\ (q = r -> x0 = n /\ x = n')).
  { intros q x Hx. apply lookup_insert_cases in Hx.
    destruct Hx as [(-> & -> & _) | (Hne & Hx)].
    - exists n. repeat split; try assumption; intros; congruence.
    - exists x. repeat split; try assumption; intros; congruence. }
  refine (conj _ (conj _ _)).
  - intros q x Hx. destruct (Hlook q x Hx) as (x0 & Hx0 & Epar & _).
    rewrite Epar. exact (V0 q x0 Hx0).
  - intros q x Hx Hq0. destruct (Hlook q x Hx) as (x0 & Hx0 & _ & Hother & Hthis).
    left. destruct (decide (q = r)) as [E | E].
    + destruct (Hthis E) as [-> ->]. pose proof (I1 r n Hr). unfold n'. cbn. lia.
    + rewrite (Hother E).
      destruct (V1 q x0 Hx0 Hq0) as [H | H]; [exact H | congruence].
  - intros c x p px Hx Hp Hpx Hp0.
    destruct (Hlook c x Hx) as (x0 & Hx0 & Epar & Hother & Hthis).
    destruct (Hlook p px Hpx) as (px0 & Hpx0 & _ & Hpother & Hpthis).
    rewrite Epar in Hp.
    pose proof (I2 c x0 p Hx0 Hp) as Hpc.
    pose proof (V2 c x0 p px0 Hx0 Hp Hpx0 Hp0) as Hle.
    destruct (decide (c = r)) as [Ec | Ec]; destruct (decide (p = r)) as [Ep | Ep].
    + lia.
    + destruct (Hthis Ec) as [-> ->]. rewrite (Hpother Ep).
      right. split; [exact Hp |].
      destruct Hle as [Hle | [Hcur _]]; [| congruence].
      unfold n'. cbn. lia.
    + rewrite (Hother Ec). destruct (Hpthis Ep) as [-> ->].
      left. unfold n'. cbn. destruct Hle as [Hle | [_ Hle]]; lia.
    + rewrite (Hother Ec), (Hpother Ep).
      destruct Hle as [Hle | [Hcur _]]; [left; exact Hle | congruence].
Qed.

Lemma hoare_backpropagateLoop_strict fuel cur winner :
  hoare (fun w => storeInvAt (store w) cur /\ strictInvAt (store w) cur)
        (MCTS.backpropagateLoop fuel cur winner)
        (fun _ w => strictInv (store w)).
Proof.
  revert cur. induction fuel as [| fuel IH]; intros [r |] w a w' [HI HV] E.
  - discriminate E.
  - inversion E; subst. now apply strictInvAt_end.
  - destruct (store w !! r) as [n |] eqn:Hr.
    + rewrite (backpropagateLoop_step fuel r winner w n Hr) in E.
      refine (IH (parent n) _ a w' _ E). cbn [store set_store]. split.
      * now apply storeInvAt_count.
      * now apply strictInvAt_count.
    + cbn [MCTS.backpropagateLoop] in E.
      unfold mbind, Method_bind, deref in E. rewrite Hr in E. discriminate E.
  - inversion E; subst. now apply strictInvAt_end.
Qed.

Lemma hoare_backpropagate_strict r winner :
  hoare (fun w => storeInv (store w) /\ strictInvAt (store w) (Some r))
        (MCTS.backpropagate r winner)
        (fun _ w => strictInv (store w)).
Proof.
  intros w a w' [HI HV] E. unfold MCTS.backpropagate in E.
  unfold mbind, Method_bind, get in E.
  refine (hoare_backpropagateLoop_strict _ (Some r) winner w a w' _ E).
  split; [now apply storeInvAt_start | exact HV].
Qed.

(** A new child of [this], not yet counted, at the end of the store. *)
Lemma strictInvAt_alloc h this tn n :
  storeInv h -> strictInv h ->
  h !! this = Some tn ->
  parent n = Some this -> n_plays n = 0 ->
  strictInvAt (h ++ [n]) (Some (length h)).
Proof.
  intros (I1 & I2 & _ & _) (V0 & V1 & V2) Ht Hpar Hplays.
  assert (Hlt : (this < length h)%nat) by (now apply lookup_lt_Some in Ht).
  refine (conj _ (conj _ _)).
  - intros q x Hx. apply lookup_snoc in Hx. destruct Hx as [[_ Hx] | [-> ->]].
    + exact (V0 q x Hx).
    + rewrite Hpar. split; [discriminate | lia].
  - intros q x Hx Hq0. apply lookup_snoc in Hx. destruct Hx as [[_ Hx] | [-> ->]].
    + left. exact (V1 q x Hx Hq0).
    + right. reflexivity.
  - intros c x p px Hx Hp Hpx Hp0. left.
    apply lookup_snoc in Hx. destruct Hx as [[Hc Hx] | [-> ->]].
    + pose proof (I2 c x p Hx Hp) as Hpc.
      apply lookup_snoc in Hpx. destruct Hpx as [[_ Hpx] | [-> _]]; [| lia].
      exact (V2 c x p px Hx Hp Hpx Hp0).
    + rewrite Hpar in Hp. inversion Hp; subst p.
      apply lookup_snoc in Hpx. destruct Hpx as [[_ Hpx] | [-> _]]; [| lia].
      pose proof (V1 this px Hpx Hp0). lia.
Qed.

(** The invariant reads the visits and the parents only. *)
Lemma strictInvAt_set_children h cur this tn ch :
  strictInvAt h cur ->
  h !! this = Some tn ->
  strictInvAt (<[this := Node.set_children ch tn]> h) cur.
Proof.
  intros (V0 & V1 & V2) Ht.
  assert (Hlook : forall q x, (<[this := Node.set_children ch tn]> h) !! q = Some x ->
            exists x0, h !! q = Some x0 /\ parent x = parent x0 /\ n_plays x = n_plays x0).
  { intros q x Hx. apply lookup_insert_cases in Hx.
    destruct Hx as [(-> & -> & _) | (Hne & Hx)].
    - exists tn. repeat split. exact Ht.
    - exists x. repeat split. exact Hx. }
  refine (conj _ (conj _ _)).
  - intros q x Hx. destruct (Hlook q x Hx) as (x0 & Hx0 & Epar & _).
    rewrite Epar. exact (V0 q x0 Hx0).
  - intros q x Hx Hq0. destruct (Hlook q x Hx) as (x0 & Hx0 & _ & Epl).
    rewrite Epl. exact (V1 q x0 Hx0 Hq0).
  - intros c x p px Hx Hp Hpx Hp0.
    destruct (Hlook c x Hx) as (x0 & Hx0 & Epar & Epl).
    destruct (Hlook p px Hpx) as (px0 & Hpx0 & _ & Eppl).
    rewrite Epl, Eppl. rewrite Epar in Hp. exact (V2 c x0 p px0 Hx0 Hp Hpx0 Hp0).
Qed.

Lemma hoare_Node_expand_strict this play childState plays :
  hoare (fun w => storeInv (store w) /\ strictInv (store w))
        (Node.expand this play childState plays)
        (fun c w => strictInvAt (store w) (Some c)).
Proof.
  intros w a w' [HI HV] E. unfold Node.expand in E.
  apply bind_inv in E. destruct E as (n & w1 & E1 & E).
  apply deref_inv in E1. destruct E1 as [-> Hn].
  destruct (negb (map_has _ _)); [discriminate E |].
  apply bind_inv in E. destruct E as (c & w1 & E1 & E).
  unfold alloc in E1. inversion E1; subst c w1. clear E1.
  apply bind_inv in E. destruct E as ([] & w1 & E1 & E).
  inversion E; subst a w'. clear E.
  unfold update, modify in E1. inversion E1; subst w1. clear E1.
  cbn [store set_store].
  assert (Hlt : (this < length (store w))%nat) by (now apply lookup_lt_Some in Hn).
  set (child := Node.new (Some this) (Some play) childState plays).
  assert (Hn1 : (store w ++ [child]) !! this = Some n)
    by (rewrite lookup_app_l; assumption).
  rewrite Hn1.
  apply strictInvAt_set_children; [| exact Hn1].
  now apply (strictInvAt_alloc (store w) this n child).
Qed.

(** The first [makeNode] of a search: the root alone in the store. *)
Lemma makeNode_new st random :
  MCTS.makeNode st (newMonteCarlo random) =
  (Ok tt, set_nodes (map_set (hash (currentState st)) 0%nat)
            (set_store (fun h => h ++ [Node.new None None st (legalMoves (currentState st))])
               (newMonteCarlo random))).
Proof. reflexivity. Qed.

Lemma strictInv_root n : parent n = None -> strictInv [n].
Proof.
  intros Hpar.
  assert (Hone : forall q x, [n] !! q = Some x -> q = 0%nat /\ x = n).
  { intros [| q] x Hx; simpl in Hx; [inversion Hx; split; reflexivity | discriminate]. }
  refine (conj _ (conj _ _)).
  - intros q x Hx. destruct (Hone q x Hx) as [-> ->]. split; [reflexivity | intros _; exact Hpar].
  - intros q x Hx Hq0. destruct (Hone q x Hx) as [-> _]. congruence.
  - intros c x p px _ _ Hpx Hp0. destruct (Hone p px Hpx) as [-> _]. congruence.
Qed.

Section SearchVisits.

Variable U : UCB1Model.

Lemma hoare_expand_strict r :
  hoare (fun w => storeInv (store w) /\ strictInv (store w))
        (MCTS.expand r)
        (fun c w => strictInvAt (store w) (Some c)).
Proof.
  intros w a w' [HI HV] E. unfold MCTS.expand in E.
  apply bind_inv in E. destruct E as (this & w1 & E1 & E).
  apply deref_inv in E1. destruct E1 as [-> Hthis].
  apply bind_inv in E. destruct E as (i & w1 & E1 & E).
  pose proof (keepsStore_eq _ _ _ _ (keepsStore_randomIndex _) E1) as Hs1.
  apply bind_inv in E. destruct E as ([randomMove childState'] & w2 & E2 & E).
  pose proof (keepsStore_eq _ _ _ _ (keepsStore_liftOutcome _) E2) as Hs2.
  apply bind_inv in E. destruct E as (childNode & w3 & E3 & E).
  assert (H3 : strictInvAt (store w3) (Some childNode)).
  { refine (hoare_Node_expand_strict _ _ _ _ w2 childNode w3 _ E3).
    rewrite Hs2, Hs1. split; assumption. }
  apply bind_inv in E. destruct E as ([] & w4 & E4 & E).
  pose proof (keepsStore_eq _ _ _ _ (keepsStore_set_nodes _) E4) as Hs4.
  inversion E; subst. now rewrite Hs4.
Qed.

Lemma hoare_iteration_strict st :
  hoare (fun w => storeInv (store w) /\ strictInv (store w))
        (MCTS.iteration U st)
        (fun _ w => storeInv (store w) /\ strictInv (store w)).
Proof.
  intros w a w' [HI HV] E.
  split; [exact (hoare_iteration U st w a w' HI E) |].
  unfold MCTS.iteration in E.
  apply bind_inv in E. destruct E as (r & w1 & E1 & E).
  pose proof (keepsStore_eq _ _ _ _ (keepsStore_select U st) E1) as Hs1.
  apply bind_inv in E. destruct E as (n & w2 & E2 & E).
  apply deref_inv in E2. destruct E2 as [-> Hn].
  assert (HI1 : storeInv (store w1)) by (now rewrite Hs1).
  assert (HV1 : strictInv (store w1)) by (now rewrite Hs1).
  destruct (negb (Node.isLeaf n) && bool_decide (_ = none)).
  - apply bind_inv in E. destruct E as (r' & w2 & E2 & E).
    pose proof (hoare_expand r w1 r' w2 HI1 E2) as HI2.
    pose proof (hoare_expand_strict r w1 r' w2 (conj HI1 HV1) E2) as HV2.
    apply bind_inv in E. destruct E as (winner' & w3 & E3 & E).
    pose proof (keepsStore_eq _ _ _ _ (keepsStore_simulate r') E3) as Hs3.
    refine (hoare_backpropagate_strict r' winner' w3 a w' _ E).
    rewrite Hs3. split; assumption.
  - refine (hoare_backpropagate_strict r _ w1 a w' _ E).
    split; [exact HI1 | now apply strictInvAt_start].
Qed.

Lemma hoare_iterate_strict k st :
  hoare (fun w => storeInv (store w) /\ strictInv (store w))
        (MCTS.iterate U k st)
        (fun _ w => storeInv (store w) /\ strictInv (store w)).
Proof.
  induction k as [| k IH]; intros w a w' HP E; simpl in E.
  - inversion E; subst. exact HP.
  - apply bind_inv in E. destruct E as ([] & w1 & E1 & E).
    exact (IH w1 a w' (hoare_iteration_strict st w tt w1 HP E1) E).
Qed.

(** A search from a new search object leaves both invariants. *)
Lemma runSearch_invariants random k st w' :
  MCTS.runSearch U k st (newMonteCarlo random) = (Ok tt, w') ->
  storeInv (store w') /\ strictInv (store w').
Proof.
  intros E. unfold MCTS.runSearch in E.
  apply bind_inv in E. destruct E as ([] & w1 & E1 & E).
  refine (hoare_iterate_strict k st w1 tt w' _ E). split.
  - exact (hoare_makeNode st (newMonteCarlo random) tt w1 storeInv_empty E1).
  - rewrite makeNode_new in E1. inversion E1; subst w1.
    cbn [store set_nodes set_store newMonteCarlo app].
    now apply strictInv_root.
Qed.

End SearchVisits.

Lemma invariants_visitsConsistent h : storeInv h -> strictInv h -> visitsConsistent h.
Proof.
  intros (I1 & _ & I3 & I4) (V0 & V1 & V2) r n Hn.
  refine (conj _ (conj (V0 r n Hn) (conj (V1 r n Hn) _))).
  - pose proof (I1 r n Hn). lia.
  - intros k ch c cn Hin Hnode Hc.
    destruct (I4 r n k ch c Hn Hin Hnode) as (cn' & Hcn' & Hpar).
    rewrite Hc in Hcn'. inversion Hcn'; subst cn'. split.
    + exact (I3 c cn r n Hc Hpar Hn).
    + intros Hr0. exact (V2 c cn r n Hc Hpar Hn Hr0).
Qed.

(** C4 (amended): after a completed [runSearch] of any number of turns
    from a new search object, for every abstract UCB1 and every source of
    random values, each node has [n_wins <= n_plays]; the root, the node
    at index 0 and the only one without a parent, has at least as many
    visits as any of its expanded children, hence as its most visited
    child; every other node has at least one visit, and at least one
    visit more than any of its expanded children, hence at least
    1 + the visits of its most visited child. *)
Theorem runSearch_visits (U : UCB1Model) (random : nat -> nat) (iterations : nat)
    (st : Game) (w' : MonteCarlo) :
  MCTS.runSearch U iterations st (newMonteCarlo random) = (Ok tt, w') ->
  visitsConsistent (store w').
Proof.
  intros E.
  destruct (runSearch_invariants U random iterations st w' E) as [HI HV].
  now apply invariants_visitsConsistent.
Qed.

(** ** One turn of the loop, run *)

Lemma afterOneIteration_eq : afterOneIteration = (Ok tt, oneIterationSearch).
Proof. vm_compute. reflexivity. Qed.

(** The search of 25 turns from [lateGame], run: the root has 25 visits
    over 19 expanded children, and the children 2, 4, 5 and 6 have two
    visits and one expanded child of their own, with one visit. *)
Lemma lateSearch_eq :
  MCTS.runSearch exampleUCB1 25 lateGame (newMonteCarlo firstRandom) = (Ok tt, lateSearch).
Proof. vm_compute. reflexivity. Qed.

Lemma runSearch_visits_witness :
  MCTS.runSearch exampleUCB1 25 lateGame (newMonteCarlo firstRandom) = (Ok tt, lateSearch) /\
  visitsConsistent (store lateSearch).
Proof.
  split; [exact lateSearch_eq |].
  apply (runSearch_visits exampleUCB1 firstRandom 25 lateGame).
  exact lateSearch_eq.
Defined.

(** The search object after one turn of the loop on the initial game: the
    root (node 0) has 81 children, the first of them, the move at (0,0),
    expanded into node 1, the second unexpanded; root and child each have
    one visit. *)
Lemma oneIterationSearch_shape :
  exists root child,
    store oneIterationSearch !! 0%nat = Some root /\
    store oneIterationSearch !! 1%nat = Some child /\
    map_get (hash initialGameState) (nodes oneIterationSearch) = Some 0%nat /\
    parent root = None /\
    length (children root) = 81%nat /\
    head (children root) = Some ("0X0", mkChild m00 (Some 1%nat)) /\
    (node <$> map_values (children root)) !! 1%nat = Some None /\
    n_plays root = 1 /\
    n_plays child = 1.
Proof.
  eexists. eexists.
  split; [reflexivity |].
  split; [reflexivity |].
  repeat split.
Qed.

(** C4, as stated, fails: after one completed turn of the loop the root
    has children, and it has one visit, as many as its expanded child and
    not one more. *)
Lemma runSearch_visits_counterexample :
  afterOneIteration = (Ok tt, oneIterationSearch) /\
  ~ parentVisitsStrict (store oneIterationSearch).
Proof.
  split; [exact afterOneIteration_eq |]. intros H.
  destruct oneIterationSearch_shape
    as (root & child & Hroot & Hchild & _ & _ & Hlen & Hhead & _ & Hr & Hc).
  destruct (children root) as [| [k ch] rest] eqn:Ech; [discriminate Hlen |].
  cbn in Hhead. inversion Hhead; subst k ch.
  assert (Hleaf : Node.isLeaf root = false).
  { unfold Node.isLeaf. rewrite Ech. reflexivity. }
  specialize (H 0%nat root Hroot Hleaf "0X0" (mkChild m00 (Some 1%nat)) 1%nat child).
  rewrite Ech in H. specialize (H (or_introl eq_refl) eq_refl Hchild).
  lia.
Qed.

(** ** [bestPlay] on a root with unexpanded children *)

(** C3 fails on the code.  After one turn of the loop of [runSearch] on the
    initial game the root has an expanded child with one visit, the move at
    (0,0), and 80 unexpanded children.  [bestPlay] does not return that
    move: it throws 'Child not expanded', raised by [childNode] on the
    second child before the test that was to skip it. *)
Theorem bestPlay_throws_on_unexpanded_child :
  afterOneIteration = (Ok tt, oneIterationSearch) /\
  (exists root child,
     store oneIterationSearch !! 0%nat = Some root /\
     map_get (hash initialGameState) (nodes oneIterationSearch) = Some 0%nat /\
     head (children root) = Some ("0X0", mkChild m00 (Some 1%nat)) /\
     store oneIterationSearch !! 1%nat = Some child /\
     0 < n_plays child) /\
  fst (MCTS.bestPlay (newGame initialGameState) oneIterationSearch) =
    Throw ChildNotExpanded.
Proof.
  split; [exact afterOneIteration_eq |]. split.
  - eexists. eexists. repeat split.
  - vm_compute. reflexivity.
Qed.

(** ** [bestPlay] on a fully expanded root *)

Lemma map_get_In {V} k (v : V) l :
  NoDup (map fst l) -> In (k, v) l -> map_get k l = Some v.
Proof.
  induction l as [| [k0 v0] l IH]; simpl; [contradiction |].
  intros Hnd [E | Hin].
  - inversion E; subst. now rewrite decide_True.
  - apply NoDup_cons in Hnd. destruct Hnd as [Hk0 Hnd].
    destruct (decide (k = k0)) as [-> | Hne].
    + exfalso. apply Hk0. apply list_elem_of_In. apply in_map_iff. exists (k0, v). split; [reflexivity | exact Hin].
    + now apply IH.
Qed.

Lemma bestPlayLoop_run this w plays l best :
  Forall2 (fun p pv => pv.1 = p /\ exists r cn,
             Node.childNode this p = Ok r /\ store w !! r = Some cn /\ n_plays cn = pv.2)
          plays l ->
  MCTS.bestPlayLoop this plays (fst <$> best) (snd <$> best) w =
  (Ok (fst <$> mostVisited l best), w).
Proof.
  intros H. revert best. induction H as [| p [q v] plays l (Hq & r & cn & Hr & Hcn & Hv) _ IH];
    intros best; simpl.
  - reflexivity.
  - simpl in Hq, Hv. subst q.
    unfold mbind, Method_bind, liftOutcome, deref. rewrite Hr, Hcn, Hv.
    destruct (v =? 0); [apply IH |].
    destruct best as [[b mx] |]; simpl.
    + destruct (mx <? v); [apply (IH (Some (p, v))) | apply (IH (Some (b, mx)))].
    + apply (IH (Some (p, v))).
Qed.

Lemma mostVisited_spec l best :
  match mostVisited l best with
  | None => best = None /\ forall q u, In (q, u) l -> u = 0
  | Some (p, v) =>
      (best = Some (p, v) /\ forall q u, In (q, u) l -> u <> 0 -> u <= v) \/
      (exists i, l !! i = Some (p, v) /\ v <> 0 /\
                 (forall b mx, best = Some (b, mx) -> mx < v) /\
                 forall j q u, l !! j = Some (q, u) -> u <> 0 ->
                               u <= v /\ ((j < i)%nat -> u < v))
  end.
Proof.
  revert best. induction l as [| [p0 v0] l IH]; intros best; simpl.
  - destruct best as [[p v] |].
    + left. split; [reflexivity |]. intros q u [].
    + split; [reflexivity |]. intros q u [].
  - destruct (Z.eqb_spec v0 0) as [E0 | N0].
    + specialize (IH best). destruct (mostVisited l best) as [[p v] |].
      * destruct IH as [[Hb Hall] | (i & Hi & Hv & Hbest & Hmax)].
        -- left. split; [exact Hb |]. intros q u [E | Hin] Hu; [inversion E; lia | eauto].
        -- right. exists (S i). split; [exact Hi |]. split; [exact Hv |]. split; [exact Hbest |].
           intros [| j] q u Hj Hu; simpl in Hj.
           ++ inversion Hj; lia.
           ++ destruct (Hmax j q u Hj Hu) as [H1 H2]. split; [exact H1 | intros; apply H2; lia].
      * destruct IH as [Hb Hall]. split; [exact Hb |].
        intros q u [E | Hin]; [inversion E; lia | eauto].
    + assert (Hcase : (match best with None => true | Some (_, mx) => mx <? v0 end = true /\
                       forall b mx, best = Some (b, mx) -> mx < v0) \/
                      (match best with None => true | Some (_, mx) => mx <? v0 end = false /\
                       exists b mx, best = Some (b, mx) /\ v0 <= mx)).
      { destruct best as [[b mx] |].
        - destruct (Z.ltb_spec mx v0); [left | right].
          + split; [reflexivity |]. intros ? ? E. inversion E; subst. lia.
          + split; [reflexivity |]. eauto.
        - left. split; [reflexivity |]. intros ? ? E. discriminate. }
      destruct Hcase as [[-> Hlt] | [-> (b & mx & -> & Hge)]].
      * specialize (IH (Some (p0, v0))). destruct (mostVisited l (Some (p0, v0))) as [[p v] |].
        -- destruct IH as [[Hb Hall] | (i & Hi & Hv & Hbest & Hmax)].
           ++ inversion Hb; subst p v. right. exists 0%nat.
              split; [reflexivity |]. split; [exact N0 |]. split; [exact Hlt |].
              intros [| j] q u Hj Hu; simpl in Hj.
              ** inversion Hj; subst. split; [lia | intros; lia].
              ** split; [| intros; lia]. apply (Hall q u); [| exact Hu].
                 apply list_elem_of_In. eapply list_elem_of_lookup_2. exact Hj.
           ++ right. exists (S i). split; [exact Hi |]. split; [exact Hv |].
              pose proof (Hbest p0 v0 eq_refl) as Hv0. split.
              ** intros b mx Hb. specialize (Hlt b mx Hb). lia.
              ** intros [| j] q u Hj Hu; simpl in Hj.
                 --- inversion Hj; subst. split; [lia | intros; lia].
                 --- destruct (Hmax j q u Hj Hu) as [H1 H2]. split; [exact H1 | intros; apply H2; lia].
        -- destruct IH as [Hb _]. discriminate Hb.
      * specialize (IH (Some (b, mx))). destruct (mostVisited l (Some (b, mx))) as [[p v] |].
        -- destruct IH as [[Hb Hall] | (i & Hi & Hv & Hbest & Hmax)].
           ++ inversion Hb; subst p v. left. split; [reflexivity |].
              intros q u [E | Hin] Hu; [inversion E; subst; lia | eauto].
           ++ right. exists (S i). split; [exact Hi |]. split; [exact Hv |].
              split; [exact Hbest |].
              pose proof (Hbest b mx eq_refl) as Hmx.
              intros [| j] q u Hj Hu; simpl in Hj.
              ** inversion Hj; subst. split; [lia | intros; lia].
              ** destruct (Hmax j q u Hj Hu) as [H1 H2]. split; [exact H1 | intros; apply H2; lia].
        -- destruct IH as [Hb _]. discriminate Hb.
Qed.

Lemma childVisits_plays (h : list MonteCarloNode) this vals l :
  NoDup (map fst (children this)) ->
  (forall k c, In (k, c) (children this) -> k = moveHash (childPlay c)) ->
  (forall c, In c vals -> In c (map_values (children this))) ->
  mapM (fun ch => r ← node ch; cn ← h !! r; Some (childPlay ch, n_plays cn)) vals = Some l ->
  Forall2 (fun p pv => pv.1 = p /\ exists r cn,
             Node.childNode this p = Ok r /\ h !! r = Some cn /\ n_plays cn = pv.2)
          (map childPlay vals) l.
Proof.
  intros Hnd Hkeys. revert l. induction vals as [| c vals IH]; intros l Hin Hm.
  - simpl in Hm. inversion Hm. constructor.
  - simpl in Hm.
    destruct (node c) as [r |] eqn:Hr; [| discriminate Hm]. simpl in Hm.
    destruct (h !! r) as [cn |] eqn:Hcn; [| discriminate Hm]. simpl in Hm.
    destruct (mapM _ vals) as [l' |] eqn:Hl'; [| discriminate Hm].
    simpl in Hm. inversion Hm; subst l. simpl. constructor.
    + simpl. split; [reflexivity |]. exists r, cn. split; [| split; [exact Hcn | reflexivity]].
      assert (Hc : In c (map_values (children this))) by (apply Hin; now left).
      unfold map_values in Hc. apply in_map_iff in Hc. destruct Hc as ([k c'] & Ec & Hc).
      simpl in Ec. subst c'.
      pose proof (Hkeys k c Hc) as Hk. subst k.
      unfold Node.childNode. rewrite (map_get_In _ _ _ Hnd Hc), Hr. reflexivity.
    + apply IH; [| reflexivity]. intros c' Hc'. apply Hin. now right.
Qed.

(** On a root all of whose children are expanded, [bestPlay] leaves the
    search object as it is and returns the play of the most visited child
    among those with a visit, the first of them in the order of
    [children] when several have the greatest count; it throws 'No best
    play found' when no child has a visit. *)
Theorem bestPlay_fully_expanded (st : Game) (w : MonteCarlo) (r0 : nat)
    (root : MonteCarloNode) (l : list (Move * Z)) :
  map_get (hash (currentState st)) (nodes w) = Some r0 ->
  store w !! r0 = Some root ->
  keysOk (children root) ->
  childVisits (store w) root = Some l ->
  ((forall q u, In (q, u) l -> u = 0) /\
   MCTS.bestPlay st w = (Throw NoBestPlay, w)) \/
  (exists i p v,
     l !! i = Some (p, v) /\ v <> 0 /\
     (forall j q u, l !! j = Some (q, u) -> u <> 0 -> u <= v /\ ((j < i)%nat -> u < v)) /\
     MCTS.bestPlay st w = (Ok p, w)).
Proof.
  intros Hnodes Hroot [Hnd Hkeys] Hvis.
  pose proof (childVisits_plays (store w) root (map_values (children root)) l
                Hnd Hkeys (fun c H => H) Hvis) as Hall.
  pose proof (bestPlayLoop_run root w _ l None Hall) as Hloop. simpl in Hloop.
  assert (Hbest : MCTS.bestPlay st w =
            match fst <$> mostVisited l None with
            | Some p => (Ok p, w)
            | None => (Throw NoBestPlay, w)
            end).
  { unfold MCTS.bestPlay, MCTS.makeNode, MCTS.lookupNode, map_has.
    unfold mbind, Method_bind, get, deref, mret, Method_ret, throw.
    rewrite Hnodes. rewrite bool_decide_eq_true_2 by eauto. simpl.
    rewrite Hnodes, Hroot. unfold Node.allPlays. rewrite Hloop.
    destruct (mostVisited l None) as [[p v] |]; reflexivity. }
  pose proof (mostVisited_spec l None) as Hspec.
  destruct (mostVisited l None) as [[p v] |]; simpl in Hbest.
  - right. destruct Hspec as [[Hb _] | (i & Hi & Hv & _ & Hmax)]; [discriminate Hb |].
    exists i, p, v. repeat split; try assumption; apply (Hmax j q u); assumption.
  - left. destruct Hspec as [_ Hzero]. split; assumption.
Qed.

Lemma keysOk_check ch :
  bool_decide (NoDup (map fst ch)) &&
  forallb (fun kc => bool_decide (kc.1 = moveHash (childPlay kc.2))) ch = true ->
  keysOk ch.
Proof.
  intros H. apply andb_true_iff in H. destruct H as [Hnd Hk]. split.
  - now apply bool_decide_eq_true in Hnd.
  - intros k c Hin. rewrite forallb_forall in Hk. specialize (Hk (k, c) Hin).
    now apply bool_decide_eq_true in Hk.
Qed.

Lemma bestPlay_fully_expanded_witness :
  MCTS.runSearch exampleUCB1 25 lateGame (newMonteCarlo firstRandom) = (Ok tt, lateSearch) /\
  fst (MCTS.bestPlay lateGame lateSearch) = Ok (mkMove (8, 0) O (2, 0)) /\
  (((forall q u, In (q, u) lateVisits -> u = 0) /\
    MCTS.bestPlay lateGame lateSearch = (Throw NoBestPlay, lateSearch)) \/
   (exists i p v,
      lateVisits !! i = Some (p, v) /\ v <> 0 /\
      (forall j q u, lateVisits !! j = Some (q, u) -> u <> 0 ->
                     u <= v /\ ((j < i)%nat -> u < v)) /\
      MCTS.bestPlay lateGame lateSearch = (Ok p, lateSearch))).
Proof.
  split; [vm_compute; reflexivity |].
  split; [vm_compute; reflexivity |].
  apply (bestPlay_fully_expanded lateGame lateSearch 0%nat lateRoot lateVisits).
  - vm_compute. reflexivity.
  - vm_compute. reflexivity.
  - apply keysOk_check. vm_compute. reflexivity.
  - vm_compute. reflexivity.
Defined.

(** * Further properties of the rule engine *)

(** ** Cells of the board *)

Lemma onBoard_cells c :
  onBoard c ->
  In (subgridAt c) cells /\ In (offsetAt c) cells /\
  c = ((subgridAt c).1 * 3 + (offsetAt c).1, (subgridAt c).2 * 3 + (offsetAt c).2).
Proof.
  destruct c as [x y]. unfold onBoard. cbn [fst snd]. intros [Hx Hy].
  assert (Ex : x = 0 \/ x = 1 \/ x = 2 \/ x = 3 \/ x = 4 \/ x = 5 \/ x = 6 \/ x = 7 \/ x = 8) by lia.
  assert (Ey : y = 0 \/ y = 1 \/ y = 2 \/ y = 3 \/ y = 4 \/ y = 5 \/ y = 6 \/ y = 7 \/ y = 8) by lia.
  clear Hx Hy.
  repeat (destruct Ex as [-> | Ex]; [| ]); try subst x;
  repeat (destruct Ey as [-> | Ey]; [| ]); try subst y;
  (split; [vm_compute; tauto | split; [vm_compute; tauto | reflexivity]]).
Qed.

Lemma board_onBoard c : In c board <-> onBoard c.
Proof.
  split.
  - unfold board. rewrite in_flat_map. intros (s & Hs & H).
    apply in_map_iff in H. destruct H as (o & <- & Ho).
    apply cells_range in Hs, Ho. unfold range3, onBoard in *. simpl in *. lia.
  - intros H. destruct (onBoard_cells c H) as (Hs & Ho & E).
    unfold board. apply in_flat_map. exists (subgridAt c). split; [exact Hs |].
    apply in_map_iff. exists (offsetAt c). split; [now symmetry | exact Ho].
Qed.

Lemma board_NoDup : NoDup board.
Proof. apply (bool_decide_unpack _). vm_compute. exact I. Qed.

Lemma board_length : length board = 81%nat.
Proof. reflexivity. Qed.

Lemma getTile_bits s c :
  boardsInRange (aSubgridBitboard s) -> boardsInRange (bSubgridBitboard s) ->
  onBoard c ->
  getTile s c =
  if Z.testbit (readBitboard (aSubgridBitboard s) (bitIndex (subgridAt c))) (bitIndex (offsetAt c))
  then Some X
  else if Z.testbit (readBitboard (bSubgridBitboard s) (bitIndex (subgridAt c))) (bitIndex (offsetAt c))
  then Some O else None.
Proof.
  intros Hra Hrb Hc. destruct (onBoard_cells c Hc) as (Hs & Ho & _).
  destruct (boardsInRange_read _ _ Hra Hs) as [_ Hxa].
  destruct (boardsInRange_read _ _ Hrb Hs) as [_ Hxb].
  unfold getTile. fold (subgridAt c). change (JS.rem3 c.1) with (offsetAt c).1.
  change (JS.rem3 c.2) with (offsetAt c).2.
  change ((subgridAt c).1 + (subgridAt c).2 * 3) with (bitIndex (subgridAt c)).
  rewrite !getBit_testbit by assumption.
  destruct (Z.testbit (readBitboard (aSubgridBitboard s) _) _); [reflexivity |].
  destruct (Z.testbit (readBitboard (bSubgridBitboard s) _) _); reflexivity.
Qed.

Lemma doMove_ok_inv m g g' :
  doMove m g = (Ok tt, g') ->
  ~ targetOccupied (currentState g) m /\ ~ wrongSubgrid (currentState g) m /\
  g' = mkGame (afterMove m (currentState g)) (onMoveCalls g ++ [m]).
Proof.
  intros E.
  destruct (targetOccupied_dec (currentState g) m) as [Ho | Ho].
  { rewrite (doMove_occupied g m Ho) in E. discriminate E. }
  destruct (wrongSubgrid_dec (currentState g) m) as [Hw | Hw].
  { rewrite (doMove_wrong g m Ho Hw) in E. discriminate E. }
  rewrite (doMove_accepted g m Ho Hw) in E. inversion E. repeat split; assumption.
Qed.

Lemma readBitboard_insert bb i v j :
  readBitboard (<[i := v]> bb) j = if decide (i = j) then v else readBitboard bb j.
Proof.
  unfold readBitboard. rewrite lookup_insert. destruct (decide (i = j)); reflexivity.
Qed.

(** The boards after an accepted move, read at any index. *)
Lemma afterMove_read m s j :
  readBitboard (aSubgridBitboard (afterMove m s)) j =
    (if decide (player m = X /\ bitIndex (subgridOf m) = j)
     then setBit (readBitboard (aSubgridBitboard s) j) (offsetOf m).1 (offsetOf m).2
     else readBitboard (aSubgridBitboard s) j) /\
  readBitboard (bSubgridBitboard (afterMove m s)) j =
    (if decide (player m = O /\ bitIndex (subgridOf m) = j)
     then setBit (readBitboard (bSubgridBitboard s) j) (offsetOf m).1 (offsetOf m).2
     else readBitboard (bSubgridBitboard s) j).
Proof.
  pose proof (afterMove_fields m s) as H. cbv zeta in H. destruct H as (Ha & Hb & _).
  rewrite Ha, Hb. destruct (player m); rewrite ?readBitboard_insert;
    repeat case_decide; try reflexivity; try tauto; split; try reflexivity;
    try (destruct_and?; subst; reflexivity); exfalso; intuition congruence.
Qed.

Lemma afterMove_boardsInRange m s :
  boardsInRange (aSubgridBitboard s) -> boardsInRange (bSubgridBitboard s) ->
  onBoard (coordinate m) ->
  boardsInRange (aSubgridBitboard (afterMove m s)) /\
  boardsInRange (bSubgridBitboard (afterMove m s)).
Proof.
  intros Hra Hrb Hc.
  destruct (onBoard_cells _ Hc) as (Hs & Ho & _).
  change (subgridAt (coordinate m)) with (subgridOf m) in Hs.
  change (offsetAt (coordinate m)) with (offsetOf m) in Ho.
  pose proof (afterMove_fields m s) as H. cbv zeta in H. destruct H as (Ha & Hb & _).
  destruct (boardsInRange_read _ _ Hra Hs) as [_ Hxa].
  destruct (boardsInRange_read _ _ Hrb Hs) as [_ Hxb].
  rewrite Ha, Hb. destruct (player m); split; try assumption;
    apply boardsInRange_insert; try assumption; now apply setBit_range.
Qed.

Lemma coordinate_split c c' :
  onBoard c -> onBoard c' ->
  (c = c' <-> subgridAt c = subgridAt c' /\ offsetAt c = offsetAt c').
Proof.
  intros Hc Hc'. split; [intros ->; split; reflexivity |].
  intros [Es Eo].
  destruct (onBoard_cells c Hc) as (_ & _ & E).
  destruct (onBoard_cells c' Hc') as (_ & _ & E').
  rewrite E, E', Es, Eo. reflexivity.
Qed.

Lemma getTile_afterMove s m c :
  boardsInRange (aSubgridBitboard s) -> boardsInRange (bSubgridBitboard s) ->
  onBoard (coordinate m) -> getTile s (coordinate m) = None ->
  onBoard c ->
  getTile (afterMove m s) c =
  if decide (c = coordinate m) then Some (player m) else getTile s c.
Proof.
  intros Hra Hrb Hm Hempty Hc.
  destruct (afterMove_boardsInRange m s Hra Hrb Hm) as [Hra' Hrb'].
  rewrite (getTile_bits (afterMove m s) c Hra' Hrb' Hc).
  rewrite (getTile_bits s c Hra Hrb Hc).
  rewrite (getTile_bits s _ Hra Hrb Hm) in Hempty.
  destruct (afterMove_read m s (bitIndex (subgridAt c))) as [Ea Eb].
  rewrite Ea, Eb. clear Ea Eb.
  destruct (onBoard_cells _ Hm) as (Hs & Ho & _).
  destruct (onBoard_cells _ Hc) as (Hs' & Ho' & _).
  change (subgridOf m) with (subgridAt (coordinate m)).
  change (offsetOf m) with (offsetAt (coordinate m)).
  destruct (boardsInRange_read _ _ Hra Hs') as [_ Hxa].
  destruct (boardsInRange_read _ _ Hrb Hs') as [_ Hxb].
  pose proof (coordinate_split c (coordinate m) Hc Hm) as Hsplit.
  destruct (decide (c = coordinate m)) as [Ec | Ec].
  - destruct (proj1 Hsplit Ec) as [Es Eo]. rewrite <- Es, <- Eo in *.
    destruct (Z.testbit (readBitboard (aSubgridBitboard s) _) _) eqn:Ta; [discriminate |].
    destruct (Z.testbit (readBitboard (bSubgridBitboard s) _) _) eqn:Tb; [discriminate |].
    destruct (player m); repeat case_decide; try (exfalso; intuition congruence);
      rewrite ?testbit_setBit by assumption; rewrite ?Ta, ?Tb;
      rewrite ?bool_decide_eq_true_2 by reflexivity; reflexivity.
  - assert (Hdiff : bitIndex (subgridAt (coordinate m)) <> bitIndex (subgridAt c) \/
                    offsetAt (coordinate m) <> offsetAt c).
    { destruct (decide (subgridAt (coordinate m) = subgridAt c)) as [Es | Es].
      - right. intros Eo. apply Ec, Hsplit. split; congruence.
      - left. intros E. apply Es. now apply bitIndex_inj. }
    repeat case_decide; try reflexivity;
      destruct Hdiff as [Hd | Hd]; try (exfalso; intuition congruence);
      rewrite ?testbit_setBit by assumption;
      rewrite ?bool_decide_eq_false_2 by exact Hd; rewrite ?orb_false_r; reflexivity.
Qed.

(** X3.  An accepted move on the board writes the mover's mark into its
    cell and leaves every other cell of the board as it was. *)
Theorem doMove_writes_one_cell (g g' : Game) (m : Move) (c : Coordinate) :
  boardsInRange (aSubgridBitboard (currentState g)) ->
  boardsInRange (bSubgridBitboard (currentState g)) ->
  onBoard (coordinate m) -> onBoard c ->
  doMove m g = (Ok tt, g') ->
  getTile (currentState g') c =
  if decide (c = coordinate m) then Some (player m) else getTile (currentState g) c.
Proof.
  intros Hra Hrb Hm Hc E.
  destruct (doMove_ok_inv m g g' E) as (Ho & _ & ->). cbn [currentState].
  apply getTile_afterMove; try assumption.
  unfold targetOccupied in Ho. destruct (getTile (currentState g) (coordinate m)); [| reflexivity].
  exfalso. apply Ho. discriminate.
Qed.

Lemma doMove_writes_one_cell_witness :
  doMove m00 (newGame initialGameState) =
    (Ok tt, mkGame (afterMove m00 initialGameState) [m00]) /\
  getTile (afterMove m00 initialGameState) (0, 0) = Some X /\
  getTile (afterMove m00 initialGameState) (4, 4) = getTile initialGameState (4, 4).
Proof.
  assert (E : doMove m00 (newGame initialGameState) =
              (Ok tt, mkGame (afterMove m00 initialGameState) [m00])).
  { apply (legalMoves_doMove initialGameState [] m00). vm_compute. left. reflexivity. }
  destruct wellFormed_initial as (Hra & Hrb & _).
  assert (H00 : onBoard (0, 0)) by (unfold onBoard; simpl; lia).
  assert (H44 : onBoard (4, 4)) by (unfold onBoard; simpl; lia).
  split; [exact E |]. split.
  - exact (doMove_writes_one_cell (newGame initialGameState) _ m00 (0, 0) Hra Hrb H00 H00 E).
  - exact (doMove_writes_one_cell (newGame initialGameState) _ m00 (4, 4) Hra Hrb H00 H44 E).
Defined.

(** ** Counting the marks on the board *)

Lemma filter_ext_in {A} (P Q : A -> Prop)
    `{forall x, Decision (P x)} `{forall x, Decision (Q x)} (l : list A) :
  (forall x, In x l -> (P x <-> Q x)) -> filter Q l = filter P l.
Proof.
  induction l as [| a l IH]; intros Hsame; [reflexivity |].
  rewrite !filter_cons.
  pose proof (Hsame a (or_introl eq_refl)) as Ha.
  rewrite IH by (intros x Hx; apply Hsame; now right).
  destruct (decide (P a)) as [Pa | Pa].
  - now rewrite decide_True by (now apply Ha).
  - now rewrite decide_False by (intros Qa; apply Pa; now apply Ha).
Qed.

Lemma filter_length_add {A} `{EqDecision A} (P Q : A -> Prop)
    `{forall x, Decision (P x)} `{forall x, Decision (Q x)} (l : list A) c0 :
  NoDup l -> In c0 l -> Q c0 -> ~ P c0 ->
  (forall x, In x l -> x <> c0 -> (P x <-> Q x)) ->
  length (filter Q l) = S (length (filter P l)).
Proof.
  induction l as [| a l IH]; intros Hnd Hin HQ HP Hsame; [contradiction |].
  apply NoDup_cons in Hnd. destruct Hnd as [Ha Hnd].
  rewrite !filter_cons.
  destruct (decide (a = c0)) as [-> | Hne].
  - rewrite decide_True by exact HQ. rewrite decide_False by exact HP. simpl. f_equal.
    assert (E : filter Q l = filter P l).
    { apply filter_ext_in. intros x Hx. apply Hsame; [now right |].
      intros ->. apply Ha. now apply list_elem_of_In. }
    now rewrite E.
  - destruct Hin as [E | Hin]; [contradiction |].
    assert (IH' : length (filter Q l) = S (length (filter P l))).
    { apply IH; try assumption. intros x Hx. apply Hsame. now right. }
    pose proof (Hsame a (or_introl eq_refl) Hne) as Hiff.
    destruct (decide (P a)) as [Pa | Pa].
    + rewrite decide_True by (now apply Hiff). simpl. now rewrite IH'.
    + rewrite decide_False by (intros Qa; apply Pa; now apply Hiff). exact IH'.
Qed.

Lemma filter_length_same {A} (P Q : A -> Prop)
    `{forall x, Decision (P x)} `{forall x, Decision (Q x)} (l : list A) :
  (forall x, In x l -> (P x <-> Q x)) ->
  length (filter Q l) = length (filter P l).
Proof.
  intros Hsame. f_equal. now apply filter_ext_in.
Qed.

Lemma getTile_boards s s' c :
  aSubgridBitboard s = aSubgridBitboard s' ->
  bSubgridBitboard s = bSubgridBitboard s' ->
  getTile s c = getTile s' c.
Proof. intros Ha Hb. unfold getTile. now rewrite Ha, Hb. Qed.

Lemma tileCount_boards s s' t :
  aSubgridBitboard s = aSubgridBitboard s' ->
  bSubgridBitboard s = bSubgridBitboard s' ->
  tileCount s t = tileCount s' t.
Proof.
  intros Ha Hb. unfold tileCount. apply filter_length_same.
  intros c _. now rewrite (getTile_boards s s' c Ha Hb).
Qed.

(** The counts after a move of [legalMoves()]. *)
Lemma tileCount_afterMove s m :
  wellFormed s -> In m (legalMoves s) ->
  tileCount (afterMove m s) (Some (player m)) = S (tileCount s (Some (player m))) /\
  tileCount (afterMove m s) (Some (otherPlayer (player m))) =
    tileCount s (Some (otherPlayer (player m))).
Proof.
  intros (Hra & Hrb & _ & _) Hm.
  pose proof (legalMoves_shape s m Hm) as (_ & Hs & Ho & Hcoord & _).
  pose proof (legalMoves_not_occupied s m Hm) as Hocc.
  assert (Hempty : getTile s (coordinate m) = None).
  { unfold targetOccupied in Hocc. destruct (getTile s (coordinate m)); [| reflexivity].
    exfalso. apply Hocc. discriminate. }
  assert (Hon : onBoard (coordinate m)).
  { rewrite Hcoord. apply cells_range in Hs, Ho. unfold onBoard, range3 in *.
    simpl in *. lia. }
  assert (Hget : forall c, In c board ->
            getTile (afterMove m s) c =
            if decide (c = coordinate m) then Some (player m) else getTile s c).
  { intros c Hc. apply getTile_afterMove; try assumption. now apply board_onBoard. }
  split.
  - unfold tileCount.
    apply (filter_length_add _ _ board (coordinate m)).
    + exact board_NoDup.
    + now apply board_onBoard.
    + rewrite Hget by (now apply board_onBoard). now rewrite decide_True.
    + rewrite Hempty. discriminate.
    + intros c Hc Hne. rewrite (Hget c Hc). now rewrite decide_False.
  - unfold tileCount. apply filter_length_same.
    intros c Hc. rewrite (Hget c Hc).
    destruct (decide (c = coordinate m)) as [-> | Hne]; [| reflexivity].
    rewrite Hempty. split; [discriminate |].
    intros E. exfalso. destruct (player m); discriminate E.
Qed.

Lemma land_setBit_zero xa xb o :
  0 <= xa < 512 -> 0 <= xb < 512 -> In o cells ->
  Z.land xa xb = 0 -> Z.testbit xb (bitIndex o) = false ->
  Z.land (setBit xa o.1 o.2) xb = 0.
Proof.
  intros Ha Hb Ho Hz Hbit. rewrite setBit_lor by assumption.
  rewrite Z.land_lor_distr_l, Hz, Z.lor_0_l.
  apply Z.bits_inj'. intros k Hk. rewrite Z.land_spec, Z.bits_0.
  assert (Hi : 0 <= bitIndex o).
  { destruct o as [x y]. apply cells_range in Ho. unfold bitIndex, range3 in *. simpl in *. lia. }
  rewrite Z.pow2_bits_eqb by exact Hi.
  destruct (Z.eqb_spec (bitIndex o) k) as [<- | Hne]; [now rewrite Hbit |]. reflexivity.
Qed.

Lemma noOverlap_afterMove s m :
  wellFormed s -> noOverlap s -> In m (legalMoves s) -> noOverlap (afterMove m s).
Proof.
  intros (Hra & Hrb & _ & _) Hno Hm c Hc.
  pose proof (legalMoves_shape s m Hm) as (_ & Hs & Ho & _ & _ & _ & _ & _ & Hga & Hgb).
  apply truthy_false in Hga, Hgb.
  destruct (boardsInRange_read _ _ Hra Hs) as [_ Hxa].
  destruct (boardsInRange_read _ _ Hrb Hs) as [_ Hxb].
  rewrite getBit_testbit in Hga, Hgb by assumption.
  assert (Ta : Z.testbit (readBitboard (aSubgridBitboard s) (bitIndex (subgridOf m)))
                         (bitIndex (offsetOf m)) = false)
    by (destruct (Z.testbit (readBitboard (aSubgridBitboard s) _) _); [discriminate Hga | reflexivity]).
  assert (Tb : Z.testbit (readBitboard (bSubgridBitboard s) (bitIndex (subgridOf m)))
                         (bitIndex (offsetOf m)) = false)
    by (destruct (Z.testbit (readBitboard (bSubgridBitboard s) _) _); [discriminate Hgb | reflexivity]).
  destruct (afterMove_read m s (bitIndex c)) as [Ea Eb]. rewrite Ea, Eb.
  specialize (Hno c Hc) as Hz.
  destruct (decide (bitIndex (subgridOf m) = bitIndex c)) as [E | E].
  - rewrite <- E in *. destruct (player m).
    + rewrite decide_True by (split; reflexivity).
      rewrite decide_False by (intros [? _]; discriminate).
      now apply land_setBit_zero.
    + rewrite decide_False by (intros [? _]; discriminate).
      rewrite decide_True by (split; reflexivity).
      rewrite Z.land_comm. rewrite Z.land_comm in Hz. now apply land_setBit_zero.
  - rewrite !decide_False by (intros [_ ?]; contradiction). exact Hz.
Qed.

Lemma filter_length_disjoint {A} (P Q : A -> Prop)
    `{forall x, Decision (P x)} `{forall x, Decision (Q x)} (l : list A) :
  (forall x, P x -> Q x -> False) ->
  (length (filter P l) + length (filter Q l) <= length l)%nat.
Proof.
  intros Hd. induction l as [| a l IH]; [simpl; lia |].
  rewrite !filter_cons. destruct (decide (P a)) as [Pa | Pa]; destruct (decide (Q a)) as [Qa | Qa];
    simpl; try lia. exfalso. exact (Hd a Pa Qa).
Qed.

Lemma countsAgree_afterMove s m :
  wellFormed s -> In m (legalMoves s) -> countsAgree s -> countsAgree (afterMove m s).
Proof.
  intros Hwf Hm [Hsum Hdiff].
  destruct (tileCount_afterMove s m Hwf Hm) as [Hp Ho].
  pose proof (legalMoves_shape s m Hm) as (_ & _ & _ & _ & _ & Hpl & _).
  pose proof (afterMove_fields m s) as H. cbv zeta in H.
  destruct H as (_ & _ & _ & Hnext & _ & Hmv).
  unfold countsAgree. rewrite Hnext, Hmv, length_app. cbn [length].
  rewrite <- Hpl in Hdiff.
  destruct (player m); cbn [otherPlayer] in Hp, Ho |- *; rewrite Hp, Ho; lia.
Qed.

Lemma reachable_playInv s : reachable s -> noOverlap s /\ countsAgree s.
Proof.
  induction 1 as [| s m calls g' Hr IH Hm Hdo | s m calls g1 g2 Hr IH Hm Hdo Hundo].
  - split.
    + intros c Hc. unfold cells in Hc. simpl in Hc.
      repeat (destruct Hc as [<- | Hc]; [vm_compute; reflexivity |]). contradiction.
    + split; vm_compute; reflexivity.
  - pose proof (reachable_wellFormed s Hr) as Hwf.
    rewrite (legalMoves_doMove s calls m Hm) in Hdo. inversion Hdo; subst g'.
    cbn [currentState]. destruct IH as [Hno Hcnt]. split.
    + now apply noOverlap_afterMove.
    + now apply countsAgree_afterMove.
  - pose proof (reachable_wellFormed s Hr) as Hwf.
    destruct (doMove_undoMove_wellFormed s calls m Hwf Hm)
      as (g1' & g2' & Hdo' & Hundo' & Ha & Hb & Hp & _ & Hmv & _).
    rewrite Hdo in Hdo'. inversion Hdo'; subst g1'.
    rewrite Hundo in Hundo'. inversion Hundo'; subst g2'.
    destruct IH as [Hno [Hsum Hdiff]]. split.
    + intros c Hc. rewrite Ha, Hb. exact (Hno c Hc).
    + unfold countsAgree.
      rewrite !(tileCount_boards _ s _ Ha Hb), Hp, Hmv. split; assumption.
Qed.

Lemma reachable_moves_bound s : reachable s -> (length (moves s) <= 81)%nat.
Proof.
  intros Hr. destruct (reachable_playInv s Hr) as [_ [Hsum _]].
  rewrite <- Hsum, <- board_length. unfold tileCount.
  apply filter_length_disjoint. intros c E1 E2. congruence.
Qed.

(** X4.  In every reachable state the marks on the board are as many as
    the moves of the history, at most 81; the first player has as many
    marks as the second when it is the first player's turn and one more
    when it is the second's. *)
Theorem reachable_counts (s : GameState) :
  reachable s ->
  (tileCount s (Some X) + tileCount s (Some O) = length (moves s))%nat /\
  tileCount s (Some X) =
    (tileCount s (Some O) + match playerToMove s with X => 0 | O => 1 end)%nat /\
  (length (moves s) <= 81)%nat.
Proof.
  intros Hr. destruct (reachable_playInv s Hr) as [_ [Hsum Hdiff]].
  exact (conj Hsum (conj Hdiff (reachable_moves_bound s Hr))).
Qed.

Lemma reachable_counts_witness :
  (tileCount finishedGame (Some X) + tileCount finishedGame (Some O) =
     length (moves finishedGame))%nat /\
  tileCount finishedGame (Some X) =
    (tileCount finishedGame (Some O) +
     match playerToMove finishedGame with X => 0 | O => 1 end)%nat /\
  (length (moves finishedGame) <= 81)%nat.
Proof. exact (reachable_counts finishedGame finishedGame_reachable). Defined.

(** X5.  In every reachable state no cell is marked by both players: in
    each of the nine subgrids the two bitboards have no bit in common. *)
Theorem reachable_noOverlap (s : GameState) (c : Coordinate) :
  reachable s -> In c cells ->
  Z.land (readBitboard (aSubgridBitboard s) (bitIndex c))
         (readBitboard (bSubgridBitboard s) (bitIndex c)) = 0.
Proof. intros Hr Hc. exact (proj1 (reachable_playInv s Hr) c Hc). Qed.

Lemma reachable_noOverlap_witness :
  Z.land (readBitboard (aSubgridBitboard finishedGame) (bitIndex (1, 1)))
         (readBitboard (bSubgridBitboard finishedGame) (bitIndex (1, 1))) = 0.
Proof.
  apply (reachable_noOverlap finishedGame (1, 1) finishedGame_reachable).
  vm_compute. tauto.
Defined.

(** ** What [legalMoves] returns, exactly *)

Lemma sublist_flat_map {A B} (f g : A -> list B) l :
  (forall x, In x l -> sublist (f x) (g x)) -> sublist (flat_map f l) (flat_map g l).
Proof.
  induction l as [| a l IH]; intros H; simpl; [constructor |].
  apply sublist_app; [apply H; now left | apply IH; intros x Hx; apply H; now right].
Qed.

Lemma boardMoves_nested p :
  boardMoves p =
  flat_map (fun x => flat_map (fun y =>
    flat_map (fun ox => flat_map (fun oy => [mkMove (x * 3 + ox, y * 3 + oy) p (x, y)])
                                 range3) range3) range3) range3.
Proof. destruct p; reflexivity. Qed.

Lemma boardMoves_NoDup p : NoDup (boardMoves p).
Proof.
  assert (Hinj : Inj (=) (=) (fun c => mkMove c p (subgridAt c)))
    by (intros c c' E; now inversion E).
  unfold boardMoves. apply (NoDup_fmap_2 _). exact board_NoDup.
Qed.

Lemma legalMoves_sublist s : sublist (legalMoves s) (boardMoves (playerToMove s)).
Proof.
  rewrite boardMoves_nested. unfold legalMoves.
  destruct (complete s); [apply sublist_nil_l |].
  apply sublist_flat_map. intros x _. apply sublist_flat_map. intros y _.
  destruct (negb _); [apply sublist_nil_l |].
  destruct (activeAllows _ _); [| apply sublist_nil_l].
  unfold legalMovesSubgrid. cbn [fst snd].
  apply sublist_flat_map. intros ox _. apply sublist_flat_map. intros oy _.
  destruct (_ || _); [apply sublist_nil_l | reflexivity].
Qed.

(** X9.  [legalMoves()] returns each legal move once, and nothing else:
    when the game is not complete, the moves of the player to move at the
    empty cells of the board whose subgrid is in progress and allowed by
    [activeSubgrid], each carrying its own subgrid as [currentSubgrid]; in
    the order of the board, subgrid by subgrid. *)
Theorem legalMoves_exact (s : GameState) :
  NoDup (legalMoves s) /\
  sublist (legalMoves s) (boardMoves (playerToMove s)) /\
  forall m, In m (legalMoves s) <->
    complete s = false /\
    onBoard (coordinate m) /\
    player m = playerToMove s /\
    currentSubgrid m = subgridAt (coordinate m) /\
    checkWinSubgrid s (subgridAt (coordinate m)) = none /\
    activeAllows (activeSubgrid s) (subgridAt (coordinate m)) = true /\
    getTile s (coordinate m) = None.
Proof.
  refine (conj _ (conj (legalMoves_sublist s) _)).
  - pose proof (legalMoves_sublist s) as Hsub.
    pose proof (boardMoves_NoDup (playerToMove s)) as Hnd.
    eapply sublist_NoDup; eassumption.
  - intros m. split.
    + intros Hm.
      pose proof (legalMoves_shape s m Hm)
        as (Hc & Hs & Ho & Hcoord & Hcur & Hpl & Hnone & Hact & Ha & Hb).
      refine (conj Hc (conj _ (conj Hpl (conj Hcur (conj Hnone (conj Hact _)))))).
      * rewrite Hcoord. apply cells_range in Hs, Ho. unfold onBoard, range3 in *.
        simpl in *. lia.
      * unfold getTile.
        change (JS.floorDiv3 (coordinate m).1 + JS.floorDiv3 (coordinate m).2 * 3)
          with (bitIndex (subgridOf m)).
        change (JS.rem3 (coordinate m).1) with (offsetOf m).1.
        change (JS.rem3 (coordinate m).2) with (offsetOf m).2.
        cbv zeta. now rewrite Ha, Hb.
    + intros (Hc & Hon & Hpl & Hcur & Hnone & Hact & Htile).
      destruct (onBoard_cells _ Hon) as (Hs & Ho & Hcoord).
      apply legalMoves_In. split; [exact Hc |].
      exists (subgridAt (coordinate m)). refine (conj Hs (conj Hnone (conj Hact _))).
      apply legalMovesSubgrid_In. exists (offsetAt (coordinate m)).
      unfold getTile in Htile. cbv zeta in Htile.
      change (JS.floorDiv3 (coordinate m).1 + JS.floorDiv3 (coordinate m).2 * 3)
        with (bitIndex (subgridAt (coordinate m))) in Htile.
      change (JS.rem3 (coordinate m).1) with (offsetAt (coordinate m)).1 in Htile.
      change (JS.rem3 (coordinate m).2) with (offsetAt (coordinate m)).2 in Htile.
      destruct (JS.truthy (getBit (readBitboard (aSubgridBitboard s) _) _ _)); [discriminate |].
      destruct (JS.truthy (getBit (readBitboard (bSubgridBitboard s) _) _ _)); [discriminate |].
      refine (conj Ho (conj eq_refl (conj eq_refl _))).
      destruct m as [c p cur]. cbn [coordinate player currentSubgrid] in *.
      subst p cur. f_equal. exact Hcoord.
Qed.

(** ** The outcome of a subgrid, read from its tiles *)

Lemma tileAt_bits s c o :
  boardsInRange (aSubgridBitboard s) -> boardsInRange (bSubgridBitboard s) ->
  In c cells -> In o cells ->
  tileAt s c o =
  if Z.testbit (readBitboard (aSubgridBitboard s) (bitIndex c)) (bitIndex o) then Some X
  else if Z.testbit (readBitboard (bSubgridBitboard s) (bitIndex c)) (bitIndex o) then Some O
  else None.
Proof.
  intros Hra Hrb Hc Ho. unfold tileAt.
  destruct c as [cx cy], o as [ox oy]. cbn [fst snd].
  pose proof Hc as Hc'. pose proof Ho as Ho'.
  apply cells_range in Hc', Ho'. cbn [fst snd] in Hc', Ho'.
  destruct Hc' as [Hcx Hcy], Ho' as [Hox Hoy].
  destruct (cell_of_global cx ox Hcx Hox) as [Ex1 Ex2].
  destruct (cell_of_global cy oy Hcy Hoy) as [Ey1 Ey2].
  assert (Hon : onBoard (cx * 3 + ox, cy * 3 + oy)).
  { unfold onBoard, range3 in *. simpl in *. lia. }
  rewrite (getTile_bits s _ Hra Hrb Hon).
  unfold subgridAt, offsetAt. cbn [fst snd]. now rewrite Ex1, Ex2, Ey1, Ey2.
Qed.

Lemma tile_cases (a b : bool) :
  a && b = false ->
  bool_decide ((if a then Some X else if b then Some O else None) = Some X) = a /\
  bool_decide ((if a then Some X else if b then Some O else None) = Some O) = b /\
  bool_decide ((if a then Some X else if b then Some O else @None Player) <> None) = a || b.
Proof. destruct a, b; simpl; intros H; try discriminate H; repeat split. Qed.

Lemma checkWinSubgrid_gridOutcome s c :
  boardsInRange (aSubgridBitboard s) -> boardsInRange (bSubgridBitboard s) ->
  noOverlap s -> In c cells ->
  checkWinSubgrid s c = gridOutcome (tileAt s c).
Proof.
  intros Hra Hrb Hno Hc.
  destruct (boardsInRange_read _ _ Hra Hc) as [_ Hxa].
  destruct (boardsInRange_read _ _ Hrb Hc) as [_ Hxb].
  specialize (Hno c Hc).
  unfold checkWinSubgrid. change (c.1 + c.2 * 3) with (bitIndex c). cbv zeta.
  set (xa := readBitboard (aSubgridBitboard s) (bitIndex c)) in *.
  set (xb := readBitboard (bSubgridBitboard s) (bitIndex c)) in *.
  assert (Hcase : forall o, In o cells ->
            bool_decide (tileAt s c o = Some X) = Z.testbit xa (bitIndex o) /\
            bool_decide (tileAt s c o = Some O) = Z.testbit xb (bitIndex o) /\
            bool_decide (tileAt s c o <> None) =
              Z.testbit xa (bitIndex o) || Z.testbit xb (bitIndex o)).
  { intros o Ho. rewrite (tileAt_bits s c o Hra Hrb Hc Ho). fold xa xb.
    apply tile_cases. rewrite <- Z.land_spec, Hno. apply Z.bits_0. }
  assert (HX : isBitboardWinning xa = holdsTriple (tileAt s c) X).
  { rewrite isBitboardWinning_triples by exact Hxa. unfold holdsTriple.
    apply existsb_ext_in. intros t Ht. apply forallb_ext_in. intros o Ho.
    symmetry. exact (proj1 (Hcase o (triples_in_cells t o Ht Ho))). }
  assert (HO : isBitboardWinning xb = holdsTriple (tileAt s c) O).
  { rewrite isBitboardWinning_triples by exact Hxb. unfold holdsTriple.
    apply existsb_ext_in. intros t Ht. apply forallb_ext_in. intros o Ho.
    symmetry. exact (proj1 (proj2 (Hcase o (triples_in_cells t o Ht Ho)))). }
  assert (HD : (JS.bor xa xb =? 511) =
               forallb (fun o => bool_decide (tileAt s c o <> None)) cells).
  { rewrite bor_board by assumption.
    rewrite full_board_testbit by (apply lor_board_range; assumption).
    apply forallb_ext_in. intros o Ho. rewrite Z.lor_spec.
    symmetry. exact (proj2 (proj2 (Hcase o Ho))). }
  unfold bitboardGridResult, gridOutcome. cbv zeta. now rewrite HX, HO, HD.
Qed.

(** X10.  In every reachable state the outcome of each subgrid is the
    outcome of its nine tiles as [getTile] shows them: a player who holds
    a row, a column or a diagonal of the subgrid; else drawn when no cell
    of the subgrid is empty; else in progress. *)
Theorem checkWinSubgrid_tiles (s : GameState) (c : Coordinate) :
  reachable s -> In c cells ->
  checkWinSubgrid s c = gridOutcome (tileAt s c).
Proof.
  intros Hr Hc.
  destruct (reachable_wellFormed s Hr) as (Hra & Hrb & _).
  destruct (reachable_playInv s Hr) as [Hno _].
  now apply checkWinSubgrid_gridOutcome.
Qed.

Lemma checkWinSubgrid_tiles_witness :
  checkWinSubgrid finishedGame (1, 1) = gridOutcome (tileAt finishedGame (1, 1)) /\
  gridOutcome (tileAt finishedGame (1, 1)) = Winner O.
Proof.
  split.
  - apply (checkWinSubgrid_tiles finishedGame (1, 1) finishedGame_reachable).
    vm_compute. tauto.
  - vm_compute. reflexivity.
Defined.

(** * More on the search *)

(** ** The visits of the root *)

(** Counting one visit at [r] leaves the root as it is, unless [r] is the
    root, the last node of the walk to the top. *)
Lemma rootVisits_count h r n (win : bool) st k :
  rootAtZero h ->
  h !! r = Some n ->
  rootVisits h st k ->
  rootVisits (<[r := Node.set_counts (n_plays n + 1)
                        (if win then n_wins n + 1 else n_wins n) n]> h) st
             (match parent n with Some _ => k | None => k + 1 end).
Proof.
  intros V0 Hr (root & Hroot & Hst & Hk).
  assert (Hlt : (r < length h)%nat) by (now apply lookup_lt_Some in Hr).
  destruct (decide (r = 0%nat)) as [-> | Hne].
  - rewrite Hroot in Hr. inversion Hr; subst n.
    rewrite (proj2 (V0 0%nat root Hroot) eq_refl).
    eexists. rewrite list_lookup_insert_eq by exact Hlt.
    split; [reflexivity |]. cbn. split; [exact Hst | lia].
  - destruct (parent n) as [p |] eqn:Hp.
    + exists root. rewrite list_lookup_insert_ne by congruence. repeat split; assumption.
    + exfalso. apply Hne. exact (proj1 (V0 r n Hr) Hp).
Qed.

Lemma hoare_backpropagateLoop_root fuel cur winner st k :
  hoare (fun w => storeInvAt (store w) cur /\ strictInvAt (store w) cur /\
                  rootVisits (store w) st (match cur with Some _ => k | None => k + 1 end))
        (MCTS.backpropagateLoop fuel cur winner)
        (fun _ w => rootVisits (store w) st (k + 1)).
Proof.
  revert cur. induction fuel as [| fuel IH]; intros [r |] w a w' (HI & HV & HR) E.
  - discriminate E.
  - inversion E; subst. exact HR.
  - destruct (store w !! r) as [n |] eqn:Hr.
    + rewrite (backpropagateLoop_step fuel r winner w n Hr) in E.
      refine (IH (parent n) _ a w' _ E). cbn [store set_store].
      refine (conj _ (conj _ _)).
      * now apply storeInvAt_count.
      * now apply strictInvAt_count.
      * apply rootVisits_count; [exact (proj1 HV) | exact Hr | exact HR].
    + cbn [MCTS.backpropagateLoop] in E.
      unfold mbind, Method_bind, deref in E. rewrite Hr in E. discriminate E.
  - inversion E; subst. exact HR.
Qed.

Lemma hoare_backpropagate_root r winner st k :
  hoare (fun w => storeInv (store w) /\ strictInvAt (store w) (Some r) /\
                  rootVisits (store w) st k)
        (MCTS.backpropagate r winner)
        (fun _ w => rootVisits (store w) st (k + 1)).
Proof.
  intros w a w' (HI & HV & HR) E. unfold MCTS.backpropagate in E.
  unfold mbind, Method_bind, get in E.
  refine (hoare_backpropagateLoop_root _ (Some r) winner st k w a w' _ E).
  refine (conj _ (conj HV HR)). now apply storeInvAt_start.
Qed.

Lemma hoare_Node_expand_root this play childState plays st k :
  hoare (fun w => rootVisits (store w) st k)
        (Node.expand this play childState plays)
        (fun _ w => rootVisits (store w) st k).
Proof.
  intros w a w' (root & Hroot & Hst & Hk) E. unfold Node.expand in E.
  apply bind_inv in E. destruct E as (n & w1 & E1 & E).
  apply deref_inv in E1. destruct E1 as [-> Hn].
  destruct (negb (map_has _ _)); [discriminate E |].
  apply bind_inv in E. destruct E as (c & w1 & E1 & E).
  unfold alloc in E1. inversion E1; subst c w1. clear E1.
  apply bind_inv in E. destruct E as ([] & w1 & E1 & E).
  inversion E; subst a w'. clear E.
  unfold update, modify in E1. inversion E1; subst w1. clear E1.
  cbn [store set_store].
  assert (Hlt : (this < length (store w))%nat) by (now apply lookup_lt_Some in Hn).
  set (child := Node.new (Some this) (Some play) childState plays).
  assert (Hn1 : (store w ++ [child]) !! this = Some n)
    by (rewrite lookup_app_l; assumption).
  rewrite Hn1.
  destruct (decide (this = 0%nat)) as [-> | Hne].
  - rewrite Hroot in Hn. inversion Hn; subst n.
    eexists. rewrite list_lookup_insert_eq by (rewrite length_app; simpl; lia).
    split; [reflexivity |]. split; assumption.
  - exists root. rewrite list_lookup_insert_ne by congruence.
    rewrite lookup_app_l by (now apply lookup_lt_Some in Hroot).
    repeat split; assumption.
Qed.

Section SearchRoot.

Variable U : UCB1Model.

Lemma hoare_expand_root r st k :
  hoare (fun w => rootVisits (store w) st k) (MCTS.expand r)
        (fun _ w => rootVisits (store w) st k).
Proof.
  intros w a w' HR E. unfold MCTS.expand in E.
  apply bind_inv in E. destruct E as (this & w1 & E1 & E).
  apply deref_inv in E1. destruct E1 as [-> Hthis].
  apply bind_inv in E. destruct E as (i & w1 & E1 & E).
  pose proof (keepsStore_eq _ _ _ _ (keepsStore_randomIndex _) E1) as Hs1.
  apply bind_inv in E. destruct E as ([randomMove childState'] & w2 & E2 & E).
  pose proof (keepsStore_eq _ _ _ _ (keepsStore_liftOutcome _) E2) as Hs2.
  apply bind_inv in E. destruct E as (childNode & w3 & E3 & E).
  assert (H3 : rootVisits (store w3) st k).
  { refine (hoare_Node_expand_root _ _ _ _ st k w2 childNode w3 _ E3).
    now rewrite Hs2, Hs1. }
  apply bind_inv in E. destruct E as ([] & w4 & E4 & E).
  pose proof (keepsStore_eq _ _ _ _ (keepsStore_set_nodes _) E4) as Hs4.
  inversion E; subst. now rewrite Hs4.
Qed.

Lemma hoare_iteration_root st0 st k :
  hoare (fun w => storeInv (store w) /\ strictInv (store w) /\ rootVisits (store w) st k)
        (MCTS.iteration U st0)
        (fun _ w => rootVisits (store w) st (k + 1)).
Proof.
  intros w a w' (HI & HV & HR) E.
  unfold MCTS.iteration in E.
  apply bind_inv in E. destruct E as (r & w1 & E1 & E).
  pose proof (keepsStore_eq _ _ _ _ (keepsStore_select U st0) E1) as Hs1.
  apply bind_inv in E. destruct E as (n & w2 & E2 & E).
  apply deref_inv in E2. destruct E2 as [-> Hn].
  assert (HI1 : storeInv (store w1)) by (now rewrite Hs1).
  assert (HV1 : strictInv (store w1)) by (now rewrite Hs1).
  assert (HR1 : rootVisits (store w1) st k) by (now rewrite Hs1).
  destruct (negb (Node.isLeaf n) && bool_decide (_ = none)).
  - apply bind_inv in E. destruct E as (r' & w2 & E2 & E).
    pose proof (hoare_expand r w1 r' w2 HI1 E2) as HI2.
    pose proof (hoare_expand_strict r w1 r' w2 (conj HI1 HV1) E2) as HV2.
    pose proof (hoare_expand_root r st k w1 r' w2 HR1 E2) as HR2.
    apply bind_inv in E. destruct E as (winner' & w3 & E3 & E).
    pose proof (keepsStore_eq _ _ _ _ (keepsStore_simulate r') E3) as Hs3.
    refine (hoare_backpropagate_root r' winner' st k w3 a w' _ E).
    rewrite Hs3. refine (conj HI2 (conj HV2 HR2)).
  - refine (hoare_backpropagate_root r _ st k w1 a w' _ E).
    refine (conj HI1 (conj _ HR1)). now apply strictInvAt_start.
Qed.

Lemma hoare_iterate_root n st0 st k :
  hoare (fun w => storeInv (store w) /\ strictInv (store w) /\ rootVisits (store w) st k)
        (MCTS.iterate U n st0)
        (fun _ w => rootVisits (store w) st (k + Z.of_nat n)).
Proof.
  revert k. induction n as [| n IH]; intros k w a w' (HI & HV & HR) E; simpl in E.
  - inversion E; subst. now rewrite Z.add_0_r.
  - apply bind_inv in E. destruct E as ([] & w1 & E1 & E).
    destruct (hoare_iteration_strict U st0 w tt w1 (conj HI HV) E1) as [HI1 HV1].
    pose proof (hoare_iteration_root st0 st k w tt w1 (conj HI (conj HV HR)) E1) as HR1.
    pose proof (IH (k + 1) w1 a w' (conj HI1 (conj HV1 HR1)) E) as H.
    replace (k + Z.of_nat (S n)) with (k + 1 + Z.of_nat n) by lia. exact H.
Qed.

End SearchRoot.

(** X6.  A completed [runSearch] from a new search object leaves at index
    0 of the store the root, the node without a parent that holds the
    searched game, and the root has counted exactly one visit for each
    turn of the loop. *)
Theorem runSearch_root_visits (U : UCB1Model) (random : nat -> nat) (iterations : nat)
    (st : Game) (w' : MonteCarlo) :
  MCTS.runSearch U iterations st (newMonteCarlo random) = (Ok tt, w') ->
  exists root,
    store w' !! 0%nat = Some root /\
    parent root = None /\
    state root = st /\
    n_plays root = Z.of_nat iterations.
Proof.
  intros E.
  destruct (runSearch_invariants U random iterations st w' E) as [_ (V0 & _)].
  unfold MCTS.runSearch in E.
  apply bind_inv in E. destruct E as ([] & w1 & E1 & E).
  assert (HI1 : storeInv (store w1))
    by exact (hoare_makeNode st (newMonteCarlo random) tt w1 storeInv_empty E1).
  rewrite makeNode_new in E1. inversion E1; subst w1.
  cbn [store set_nodes set_store newMonteCarlo app] in *.
  set (root0 := Node.new None None st (legalMoves (currentState st))) in *.
  assert (HV1 : strictInv [root0]) by (now apply strictInv_root).
  assert (HR1 : rootVisits [root0] st 0) by (exists root0; repeat split).
  destruct (hoare_iterate_root U iterations st st 0
              (set_nodes (map_set (hash (currentState st)) 0%nat)
                 (set_store (fun h => h ++ [root0]) (newMonteCarlo random)))
              tt w' (conj HI1 (conj HV1 HR1)) E)
    as (root & Hroot & Hst & Hk).
  exists root. refine (conj Hroot (conj _ (conj Hst _))).
  - exact (proj2 (V0 0%nat root Hroot) eq_refl).
  - lia.
Qed.

Lemma runSearch_root_visits_witness :
  exists root,
    store lateSearch !! 0%nat = Some root /\
    parent root = None /\
    state root = lateGame /\
    n_plays root = Z.of_nat 25.
Proof. exact (runSearch_root_visits exampleUCB1 firstRandom 25 lateGame lateSearch lateSearch_eq). Defined.

(** ** The playout *)

Lemma randomIndex_run len w :
  exists i w', randomIndex len w = (Ok i, w') /\
    store w' = store w /\ nodes w' = nodes w /\
    ((0 < len)%nat -> (i < len)%nat).
Proof.
  unfold randomIndex. eexists. eexists. split; [reflexivity |].
  split; [reflexivity |]. split; [reflexivity |].
  intros Hlen. destruct len as [| len]; [lia |].
  apply Nat.mod_upper_bound. lia.
Qed.

(** The loop of [simulate] ends before its bound: from a reachable state
    each turn plays one legal move, and no game has more than 81. *)
Lemma simulateLoop_total fuel g w :
  reachable (currentState g) ->
  (82 <= fuel + length (moves (currentState g)))%nat ->
  exists winner final w',
    MCTS.simulateLoop fuel g (checkWinWholeBoard (currentState g)) w = (Ok winner, w') /\
    winner <> none /\
    reachable final /\ checkWinWholeBoard final = winner /\
    store w' = store w /\ nodes w' = nodes w.
Proof.
  revert g w. induction fuel as [| fuel IH]; intros g w Hr Hf.
  - pose proof (reachable_moves_bound _ Hr). lia.
  - cbn [MCTS.simulateLoop].
    destruct (decide (checkWinWholeBoard (currentState g) = none)) as [Hn | Hn].
    + rewrite bool_decide_eq_true_2 by exact Hn.
      pose proof (reachable_wellFormed _ Hr) as Hwf.
      assert (Hc : complete (currentState g) = false).
      { destruct Hwf as (_ & _ & Hc & _). rewrite Hc.
        apply bool_decide_eq_false. intros H. exact (H Hn). }
      destruct (legalMoves_nonempty _ Hwf Hc) as (m0 & Hm0).
      assert (Hlen : (0 < length (legalMoves (currentState g)))%nat).
      { destruct (legalMoves (currentState g)); [contradiction | simpl; lia]. }
      destruct (randomIndex_run (length (legalMoves (currentState g))) w)
        as (i & w1 & Ei & Hs1 & Hn1 & Hi).
      specialize (Hi Hlen).
      destruct (lookup_lt_is_Some_2 _ _ Hi) as (m & Hm).
      assert (Hin : In m (legalMoves (currentState g))).
      { apply list_elem_of_In. eapply list_elem_of_lookup_2. exact Hm. }
      destruct g as [s calls]. cbn [currentState] in *.
      pose proof (legalMoves_doMove s calls m Hin) as Edo.
      assert (Hr' : reachable (afterMove m s)).
      { exact (reachable_doMove s m calls _ Hr Hin Edo). }
      assert (Hmv : moves (afterMove m s) = moves s ++ [m]).
      { pose proof (afterMove_fields m s) as H. cbv zeta in H. tauto. }
      destruct (IH (mkGame (afterMove m s) (calls ++ [m])) w1 Hr') as
        (winner & final & w' & E & Hw & Hfin & Hout & Hs' & Hn').
      { cbn [currentState]. rewrite Hmv, length_app. simpl. lia. }
      exists winner, final, w'. split.
      * unfold mbind, Method_bind. rewrite Ei.
        unfold liftOutcome, MCTS.doMoveAt. rewrite Hm, Edo. exact E.
      * repeat split; try assumption; congruence.
    + rewrite bool_decide_eq_false_2 by exact Hn.
      exists (checkWinWholeBoard (currentState g)), (currentState g), w.
      repeat split; assumption.
Qed.

Lemma simulate_run (w : MonteCarlo) (r : nat) (n : MonteCarloNode) :
  store w !! r = Some n ->
  reachable (currentState (state n)) ->
  exists winner final w',
    MCTS.simulate r w = (Ok winner, w') /\
    winner <> none /\
    reachable final /\ checkWinWholeBoard final = winner /\
    store w' = store w /\ nodes w' = nodes w.
Proof.
  intros Hn Hr. unfold MCTS.simulate, mbind, Method_bind, deref. rewrite Hn.
  apply (simulateLoop_total 82 (copy (state n)) w).
  - exact Hr.
  - lia.
Qed.



(** ** The search never throws *)

Lemma map_get_Some_In {V} k (v : V) l : map_get k l = Some v -> In (k, v) l.
Proof.
  induction l as [| [k0 v0] l IH]; simpl; [discriminate |].
  destruct (decide (k = k0)) as [-> | Hne].
  - intros H. inversion H. now left.
  - intros H. right. now apply IH.
Qed.

Lemma In_map_get {V} k (v : V) l : In (k, v) l -> is_Some (map_get k l).
Proof.
  induction l as [| [k0 v0] l IH]; simpl; [contradiction |].
  intros [E | Hin]; destruct (decide (k = k0)) as [-> | Hne]; eauto.
  inversion E; congruence.
Qed.

Lemma map_get_map_set {V} k (v : V) l k' :
  map_get k' (map_set k v l) = if decide (k' = k) then Some v else map_get k' l.
Proof.
  induction l as [| [k0 v0] l IH]; simpl.
  - destruct (decide (k' = k)); reflexivity.
  - destruct (decide (k = k0)) as [-> | Hne]; simpl.
    + destruct (decide (k' = k0)); reflexivity.
    + rewrite IH. destruct (decide (k' = k0)) as [-> | Hne'].
      * rewrite decide_False by congruence. reflexivity.
      * reflexivity.
Qed.

Lemma new_children_plays parent play st plays k ch :
  In (k, ch) (children (Node.new parent play st plays)) ->
  k = moveHash (childPlay ch) /\ In (childPlay ch) plays.
Proof.
  unfold Node.new. cbn [children].
  assert (H : forall acc,
    (forall k ch, In (k, ch) acc -> k = moveHash (childPlay ch) /\ In (childPlay ch) plays) ->
    forall l, (forall p, In p l -> In p plays) ->
    In (k, ch) (fold_left (fun ch p => map_set (moveHash p) (mkChild p None) ch) l acc) ->
    k = moveHash (childPlay ch) /\ In (childPlay ch) plays).
  { intros acc Hacc l. revert acc Hacc. induction l as [| p l IH]; intros acc Hacc Hl; simpl.
    - apply Hacc.
    - apply IH; [| intros q Hq; apply Hl; now right].
      intros k' ch' Hin. apply map_set_In in Hin.
      destruct Hin as [E | Hin]; [| exact (Hacc _ _ Hin)].
      inversion E; subst. cbn. split; [reflexivity | apply Hl; now left]. }
  apply (H [] (fun _ _ F => match F with end) plays). auto.
Qed.

(** *** The exploration parameter is never written *)

Lemma keepsParam_bind {A B} (m : Method MonteCarlo A) (k : A -> Method MonteCarlo B) :
  keepsParam m -> (forall a, keepsParam (k a)) -> keepsParam (m ≫= k).
Proof.
  intros Hm Hk w. unfold mbind, Method_bind.
  specialize (Hm w). destruct (m w) as [[a | e] w1]; simpl in *.
  - rewrite Hk. exact Hm.
  - exact Hm.
Qed.

Lemma keepsParam_ret {A} (a : A) : keepsParam (mret a).
Proof. intros w. reflexivity. Qed.

Lemma keepsParam_throw {A} e : keepsParam (@throw MonteCarlo A e).
Proof. intros w. reflexivity. Qed.

Lemma keepsParam_get : keepsParam get.
Proof. intros w. reflexivity. Qed.

Lemma keepsParam_deref r : keepsParam (deref r).
Proof. intros w. unfold deref. destruct (store w !! r); reflexivity. Qed.

Lemma keepsParam_liftOutcome {A} (o : Outcome A) : keepsParam (liftOutcome o).
Proof. intros w. reflexivity. Qed.

Lemma keepsParam_randomIndex len : keepsParam (randomIndex len).
Proof. intros w. reflexivity. Qed.

Lemma keepsParam_set_nodes f : keepsParam (modify (set_nodes f)).
Proof. intros w. reflexivity. Qed.

Lemma keepsParam_alloc n : keepsParam (alloc n).
Proof. intros w. reflexivity. Qed.

Lemma keepsParam_update r f : keepsParam (update r f).
Proof. intros w. reflexivity. Qed.

Create HintDb param.
#[local] Hint Resolve keepsParam_ret keepsParam_throw keepsParam_get keepsParam_deref
  keepsParam_liftOutcome keepsParam_randomIndex keepsParam_set_nodes keepsParam_alloc
  keepsParam_update : param.

Ltac param_step :=
  first [ apply keepsParam_bind; [| intros ?]
        | solve [auto with param]
        | match goal with
          | |- keepsParam (match ?x with _ => _ end) => destruct x
          | |- keepsParam (if ?b then _ else _) => destruct b
          | |- keepsParam (let '(_, _) := ?x in _) => destruct x
          | |- keepsParam (when ?b _) => unfold when
          end ].

Lemma keepsParam_Node_expand this play cs plays : keepsParam (Node.expand this play cs plays).
Proof. unfold Node.expand. repeat param_step. Qed.

Lemma keepsParam_expand r : keepsParam (MCTS.expand r).
Proof. unfold MCTS.expand. repeat (first [apply keepsParam_Node_expand | param_step]). Qed.

Lemma keepsParam_simulateLoop fuel st winner : keepsParam (MCTS.simulateLoop fuel st winner).
Proof.
  revert st winner. induction fuel as [| fuel IH]; intros st winner; simpl.
  - destruct (bool_decide (winner = none)); auto with param.
  - destruct (bool_decide (winner = none)); [| auto with param].
    repeat (first [apply IH | param_step]).
Qed.

Lemma keepsParam_simulate r : keepsParam (MCTS.simulate r).
Proof. unfold MCTS.simulate. repeat (first [apply keepsParam_simulateLoop | param_step]). Qed.

Lemma keepsParam_backpropagateLoop fuel cur winner :
  keepsParam (MCTS.backpropagateLoop fuel cur winner).
Proof.
  revert cur. induction fuel as [| fuel IH]; intros [r |]; simpl; auto with param.
  repeat (first [apply IH | param_step]).
Qed.

Lemma keepsParam_backpropagate r winner : keepsParam (MCTS.backpropagate r winner).
Proof.
  unfold MCTS.backpropagate. repeat (first [apply keepsParam_backpropagateLoop | param_step]).
Qed.

Lemma keepsParam_eq {A} (m : Method MonteCarlo A) w o w1 :
  keepsParam m -> m w = (o, w1) -> UCB1ExploreParam w1 = UCB1ExploreParam w.
Proof. intros Hk E. specialize (Hk w). now rewrite E in Hk. Qed.

Section SearchTotal.

Variable U : UCB1Model.
Hypothesis Hpos : positiveScores U 2.

Lemma selectBest_run this plays best score w :
  (forall play, In play plays -> scorable w this play) ->
  exists b, MCTS.selectBest U this plays best score w = (Ok b, w) /\
            (b = best \/ exists p, b = Some p /\ In p plays).
Proof.
  revert best score. induction plays as [| play rest IH]; intros best score Hall.
  - exists best. split; [reflexivity | now left].
  - destruct (Hall play (or_introl eq_refl)) as (r & cn & p & pn & Hr & Hcn & Hp & Hpn & _).
    assert (Hrest : forall q, In q rest -> scorable w this q)
      by (intros q Hq; apply Hall; now right).
    cbn [MCTS.selectBest].
    unfold mbind, Method_bind, get, liftOutcome, deref, Node.getUCB1. rewrite Hr, Hcn, Hp.
    unfold mbind, Method_bind, deref. rewrite Hpn. unfold mret, Method_ret.
    destruct (score_gt U _ score).
    + destruct (IH (Some play)
                  (ucb1 U (UCB1ExploreParam w) (n_wins cn) (n_plays cn) (n_plays pn)) Hrest)
        as (b & E & Hb).
      exists b. split; [exact E |].
      right. destruct Hb as [-> | (q & -> & Hq)]; [exists play | exists q];
        (split; [reflexivity |]); [now left | now right].
    + destruct (IH best score Hrest) as (b & E & Hb). exists b. split; [exact E |].
      destruct Hb as [-> | (q & -> & Hq)]; [now left | right].
      exists q. split; [reflexivity | now right].
Qed.

(** From [-Infinity] and no best play, the first play is taken, so the
    loop ends with a play. *)
Lemma selectBest_first this plays w :
  UCB1ExploreParam w = 2 ->
  plays <> [] ->
  (forall play, In play plays -> scorable w this play) ->
  exists p, MCTS.selectBest U this plays None (minusInfinity U) w = (Ok (Some p), w) /\
            In p plays.
Proof.
  intros Hparam Hne Hall. destruct plays as [| play rest]; [contradiction |].
  destruct (Hall play (or_introl eq_refl))
    as (r & cn & p & pn & Hr & Hcn & Hp & Hpn & Hw & Hv).
  assert (Hrest : forall q, In q rest -> scorable w this q)
    by (intros q Hq; apply Hall; now right).
  cbn [MCTS.selectBest].
  unfold mbind, Method_bind, get, liftOutcome, deref, Node.getUCB1. rewrite Hr, Hcn, Hp.
  unfold mbind, Method_bind, deref. rewrite Hpn. unfold mret, Method_ret.
  rewrite Hparam. rewrite (Hpos _ _ _ Hw Hv).
  destruct (selectBest_run this rest (Some play)
              (ucb1 U 2 (n_wins cn) (n_plays cn) (n_plays pn)) w Hrest)
    as (b & E & Hb).
  destruct Hb as [-> | (q & -> & Hq)].
  - exists play. split; [exact E | now left].
  - exists q. split; [exact E | now right].
Qed.

(** Every play of a fully expanded node can be scored. *)
Lemma fullyExpanded_scorable st w r n play :
  searchInv st w ->
  store w !! r = Some n ->
  Node.isFullyExpanded n = true ->
  In play (Node.allPlays n) ->
  scorable w n play /\
  forall c, Node.childNode n play = Ok c -> (r < c)%nat.
Proof.
  intros ((I1 & I2 & I3 & I4) & (V0 & V1 & _) & (_ & _ & Hnodes)) Hn Hfull Hplay.
  destruct (Hnodes r n Hn) as [Hlegal _].
  unfold Node.allPlays, map_values in Hplay.
  apply in_map_iff in Hplay. destruct Hplay as (ch0 & <- & Hch0).
  apply in_map_iff in Hch0. destruct Hch0 as ([k0 ch0'] & Ek & Hin0). simpl in Ek. subst ch0'.
  destruct (Hlegal k0 ch0 Hin0) as [-> _].
  destruct (In_map_get _ _ _ Hin0) as (ch & Hget).
  pose proof (map_get_Some_In _ _ _ Hget) as Hin.
  unfold Node.isFullyExpanded in Hfull. rewrite forallb_forall in Hfull.
  assert (Hex : node ch <> None).
  { assert (Hv : In ch (map_values (children n))).
    { unfold map_values. apply in_map_iff. exists (moveHash (childPlay ch0), ch). now split. }
    specialize (Hfull ch Hv). now apply bool_decide_eq_true in Hfull. }
  destruct (node ch) as [c |] eqn:Hc; [| contradiction].
  destruct (I4 r n _ ch c Hn Hin Hc) as (cn & Hcn & Hpar).
  pose proof (I2 c cn r Hcn Hpar) as Hlt.
  assert (Hchild : Node.childNode n (childPlay ch0) = Ok c).
  { unfold Node.childNode. now rewrite Hget, Hc. }
  split.
  - exists c, cn, r, n. refine (conj Hchild (conj Hcn (conj Hpar (conj Hn (conj _ _))))).
    + exact (I1 c cn Hcn).
    + split; [apply (V1 c cn Hcn); lia | exact (I3 c cn r n Hcn Hpar Hn)].
  - intros c' Hc'. rewrite Hchild in Hc'. inversion Hc'; subst c'. exact Hlt.
Qed.

(** The descent of [select] stops before its bound, at a node that is a
    leaf or has an unexpanded child. *)
Lemma selectLoop_total st fuel r w :
  UCB1ExploreParam w = 2 ->
  searchInv st w ->
  (r < length (store w))%nat ->
  (length (store w) < fuel + r)%nat ->
  exists r' n',
    MCTS.selectLoop U fuel r w = (Ok r', w) /\
    store w !! r' = Some n' /\
    Node.isFullyExpanded n' && negb (Node.isLeaf n') = false.
Proof.
  intros Hparam Hinv. revert r. induction fuel as [| fuel IH]; intros r Hr Hf; [lia |].
  destruct (lookup_lt_is_Some_2 _ _ Hr) as (n & Hn).
  cbn [MCTS.selectLoop]. unfold mbind at 1, Method_bind at 1, deref. rewrite Hn.
  destruct (Node.isFullyExpanded n && negb (Node.isLeaf n)) eqn:Hcond.
  - apply andb_true_iff in Hcond. destruct Hcond as [Hfull Hleaf].
    assert (Hne : Node.allPlays n <> []).
    { unfold Node.isLeaf in Hleaf. apply negb_true_iff, bool_decide_eq_false in Hleaf.
      unfold Node.allPlays, map_values. destruct (children n); [contradiction | discriminate]. }
    destruct (selectBest_first n (Node.allPlays n) w Hparam Hne) as (p & E & Hp).
    { intros play Hplay. exact (proj1 (fullyExpanded_scorable st w r n play Hinv Hn Hfull Hplay)). }
    unfold mbind, Method_bind. rewrite E.
    destruct (fullyExpanded_scorable st w r n p Hinv Hn Hfull Hp)
      as [(c & cn & _ & _ & Hc & Hcn & _) Hlt].
    unfold liftOutcome. rewrite Hc.
    apply IH.
    + now apply lookup_lt_Some in Hcn.
    + pose proof (Hlt c Hc). lia.
  - exists r, n. repeat split; assumption.
Qed.

Lemma select_total st w :
  UCB1ExploreParam w = 2 ->
  searchInv st w ->
  exists r n,
    MCTS.select U st w = (Ok r, w) /\
    store w !! r = Some n /\
    Node.isFullyExpanded n && negb (Node.isLeaf n) = false.
Proof.
  intros Hparam Hinv. pose proof Hinv as (_ & _ & ([r0 Hr0] & Hrefs & _)).
  unfold MCTS.select, MCTS.lookupNode, mbind, Method_bind, get. rewrite Hr0.
  unfold mret, Method_ret.
  apply (selectLoop_total st); [exact Hparam | exact Hinv | exact (Hrefs _ _ Hr0) | lia].
Qed.


(** *** Expansion *)

Lemma bind_run {S A B} (m : Method S A) (k : A -> Method S B) w a w1 :
  m w = (Ok a, w1) -> (m ≫= k) w = k a w1.
Proof. intros E. unfold mbind, Method_bind. now rewrite E. Qed.

Lemma deref_run r w n : store w !! r = Some n -> deref r w = (Ok n, w).
Proof. intros H. unfold deref. now rewrite H. Qed.

Lemma Node_expand_run this play cs plays w n :
  store w !! this = Some n ->
  is_Some (map_get (moveHash play) (children n)) ->
  exists w',
    Node.expand this play cs plays w = (Ok (length (store w)), w') /\
    store w' = <[this := Node.set_children
                   (map_set (moveHash play) (mkChild play (Some (length (store w))))
                            (children n)) n]>
                 (store w ++ [Node.new (Some this) (Some play) cs plays]) /\
    nodes w' = nodes w.
Proof.
  intros Hn Hhas.
  assert (Hlt : (this < length (store w))%nat) by (now apply lookup_lt_Some in Hn).
  unfold Node.expand. rewrite (bind_run _ _ _ _ _ (deref_run _ _ _ Hn)).
  unfold map_has. rewrite bool_decide_eq_true_2 by exact Hhas. cbn [negb].
  unfold mbind, Method_bind, alloc, update, modify, mret, Method_ret.
  eexists. split; [reflexivity |]. cbn [store set_store nodes].
  rewrite lookup_app_l by exact Hlt. rewrite Hn. split; reflexivity.
Qed.

(** [expand] on a node with an unexpanded child makes the child: the play
    at the random index exists and is legal in a copy of the node's game.
    The child goes at the end of the store, under the hash of its game in
    the map of nodes, and into the entry of its play in the parent. *)
Lemma expand_run st r n w :
  searchInv st w ->
  store w !! r = Some n ->
  Node.isFullyExpanded n = false ->
  exists move ch0 w',
    In (moveHash move, ch0) (children n) /\ node ch0 = None /\
    In move (legalMoves (currentState (state n))) /\
    MCTS.expand r w = (Ok (length (store w)), w') /\
    store w' =
      <[r := Node.set_children
               (map_set (moveHash move) (mkChild move (Some (length (store w))))
                        (children n)) n]>
        (store w ++ [Node.new (Some r) (Some move)
                       (mkGame (afterMove move (currentState (state n))) [move])
                       (legalMoves (afterMove move (currentState (state n))))]) /\
    nodes w' = map_set (hash (afterMove move (currentState (state n))))
                       (length (store w)) (nodes w).
Proof.
  intros (HI & HV & (Hroot & Hrefs & Hnodes)) Hn Hfull.
  destruct (Hnodes r n Hn) as [Hlegal Hreach].
  unfold Node.isFullyExpanded in Hfull.
  apply forallb_exists_false in Hfull. destruct Hfull as (ch0 & Hch0 & Hnone).
  apply bool_decide_eq_false in Hnone.
  assert (Hnone0 : node ch0 = None)
    by (destruct (node ch0); [exfalso; apply Hnone; discriminate | reflexivity]).
  set (plays := Node.unexpandedPlays n).
  assert (Hplays : forall move, In move plays ->
            exists k ch, In (k, ch) (children n) /\ childPlay ch = move /\ node ch = None).
  { intros move Hmove. unfold plays, Node.unexpandedPlays in Hmove.
    apply in_map_iff in Hmove. destruct Hmove as (ch & <- & Hch).
    apply list_elem_of_In, list_elem_of_filter in Hch. destruct Hch as [Hun Hch].
    apply list_elem_of_In in Hch. unfold map_values in Hch.
    apply in_map_iff in Hch. destruct Hch as ([k ch'] & E & Hin). simpl in E. subst ch'.
    exists k, ch. split; [exact Hin | split; [reflexivity | exact Hun]]. }
  assert (Hlen : (0 < length plays)%nat).
  { assert (Hin : In (childPlay ch0) plays).
    { unfold plays, Node.unexpandedPlays. apply in_map.
      apply list_elem_of_In, list_elem_of_filter. split; [exact Hnone0 |].
      now apply list_elem_of_In. }
    destruct plays; [contradiction | simpl; lia]. }
  destruct (randomIndex_run (length plays) w) as (i & w1 & Ei & Hs1 & Hn1 & Hi).
  specialize (Hi Hlen).
  destruct (lookup_lt_is_Some_2 _ _ Hi) as (move & Hmove).
  assert (Hin : In move plays).
  { apply list_elem_of_In. eapply list_elem_of_lookup_2. exact Hmove. }
  destruct (Hplays move Hin) as (k & ch & Hkch & Hplay & Hun).
  destruct (Hlegal k ch Hkch) as [Hk Hlm]. rewrite Hplay in Hk, Hlm. subst k.
  set (s := currentState (state n)) in *.
  pose proof (legalMoves_doMove s [] move Hlm) as Edo.
  assert (Hn' : store w1 !! r = Some n) by (now rewrite Hs1).
  destruct (Node_expand_run r move (mkGame (afterMove move s) ([] ++ [move]))
              (legalMoves (afterMove move s)) w1 n Hn' (In_map_get _ _ _ Hkch))
    as (w2 & E2 & Hs2 & Hn2).
  exists move, ch, (set_nodes (map_set (hash (afterMove move s)) (length (store w1))) w2).
  refine (conj Hkch (conj Hun (conj Hlm (conj _ (conj _ _))))).
  - unfold MCTS.expand.
    rewrite (bind_run _ _ _ _ _ (deref_run _ _ _ Hn)).
    fold plays. rewrite (bind_run _ _ _ _ _ Ei).
    assert (Emove : liftOutcome (MCTS.doMoveAt plays i (copy (state n))) w1 =
                    (Ok (move, mkGame (afterMove move s) ([] ++ [move])), w1)).
    { unfold liftOutcome, MCTS.doMoveAt. rewrite Hmove.
      unfold copy, newGame. fold s. rewrite Edo. reflexivity. }
    rewrite (bind_run _ _ _ _ _ Emove). cbn [currentState].
    rewrite (bind_run _ _ _ _ _ E2). rewrite Hs1. reflexivity.
  - cbn [store set_nodes]. rewrite Hs2, Hs1. reflexivity.
  - cbn [nodes set_nodes]. now rewrite Hn2, Hn1, Hs1.
Qed.

Lemma expand_total st r n w :
  searchInv st w ->
  store w !! r = Some n ->
  Node.isFullyExpanded n = false ->
  exists c w' cn,
    MCTS.expand r w = (Ok c, w') /\
    store w' !! c = Some cn /\
    shapeInv st w'.
Proof.
  intros Hinv Hn Hfull.
  destruct (expand_run st r n w Hinv Hn Hfull)
    as (move & ch0 & w' & Hkch & Hun & Hlm & E & Hs' & Hn').
  destruct Hinv as (HI & HV & (Hroot & Hrefs & Hnodes)).
  destruct (Hnodes r n Hn) as [Hlegal Hreach].
  assert (Hlt : (r < length (store w))%nat) by (now apply lookup_lt_Some in Hn).
  set (s := currentState (state n)) in *.
  set (child := Node.new (Some r) (Some move) (mkGame (afterMove move s) [move])
                         (legalMoves (afterMove move s))) in *.
  set (n2 := Node.set_children _ n) in Hs'.
  exists (length (store w)), w', child. split; [exact E |].
  assert (Hlen' : length (store w') = S (length (store w))).
  { rewrite Hs', length_insert, length_app. simpl. lia. }
  split.
  { rewrite Hs'. rewrite list_lookup_insert_ne by lia.
    rewrite lookup_app_r by lia. now rewrite Nat.sub_diag. }
  refine (conj _ (conj _ _)).
  - rewrite Hn', map_get_map_set. destruct (decide _); [eauto | exact Hroot].
  - intros k' r'. rewrite Hn', map_get_map_set. destruct (decide _).
    + intros E'. inversion E'; subst r'. lia.
    + intros E'. pose proof (Hrefs k' r' E'). lia.
  - intros q x Hx. rewrite Hs' in Hx. apply lookup_insert_cases in Hx.
    destruct Hx as [(-> & -> & _) | (Hne & Hx)].
    + split; [| exact Hreach].
      intros k' ch' Hin'. unfold n2 in Hin'. cbn [children Node.set_children] in Hin'.
      apply map_set_In in Hin'. destruct Hin' as [E' | Hin'].
      * inversion E'; subst. cbn. split; [reflexivity | exact Hlm].
      * exact (Hlegal k' ch' Hin').
    + apply lookup_snoc in Hx. destruct Hx as [[_ Hx] | [_ ->]].
      * exact (Hnodes q x Hx).
      * split.
        -- intros k' ch' Hin'. apply new_children_plays in Hin'. exact Hin'.
        -- cbn. exact (reachable_doMove s move [] _ Hreach Hlm
                         (legalMoves_doMove s [] move Hlm)).
Qed.

(** *** Backpropagation *)

(** The walk to the root ends before its bound: each parent was made
    before its child.  It changes counters only. *)
Lemma backpropagateLoop_total fuel cur winner w :
  (forall r n p, store w !! r = Some n -> parent n = Some p -> (p < r)%nat) ->
  (forall r, cur = Some r -> (r < length (store w))%nat /\ (r < fuel)%nat) ->
  exists w',
    MCTS.backpropagateLoop fuel cur winner w = (Ok tt, w') /\
    nodes w' = nodes w /\
    length (store w') = length (store w) /\
    forall q x', store w' !! q = Some x' ->
      exists x, store w !! q = Some x /\ children x' = children x /\ state x' = state x.
Proof.
  revert cur w. induction fuel as [| fuel IH]; intros [r |] w Hord Hcur.
  - destruct (Hcur r eq_refl). lia.
  - exists w. repeat split. eauto.
  - destruct (Hcur r eq_refl) as [Hr Hf].
    destruct (lookup_lt_is_Some_2 _ _ Hr) as (n & Hn).
    rewrite (backpropagateLoop_step fuel r winner w n Hn).
    set (n' := Node.set_counts _ _ n).
    set (w1 := set_store _ w).
    assert (Hlook : forall q x', store w1 !! q = Some x' ->
              exists x, store w !! q = Some x /\ children x' = children x /\
                        state x' = state x /\ parent x' = parent x).
    { intros q x' Hx'. unfold w1 in Hx'. cbn [store set_store] in Hx'.
      apply lookup_insert_cases in Hx'.
      destruct Hx' as [(-> & -> & _) | (Hne & Hx')].
      - exists n. repeat split. exact Hn.
      - exists x'. repeat split. exact Hx'. }
    assert (Hlen1 : length (store w1) = length (store w)).
    { unfold w1. cbn [store set_store]. apply length_insert. }
    destruct (IH (parent n) w1) as (w' & E & Hn' & Hl' & Hsh').
    + intros q x p Hx Hp. destruct (Hlook q x Hx) as (x0 & Hx0 & _ & _ & Epar).
      rewrite Epar in Hp. exact (Hord q x0 p Hx0 Hp).
    + intros p Hp. pose proof (Hord r n p Hn Hp). rewrite Hlen1. lia.
    + exists w'. split; [exact E |]. split; [rewrite Hn'; reflexivity |].
      split; [lia |]. intros q x' Hx'.
      destruct (Hsh' q x' Hx') as (x1 & Hx1 & Ec1 & Es1).
      destruct (Hlook q x1 Hx1) as (x & Hx & Ec & Es & _).
      exists x. repeat split; [exact Hx | congruence | congruence].
  - exists w. repeat split. eauto.
Qed.

Lemma backpropagate_run r winner w :
  storeInv (store w) ->
  (r < length (store w))%nat ->
  exists w', MCTS.backpropagate r winner w = (Ok tt, w') /\
             nodes w' = nodes w /\ sameShape (store w) (store w').
Proof.
  intros (_ & I2 & _) Hr.
  destruct (backpropagateLoop_total (S (length (store w))) (Some r) winner w I2)
    as (w' & E & Hn' & Hl' & Hsh').
  { intros r' Hr'. inversion Hr'; subst r'. split; lia. }
  exists w'. split; [exact E |]. split; [exact Hn' |]. split; assumption.
Qed.

Lemma shapeInv_sameShape st w w' :
  nodes w' = nodes w -> sameShape (store w) (store w') -> shapeInv st w -> shapeInv st w'.
Proof.
  intros Hn' [Hl' Hsh'] (Hroot & Hrefs & Hnodes). refine (conj _ (conj _ _)).
  - now rewrite Hn'.
  - intros k q. rewrite Hn', Hl'. apply Hrefs.
  - intros q x' Hx'. destruct (Hsh' q x' Hx') as (x & Hx & Ec & Es).
    destruct (Hnodes q x Hx) as [Hlegal Hreach]. split.
    + intros k ch. rewrite Ec, Es. apply Hlegal.
    + now rewrite Es.
Qed.

Lemma backpropagate_total st r winner w :
  storeInv (store w) -> shapeInv st w ->
  (r < length (store w))%nat ->
  exists w', MCTS.backpropagate r winner w = (Ok tt, w') /\ shapeInv st w'.
Proof.
  intros HI Hshape Hr.
  destruct (backpropagate_run r winner w HI Hr) as (w' & E & Hn' & Hsh').
  exists w'. split; [exact E |]. now apply (shapeInv_sameShape st w).
Qed.

(** *** One turn of the loop, and all of them *)

Lemma shapeInv_same st w w' :
  nodes w' = nodes w -> store w' = store w -> shapeInv st w -> shapeInv st w'.
Proof. intros Hn Hs. unfold shapeInv. now rewrite Hn, Hs. Qed.

(** One turn of the loop, traced: the node [select] stops at, and what
    the turn does to the store and to the map of nodes. *)
Lemma iteration_trace st w :
  UCB1ExploreParam w = 2 ->
  searchInv st w ->
  exists r n w',
    MCTS.select U st w = (Ok r, w) /\
    store w !! r = Some n /\
    Node.isFullyExpanded n && negb (Node.isLeaf n) = false /\
    MCTS.iteration U st w = (Ok tt, w') /\
    UCB1ExploreParam w' = 2 /\ searchInv st w' /\
    ((Node.isLeaf n = false /\
      checkWinWholeBoard (currentState (state n)) = none /\
      exists move ch0 w2,
        In (moveHash move, ch0) (children n) /\ node ch0 = None /\
        store w2 =
          <[r := Node.set_children
                   (map_set (moveHash move) (mkChild move (Some (length (store w))))
                            (children n)) n]>
            (store w ++ [Node.new (Some r) (Some move)
                           (mkGame (afterMove move (currentState (state n))) [move])
                           (legalMoves (afterMove move (currentState (state n))))]) /\
        nodes w2 = map_set (hash (afterMove move (currentState (state n))))
                           (length (store w)) (nodes w) /\
        nodes w' = nodes w2 /\ sameShape (store w2) (store w')) \/
     ((Node.isLeaf n = true \/
       checkWinWholeBoard (currentState (state n)) <> none) /\
      nodes w' = nodes w /\ sameShape (store w) (store w'))).
Proof.
  intros Hparam Hinv. pose proof Hinv as (HI & HV & Hshape).
  destruct (select_total st w Hparam Hinv) as (r & n & E1 & Hn & Hstop).
  exists r, n.
  assert (Hrun : forall w', MCTS.iteration U st w = (Ok tt, w') <->
            (if negb (Node.isLeaf n) &&
                bool_decide (checkWinWholeBoard (currentState (stateOf n)) = none)
             then r' ← MCTS.expand r; winner' ← MCTS.simulate r';
                  MCTS.backpropagate r' winner'
             else MCTS.backpropagate r (checkWinWholeBoard (currentState (stateOf n)))) w
            = (Ok tt, w')).
  { intros w'. unfold MCTS.iteration.
    rewrite (bind_run _ _ _ _ _ E1), (bind_run _ _ _ _ _ (deref_run _ _ _ Hn)).
    reflexivity. }
  destruct (negb (Node.isLeaf n) &&
            bool_decide (checkWinWholeBoard (currentState (stateOf n)) = none)) eqn:Hc.
  - apply andb_true_iff in Hc. destruct Hc as [Hleaf Hwin].
    apply bool_decide_eq_true in Hwin. apply negb_true_iff in Hleaf.
    assert (Hfull : Node.isFullyExpanded n = false).
    { rewrite Hleaf in Hstop. simpl in Hstop. now rewrite andb_true_r in Hstop. }
    destruct (expand_run st r n w Hinv Hn Hfull)
      as (move & ch0 & w2 & Hkch & Hun & Hlm & E2 & Hs2 & Hn2).
    destruct (expand_total st r n w Hinv Hn Hfull) as (c & w2' & cn & E2' & Hcn & Hshape2).
    rewrite E2 in E2'. inversion E2'; subst c w2'. clear E2'.
    pose proof (hoare_expand r w _ w2 HI E2) as HI2.
    pose proof (hoare_expand_strict r w _ w2 (conj HI HV) E2) as HV2.
    destruct (simulate_run w2 _ cn Hcn (proj2 (proj2 (proj2 Hshape2) _ cn Hcn)))
      as (winner & final & w3 & E3 & _ & _ & _ & Hs3 & Hn3).
    assert (HI3 : storeInv (store w3)) by (now rewrite Hs3).
    assert (HV3 : strictInvAt (store w3) (Some (length (store w)))) by (now rewrite Hs3).
    assert (Hshape3 : shapeInv st w3) by (now apply (shapeInv_same st w2)).
    destruct (backpropagate_run (length (store w)) winner w3 HI3) as (w4 & E4 & Hn4 & Hsh4).
    { rewrite Hs3. now apply lookup_lt_Some in Hcn. }
    exists w4. refine (conj E1 (conj Hn (conj Hstop (conj _ (conj _ (conj _ _)))))).
    + apply Hrun.
      rewrite (bind_run _ _ _ _ _ E2), (bind_run _ _ _ _ _ E3). exact E4.
    + rewrite (keepsParam_eq _ _ _ _ (keepsParam_backpropagate _ _) E4).
      rewrite (keepsParam_eq _ _ _ _ (keepsParam_simulate _) E3).
      rewrite (keepsParam_eq _ _ _ _ (keepsParam_expand _) E2). exact Hparam.
    + refine (conj _ (conj _ _)).
      * exact (hoare_backpropagate _ winner w3 tt w4 HI3 E4).
      * exact (hoare_backpropagate_strict _ winner w3 tt w4 (conj HI3 HV3) E4).
      * now apply (shapeInv_sameShape st w3).
    + left. refine (conj Hleaf (conj Hwin _)).
      exists move, ch0, w2. refine (conj Hkch (conj Hun (conj Hs2 (conj Hn2 (conj _ _))))).
      * now rewrite Hn4, Hn3.
      * now rewrite <- Hs3.
  - destruct (backpropagate_run r (checkWinWholeBoard (currentState (stateOf n))) w HI)
      as (w4 & E4 & Hn4 & Hsh4).
    { now apply lookup_lt_Some in Hn. }
    exists w4. refine (conj E1 (conj Hn (conj Hstop (conj _ (conj _ (conj _ _)))))).
    + apply Hrun. exact E4.
    + rewrite (keepsParam_eq _ _ _ _ (keepsParam_backpropagate _ _) E4). exact Hparam.
    + refine (conj _ (conj _ _)).
      * exact (hoare_backpropagate r _ w tt w4 HI E4).
      * refine (hoare_backpropagate_strict r _ w tt w4 (conj HI _) E4).
        now apply strictInvAt_start.
      * now apply (shapeInv_sameShape st w).
    + right. refine (conj _ (conj Hn4 Hsh4)).
      apply andb_false_iff in Hc. destruct Hc as [Hc | Hc].
      * left. now apply negb_false_iff in Hc.
      * right. now apply bool_decide_eq_false in Hc.
Qed.

Lemma iteration_total st w :
  UCB1ExploreParam w = 2 ->
  searchInv st w ->
  exists w', MCTS.iteration U st w = (Ok tt, w') /\
             UCB1ExploreParam w' = 2 /\ searchInv st w'.
Proof.
  intros Hparam Hinv.
  destruct (iteration_trace st w Hparam Hinv) as (r & n & w' & _ & _ & _ & E & Hp & Hi & _).
  exists w'. exact (conj E (conj Hp Hi)).
Qed.

Lemma iterate_total k st w :
  UCB1ExploreParam w = 2 ->
  searchInv st w ->
  exists w', MCTS.iterate U k st w = (Ok tt, w') /\ searchInv st w'.
Proof.
  revert w. induction k as [| k IH]; intros w Hparam Hinv.
  - exists w. split; [reflexivity | exact Hinv].
  - destruct (iteration_total st w Hparam Hinv) as (w1 & E1 & Hparam1 & Hinv1).
    destruct (IH w1 Hparam1 Hinv1) as (w' & E & Hinv').
    exists w'. split; [| exact Hinv'].
    cbn [MCTS.iterate]. rewrite (bind_run _ _ _ _ _ E1). exact E.
Qed.

(** The search object after the first [makeNode]. *)
Lemma searchInv_new random st :
  reachable (currentState st) ->
  searchInv st
    (set_nodes (map_set (hash (currentState st)) 0%nat)
       (set_store (fun h => h ++ [Node.new None None st (legalMoves (currentState st))])
          (newMonteCarlo random))).
Proof.
  intros Hr.
  set (root0 := Node.new None None st (legalMoves (currentState st))).
  refine (conj _ (conj _ (conj _ (conj _ _)))); cbn [store nodes set_nodes set_store newMonteCarlo app].
  - exact (hoare_makeNode st (newMonteCarlo random) tt _ storeInv_empty (makeNode_new st random)).
  - now apply strictInv_root.
  - cbn [map_set map_get]. rewrite decide_True by reflexivity. eauto.
  - intros k' r'. cbn [map_set map_get]. destruct (decide _); [| discriminate].
    intros E. inversion E. simpl. lia.
  - intros [| q] x Hx; simpl in Hx; [| discriminate]. inversion Hx; subst x. split.
    + intros k' ch' Hin. exact (new_children_plays _ _ _ _ _ _ Hin).
    + exact Hr.
Qed.

Lemma runSearch_run random k st :
  reachable (currentState st) ->
  exists w', MCTS.runSearch U k st (newMonteCarlo random) = (Ok tt, w') /\
             searchInv st w'.
Proof.
  intros Hr. unfold MCTS.runSearch.
  rewrite (bind_run _ _ _ _ _ (makeNode_new st random)).
  apply iterate_total; [reflexivity |]. now apply searchInv_new.
Qed.

End SearchTotal.

(** X8.  [runSearch] returns: from a new search object and a reachable
    game, whatever the number of turns and the random values, and for
    every UCB1 whose values on visited children, with the exploration
    parameter 2 of a new search object, are greater than [-Infinity], no turn of the loop throws, and the descent of [select],
    the playout and the walk of [backpropagate] each end within the bound
    the embedding gives them.  Every node of the tree then holds a
    reachable game, with legal moves of that game as its children. *)
Theorem runSearch_total (U : UCB1Model) (random : nat -> nat) (iterations : nat)
    (st : Game) :
  positiveScores U 2 ->
  reachable (currentState st) ->
  exists w',
    MCTS.runSearch U iterations st (newMonteCarlo random) = (Ok tt, w') /\
    forall r n, store w' !! r = Some n ->
      reachable (currentState (state n)) /\
      forall k ch, In (k, ch) (children n) ->
        k = moveHash (childPlay ch) /\
        In (childPlay ch) (legalMoves (currentState (state n))).
Proof.
  intros Hpos Hr.
  destruct (runSearch_run U Hpos random iterations st Hr) as (w' & E & _ & _ & _ & _ & Hnodes).
  exists w'. split; [exact E |]. intros r n Hn.
  destruct (Hnodes r n Hn) as [Hlegal Hreach]. split; [exact Hreach | exact Hlegal].
Qed.

Lemma positiveScores_example : positiveScores exampleUCB1 2.
Proof. intros wins plays pplays _ _. reflexivity. Qed.

Lemma runSearch_total_witness :
  exists w',
    MCTS.runSearch exampleUCB1 200 (newGame initialGameState) (newMonteCarlo firstRandom) =
      (Ok tt, w') /\
    forall r n, store w' !! r = Some n ->
      reachable (currentState (state n)) /\
      forall k ch, In (k, ch) (children n) ->
        k = moveHash (childPlay ch) /\
        In (childPlay ch) (legalMoves (currentState (state n))).
Proof.
  apply (runSearch_total exampleUCB1 firstRandom 200 (newGame initialGameState)).
  - exact positiveScores_example.
  - exact reachable_initial.
Defined.

(** ** From the search to [bestPlay] *)

(** *** Hashes of states *)

Lemma String_length_app (s1 s2 : string) :
  String.length (s1 +:+ s2) = (String.length s1 + String.length s2)%nat.
Proof. induction s1 as [| a s1 IH]; simpl; [reflexivity | now rewrite IH]. Qed.

Lemma join_snoc_longer sep l a :
  (1 <= String.length a)%nat ->
  (String.length (join sep l) < String.length (join sep (l ++ [a])))%nat.
Proof.
  intros Ha. induction l as [| x l IH]; [simpl; lia |].
  destruct l as [| y l].
  - simpl. rewrite !String_length_app. lia.
  - change (join sep (x :: y :: l)) with (x +:+ sep +:+ join sep (y :: l)).
    change (join sep ((x :: y :: l) ++ [a]))
      with (x +:+ sep +:+ join sep ((y :: l) ++ [a])).
    rewrite !String_length_app. lia.
Qed.

Lemma moveHash_length m : (1 <= String.length (moveHash m))%nat.
Proof.
  unfold moveHash. rewrite !String_length_app.
  destruct (player m); simpl; lia.
Qed.

Lemma hash_afterMove_longer m s :
  (String.length (hash s) < String.length (hash (afterMove m s)))%nat.
Proof.
  assert (Hmv : moves (afterMove m s) = moves s ++ [m]).
  { pose proof (afterMove_fields m s) as H. cbv zeta in H. tauto. }
  unfold hash. rewrite Hmv, map_app. apply join_snoc_longer, moveHash_length.
Qed.

(** *** The children of a node *)

Lemma fullyExpanded_unexpanded n :
  Node.isFullyExpanded n = true <-> Node.unexpandedPlays n = [].
Proof.
  unfold Node.isFullyExpanded, Node.unexpandedPlays.
  induction (map_values (children n)) as [| ch l IH]; [simpl; tauto |].
  cbn [forallb]. rewrite filter_cons.
  destruct (decide (node ch = None)) as [E | E].
  - rewrite bool_decide_eq_false_2 by (intros H; exact (H E)). simpl.
    split; discriminate.
  - rewrite bool_decide_eq_true_2 by exact E. simpl. exact IH.
Qed.

(** Expanding an unexpanded entry leaves the keys as they are and one
    unexpanded play fewer. *)
Lemma map_set_expanded (l : list (string * Child)) k play c ch0 :
  NoDup (map fst l) -> In (k, ch0) l -> node ch0 = None ->
  map fst (map_set k (mkChild play (Some c)) l) = map fst l /\
  S (length (filter (fun ch => node ch = None)
               (map_values (map_set k (mkChild play (Some c)) l)))) =
  length (filter (fun ch => node ch = None) (map_values l)).
Proof.
  induction l as [| [k0 v0] l IH]; intros Hnd Hin Hun; [contradiction |].
  cbn [map fst] in Hnd. apply NoDup_cons in Hnd. destruct Hnd as [Hk0 Hnd].
  cbn [map_set]. destruct (decide (k = k0)) as [-> | Hne].
  - assert (E : v0 = ch0).
    { destruct Hin as [E | Hin]; [now inversion E |].
      exfalso. apply Hk0. apply list_elem_of_In. apply in_map_iff.
      exists (k0, ch0). split; [reflexivity | exact Hin]. }
    subst v0. unfold map_values. cbn [map fst snd]. split; [reflexivity |].
    rewrite !filter_cons. cbn [node].
    rewrite decide_False by discriminate. rewrite decide_True by exact Hun.
    reflexivity.
  - assert (Hin' : In (k, ch0) l).
    { destruct Hin as [E | Hin]; [inversion E; congruence | exact Hin]. }
    destruct (IH Hnd Hin' Hun) as [Hkeys Hcount].
    unfold map_values in *. cbn [map fst snd]. split; [now rewrite Hkeys |].
    rewrite !filter_cons. destruct (decide (node v0 = None)); cbn [length]; lia.
Qed.

Lemma unexpandedPlays_length n :
  length (Node.unexpandedPlays n) =
  length (filter (fun ch => node ch = None) (map_values (children n))).
Proof. unfold Node.unexpandedPlays. apply length_map. Qed.

(** With distinct hashes, the constructor files the plays in their order,
    all of them unexpanded. *)
Lemma new_children_distinct parent play st plays :
  NoDup (map moveHash plays) ->
  children (Node.new parent play st plays) =
  map (fun p => (moveHash p, mkChild p None)) plays.
Proof.
  unfold Node.new. cbn [children].
  assert (Hset : forall (l : list (string * Child)) k v,
            ~ In k (map fst l) -> map_set k v l = l ++ [(k, v)]).
  { induction l as [| [k0 v0] l IH]; intros k v Hk; [reflexivity |].
    cbn [map_set]. rewrite decide_False by (intros ->; apply Hk; now left).
    rewrite IH by (intros H; apply Hk; now right). reflexivity. }
  assert (H : forall l acc,
            NoDup (map fst acc ++ map moveHash l) ->
            fold_left (fun ch p => map_set (moveHash p) (mkChild p None) ch) l acc =
            acc ++ map (fun p => (moveHash p, mkChild p None)) l).
  { induction l as [| p l IH]; intros acc Hnd; simpl; [now rewrite app_nil_r |].
    simpl in Hnd. apply NoDup_app in Hnd. destruct Hnd as (Hacc & Hdisj & Hl).
    apply NoDup_cons in Hl. destruct Hl as [Hp Hl].
    rewrite Hset.
    - rewrite IH; [now rewrite <- app_assoc |].
      rewrite map_app. simpl. rewrite <- app_assoc. simpl.
      apply NoDup_app. split; [exact Hacc |]. split.
      + intros k Hk Hk'. apply (Hdisj k Hk). exact Hk'.
      + apply NoDup_cons. split; assumption.
    - intros Hin. apply (Hdisj (moveHash p)); [now apply list_elem_of_In |].
      apply list_elem_of_In. now left. }
  intros Hnd. exact (H plays [] Hnd).
Qed.

Lemma boardMoves_hashes p : NoDup (map moveHash (boardMoves p)).
Proof. destruct p; apply (bool_decide_unpack _); vm_compute; exact I. Qed.

Lemma legalMoves_hashes s : NoDup (map moveHash (legalMoves s)).
Proof.
  pose proof (boardMoves_hashes (playerToMove s)) as Hnd.
  assert (Hsub : sublist (map moveHash (legalMoves s))
                         (map moveHash (boardMoves (playerToMove s)))).
  { apply (fmap_sublist moveHash). apply legalMoves_sublist. }
  eapply sublist_NoDup; eassumption.
Qed.

Lemma new_root st :
  let root := Node.new None None st (legalMoves (currentState st)) in
  NoDup (map fst (children root)) /\
  Node.unexpandedPlays root = legalMoves (currentState st).
Proof.
  cbv zeta.
  rewrite (new_children_distinct None None st _ (legalMoves_hashes (currentState st))).
  unfold Node.unexpandedPlays.
  rewrite (new_children_distinct None None st _ (legalMoves_hashes (currentState st))).
  split.
  - rewrite map_map. cbn [fst]. apply legalMoves_hashes.
  - unfold map_values. rewrite map_map. cbn [snd].
    induction (legalMoves (currentState st)) as [| p l IH]; [reflexivity |].
    cbn [map]. rewrite filter_cons. cbn [node]. rewrite decide_True by reflexivity.
    cbn [map childPlay]. now rewrite IH.
Qed.

(** *** The root through one turn of the loop *)

Lemma rootEntry_sameShape st u w w' :
  nodes w' = nodes w -> sameShape (store w) (store w') ->
  rootEntry st u w -> rootEntry st u w'.
Proof.
  intros Hn' [Hl' Hsh'] (Hmap & Hlong & root & Hroot & Hst & Hnd & Hlen & Hu).
  refine (conj _ (conj _ _)).
  - now rewrite Hn'.
  - intros q x' Hx' Hq. destruct (Hsh' q x' Hx') as (x & Hx & _ & Es).
    rewrite Es. exact (Hlong q x Hx Hq).
  - assert (H0 : (0 < length (store w'))%nat).
    { rewrite Hl'. now apply lookup_lt_Some in Hroot. }
    destruct (lookup_lt_is_Some_2 _ _ H0) as (root' & Hroot').
    destruct (Hsh' 0%nat root' Hroot') as (x & Hx & Ec & Es).
    rewrite Hroot in Hx. inversion Hx; subst x.
    exists root'. split; [exact Hroot' |]. split; [congruence |].
    unfold Node.unexpandedPlays. rewrite Ec. repeat split; assumption.
Qed.

(** The root after [expand] on the node [r]: one unexpanded play fewer
    when [r] is the root, and the same root otherwise. *)
Lemma rootEntry_expand st u w w2 r n move ch0 :
  rootEntry st u w ->
  store w !! r = Some n ->
  In (moveHash move, ch0) (children n) -> node ch0 = None ->
  store w2 =
    <[r := Node.set_children
             (map_set (moveHash move) (mkChild move (Some (length (store w))))
                      (children n)) n]>
      (store w ++ [Node.new (Some r) (Some move)
                     (mkGame (afterMove move (currentState (state n))) [move])
                     (legalMoves (afterMove move (currentState (state n))))]) ->
  nodes w2 = map_set (hash (afterMove move (currentState (state n))))
                     (length (store w)) (nodes w) ->
  rootEntry st (if decide (r = 0%nat) then (u - 1)%nat else u) w2.
Proof.
  intros (Hmap & Hlong & root & Hroot & Hst & Hnd & Hlen & Hu) Hn Hkch Hun Hs2 Hn2.
  assert (Hlt : (r < length (store w))%nat) by (now apply lookup_lt_Some in Hn).
  assert (Hhash : (String.length (hash (currentState st)) <=
                   String.length (hash (currentState (state n))))%nat).
  { destruct (decide (r = 0%nat)) as [-> | Hne].
    - rewrite Hroot in Hn. inversion Hn; subst n. now rewrite Hst.
    - pose proof (Hlong r n Hn Hne). lia. }
  pose proof (hash_afterMove_longer move (currentState (state n))) as Hchild.
  refine (conj _ (conj _ _)).
  - rewrite Hn2, map_get_map_set. rewrite decide_False; [exact Hmap |].
    intros E. rewrite E in Hhash. lia.
  - intros q x Hx Hq. rewrite Hs2 in Hx. apply lookup_insert_cases in Hx.
    destruct Hx as [(-> & -> & _) | (Hne & Hx)].
    + cbn [state Node.set_children]. exact (Hlong r n Hn Hq).
    + apply lookup_snoc in Hx. destruct Hx as [[_ Hx] | [_ ->]].
      * exact (Hlong q x Hx Hq).
      * cbn [state Node.new currentState]. lia.
  - destruct (decide (r = 0%nat)) as [-> | Hne].
    + rewrite Hroot in Hn. inversion Hn; subst n.
      destruct (map_set_expanded (children root) (moveHash move) move
                  (length (store w)) ch0 Hnd Hkch Hun) as [Hkeys Hcount].
      eexists. rewrite Hs2. rewrite list_lookup_insert_eq by (rewrite length_app; simpl; lia).
      split; [reflexivity |]. cbn [state children Node.set_children].
      split; [exact Hst |]. split; [now rewrite Hkeys |]. split.
      * rewrite <- Hlen. rewrite <- (length_map fst), Hkeys. apply length_map.
      * rewrite unexpandedPlays_length in Hu |- *.
        cbn [children Node.set_children]. lia.
    + exists root. rewrite Hs2. rewrite list_lookup_insert_ne by congruence.
      rewrite lookup_app_l by (now apply lookup_lt_Some in Hroot).
      repeat split; assumption.
Qed.

Section SearchRootEntry.

Variable U : UCB1Model.
Hypothesis Hpos : positiveScores U 2.

Lemma select_root st w root :
  map_get (hash (currentState st)) (nodes w) = Some 0%nat ->
  store w !! 0%nat = Some root ->
  Node.isFullyExpanded root && negb (Node.isLeaf root) = false ->
  MCTS.select U st w = (Ok 0%nat, w).
Proof.
  intros Hmap Hroot Hcond.
  unfold MCTS.select, MCTS.lookupNode, mbind, Method_bind, get. rewrite Hmap.
  unfold mret, Method_ret. cbn [MCTS.selectLoop].
  unfold mbind, Method_bind, deref. rewrite Hroot, Hcond. reflexivity.
Qed.

Lemma iteration_root st w u :
  UCB1ExploreParam w = 2 ->
  searchInv st w ->
  rootEntry st u w ->
  checkWinWholeBoard (currentState st) = none ->
  exists w', MCTS.iteration U st w = (Ok tt, w') /\
             UCB1ExploreParam w' = 2 /\ searchInv st w' /\
             rootEntry st (u - 1)%nat w'.
Proof.
  intros Hparam Hinv Hentry Hwin.
  destruct (iteration_trace U Hpos st w Hparam Hinv)
    as (r & n & w' & E1 & Hn & Hstop & E & Hp' & Hinv' & Hcases).
  exists w'. refine (conj E (conj Hp' (conj Hinv' _))).
  pose proof Hentry as (Hmap & _ & root & Hroot & Hst & _ & _ & Hu).
  destruct u as [| u].
  - (* the root is fully expanded: the turn works below it *)
    assert (Hfull : Node.isFullyExpanded root = true).
    { apply fullyExpanded_unexpanded. now apply length_zero_iff_nil. }
    destruct Hcases as [(Hleaf & _ & move & ch0 & w2 & Hkch & Hun & Hs2 & Hn2 & Hn' & Hsh')
                       | (_ & Hn' & Hsh')].
    + assert (Hr : r <> 0%nat).
      { intros ->. rewrite Hroot in Hn. inversion Hn; subst n.
        rewrite Hfull, Hleaf in Hstop. discriminate Hstop. }
      pose proof (rootEntry_expand st 0 w w2 r n move ch0 Hentry Hn Hkch Hun Hs2 Hn2) as H2.
      rewrite decide_False in H2 by exact Hr.
      exact (rootEntry_sameShape st _ w2 w' Hn' Hsh' H2).
    + exact (rootEntry_sameShape st _ w w' Hn' Hsh' Hentry).
  - (* the root has an unexpanded play: the turn expands it *)
    assert (Hfull : Node.isFullyExpanded root = false).
    { destruct (Node.isFullyExpanded root) eqn:Hf; [| reflexivity].
      apply fullyExpanded_unexpanded in Hf. rewrite Hf in Hu. discriminate Hu. }
    assert (Hr : r = 0%nat).
    { pose proof (select_root st w root Hmap Hroot) as E0.
      rewrite Hfull in E0. specialize (E0 eq_refl). rewrite E1 in E0. now inversion E0. }
    subst r. rewrite Hroot in Hn. inversion Hn; subst n.
    assert (Hleaf : Node.isLeaf root = false).
    { unfold Node.isLeaf. apply bool_decide_eq_false. intros Hz.
      apply length_zero_iff_nil in Hz. unfold Node.unexpandedPlays, map_values in Hu.
      rewrite Hz in Hu. discriminate Hu. }
    destruct Hcases as [(_ & _ & move & ch0 & w2 & Hkch & Hun & Hs2 & Hn2 & Hn' & Hsh')
                       | ([Hl | Hw] & _)].
    + pose proof (rootEntry_expand st (S u) w w2 0%nat root move ch0
                    Hentry Hroot Hkch Hun Hs2 Hn2) as H2.
      rewrite decide_True in H2 by reflexivity.
      exact (rootEntry_sameShape st _ w2 w' Hn' Hsh' H2).
    + congruence.
    + exfalso. apply Hw. now rewrite Hst.
Qed.

Lemma iterate_root k st w u :
  UCB1ExploreParam w = 2 ->
  searchInv st w ->
  rootEntry st u w ->
  checkWinWholeBoard (currentState st) = none ->
  exists w', MCTS.iterate U k st w = (Ok tt, w') /\
             searchInv st w' /\ rootEntry st (u - k)%nat w'.
Proof.
  revert w u. induction k as [| k IH]; intros w u Hparam Hinv Hentry Hwin.
  - exists w. rewrite Nat.sub_0_r. exact (conj eq_refl (conj Hinv Hentry)).
  - destruct (iteration_root st w u Hparam Hinv Hentry Hwin)
      as (w1 & E1 & Hparam1 & Hinv1 & Hentry1).
    destruct (IH w1 _ Hparam1 Hinv1 Hentry1 Hwin) as (w' & E & Hinv' & Hentry').
    exists w'. split; [| split; [exact Hinv' |]].
    + cbn [MCTS.iterate]. rewrite (bind_run _ _ _ _ _ E1). exact E.
    + replace (u - S k)%nat with (u - 1 - k)%nat by lia. exact Hentry'.
Qed.

Lemma runSearch_root random k st :
  reachable (currentState st) ->
  legalMoves (currentState st) <> [] ->
  exists w', MCTS.runSearch U k st (newMonteCarlo random) = (Ok tt, w') /\
             searchInv st w' /\
             rootEntry st (length (legalMoves (currentState st)) - k)%nat w'.
Proof.
  intros Hr Hmoves.
  assert (Hwin : checkWinWholeBoard (currentState st) = none).
  { destruct (reachable_wellFormed _ Hr) as (_ & _ & Hc & _).
    assert (Hnc : complete (currentState st) = false).
    { destruct (complete (currentState st)) eqn:Hcs; [| reflexivity].
      exfalso. apply Hmoves. unfold legalMoves. now rewrite Hcs. }
    rewrite Hc in Hnc. apply bool_decide_eq_false in Hnc.
    destruct (checkWinWholeBoard (currentState st)); try reflexivity;
      exfalso; apply Hnc; discriminate. }
  unfold MCTS.runSearch.
  rewrite (bind_run _ _ _ _ _ (makeNode_new st random)).
  apply iterate_root; [reflexivity | now apply searchInv_new | | exact Hwin].
  destruct (new_root st) as [Hnd Hun].
  refine (conj _ (conj _ _)); cbn [store nodes set_nodes set_store newMonteCarlo app].
  - cbn [map_set map_get]. now rewrite decide_True by reflexivity.
  - intros [| q] x Hx Hq; [congruence | discriminate Hx].
  - eexists. split; [reflexivity |]. split; [reflexivity |]. split; [exact Hnd |].
    split; [| now rewrite Hun].
    rewrite (new_children_distinct None None st _ (legalMoves_hashes (currentState st))).
    apply length_map.
Qed.

End SearchRootEntry.

(** *** [bestPlay] on the root *)

Lemma bestPlayLoop_throws root w vals best mx :
  (forall ch, In ch vals ->
     map_get (moveHash (childPlay ch)) (children root) = Some ch) ->
  (forall ch c, In ch vals -> node ch = Some c -> is_Some (store w !! c)) ->
  (exists ch, In ch vals /\ node ch = None) ->
  MCTS.bestPlayLoop root (map childPlay vals) best mx w = (Throw ChildNotExpanded, w).
Proof.
  revert best mx. induction vals as [| ch vals IH]; intros best mx Hget Hvalid Hex.
  - destruct Hex as (ch & [] & _).
  - assert (Hchild : Node.childNode root (childPlay ch) =
                     match node ch with
                     | None => Throw ChildNotExpanded
                     | Some r => Ok r
                     end).
    { unfold Node.childNode. now rewrite (Hget ch (or_introl eq_refl)). }
    assert (IH' : forall best mx,
              node ch <> None ->
              MCTS.bestPlayLoop root (map childPlay vals) best mx w =
              (Throw ChildNotExpanded, w)).
    { intros best' mx' Hne. apply IH.
      - intros ch' Hch'. apply Hget. now right.
      - intros ch' c Hch'. apply Hvalid. now right.
      - destruct Hex as (ch' & [<- | Hin] & Hun); [contradiction |]. now exists ch'. }
    cbn [map MCTS.bestPlayLoop]. unfold mbind, Method_bind, liftOutcome. rewrite Hchild.
    destruct (node ch) as [c |] eqn:Hc; [| reflexivity].
    destruct (Hvalid ch c (or_introl eq_refl) Hc) as (cn & Hcn).
    unfold deref. rewrite Hcn.
    destruct (n_plays cn =? 0); [apply IH'; discriminate |].
    destruct (match mx with Some mx0 => mx0 <? n_plays cn | None => true end);
      apply IH'; discriminate.
Qed.

Lemma bestPlayLoop_returns root w vals best mx :
  (forall ch, In ch vals ->
     map_get (moveHash (childPlay ch)) (children root) = Some ch) ->
  (forall ch, In ch vals ->
     exists c cn, node ch = Some c /\ store w !! c = Some cn /\ 1 <= n_plays cn) ->
  exists b, MCTS.bestPlayLoop root (map childPlay vals) best mx w = (Ok b, w) /\
            (b = best \/ exists ch, In ch vals /\ b = Some (childPlay ch)).
Proof.
  revert best mx. induction vals as [| ch vals IH]; intros best mx Hget Hvis.
  - exists best. split; [reflexivity | now left].
  - destruct (Hvis ch (or_introl eq_refl)) as (c & cn & Hc & Hcn & Hn).
    assert (IH' : forall best mx,
              exists b, MCTS.bestPlayLoop root (map childPlay vals) best mx w = (Ok b, w) /\
                        (b = best \/ exists ch, In ch vals /\ b = Some (childPlay ch))).
    { intros best' mx'. apply IH.
      - intros ch' Hch'. apply Hget. now right.
      - intros ch' Hch'. apply Hvis. now right. }
    cbn [map MCTS.bestPlayLoop]. unfold mbind, Method_bind, liftOutcome, Node.childNode.
    rewrite (Hget ch (or_introl eq_refl)), Hc. unfold deref. rewrite Hcn.
    assert (Hstep : forall best' mx',
              (best' = best \/ best' = Some (childPlay ch)) ->
              exists b, MCTS.bestPlayLoop root (map childPlay vals) best' mx' w = (Ok b, w) /\
                        (b = best \/ exists ch0, In ch0 (ch :: vals) /\ b = Some (childPlay ch0))).
    { intros best' mx' Hb. destruct (IH' best' mx') as (b & E & Hcase).
      exists b. split; [exact E |].
      destruct Hcase as [-> | (ch0 & Hin & ->)].
      - destruct Hb as [-> | ->]; [now left | right]. exists ch. split; [now left | reflexivity].
      - right. exists ch0. split; [now right | reflexivity]. }
    destruct (n_plays cn =? 0); [apply Hstep; now left |].
    destruct (match mx with Some mx0 => mx0 <? n_plays cn | None => true end);
      apply Hstep; [now right | now left].
Qed.

Lemma bestPlayLoop_first root w vals :
  vals <> [] ->
  (forall ch, In ch vals ->
     map_get (moveHash (childPlay ch)) (children root) = Some ch) ->
  (forall ch, In ch vals ->
     exists c cn, node ch = Some c /\ store w !! c = Some cn /\ 1 <= n_plays cn) ->
  exists ch, In ch vals /\
    MCTS.bestPlayLoop root (map childPlay vals) None None w = (Ok (Some (childPlay ch)), w).
Proof.
  intros Hne Hget Hvis. destruct vals as [| ch vals]; [contradiction |].
  destruct (Hvis ch (or_introl eq_refl)) as (c & cn & Hc & Hcn & Hn).
  cbn [map MCTS.bestPlayLoop]. unfold mbind, Method_bind, liftOutcome, Node.childNode.
  rewrite (Hget ch (or_introl eq_refl)), Hc. unfold deref. rewrite Hcn.
  assert (E0 : (n_plays cn =? 0) = false) by (apply Z.eqb_neq; lia). rewrite E0.
  destruct (bestPlayLoop_returns root w vals (Some (childPlay ch)) (Some (n_plays cn)))
    as (b & E & Hcase).
  - intros ch' Hch'. apply Hget. now right.
  - intros ch' Hch'. apply Hvis. now right.
  - destruct Hcase as [-> | (ch0 & Hin & ->)].
    + exists ch. split; [now left | exact E].
    + exists ch0. split; [now right | exact E].
Qed.

Lemma bestPlay_unfold st w root :
  map_get (hash (currentState st)) (nodes w) = Some 0%nat ->
  store w !! 0%nat = Some root ->
  MCTS.bestPlay st w =
  match MCTS.bestPlayLoop root (Node.allPlays root) None None w with
  | (Ok (Some play), w') => (Ok play, w')
  | (Ok None, w') => (Throw NoBestPlay, w')
  | (Throw e, w') => (Throw e, w')
  end.
Proof.
  intros Hmap Hroot.
  unfold MCTS.bestPlay, MCTS.makeNode, MCTS.lookupNode, map_has.
  unfold mbind, Method_bind, get, deref, mret, Method_ret, throw.
  rewrite Hmap. rewrite bool_decide_eq_true_2 by eauto. simpl.
  rewrite Hmap, Hroot.
  destruct (MCTS.bestPlayLoop root (Node.allPlays root) None None w) as [[[p |] | e] w1];
    reflexivity.
Qed.

(** The entries of the root, as [bestPlay] finds them. *)
Lemma root_entries st u w root :
  searchInv st w -> rootEntry st u w -> store w !! 0%nat = Some root ->
  (forall ch, In ch (map_values (children root)) ->
     map_get (moveHash (childPlay ch)) (children root) = Some ch /\
     In (childPlay ch) (legalMoves (currentState st)) /\
     forall c, node ch = Some c ->
       exists cn, store w !! c = Some cn /\ 1 <= n_plays cn).
Proof.
  intros ((I1 & I2 & I3 & I4) & (V0 & V1 & _) & (_ & _ & Hnodes))
         (_ & _ & root' & Hroot' & Hst & Hnd & _) Hroot ch Hch.
  rewrite Hroot in Hroot'. inversion Hroot'; subst root'.
  destruct (Hnodes 0%nat root Hroot) as [Hlegal _].
  unfold map_values in Hch. apply in_map_iff in Hch.
  destruct Hch as ([k ch'] & E & Hin). simpl in E. subst ch'.
  destruct (Hlegal k ch Hin) as [-> Hlm]. rewrite Hst in Hlm.
  refine (conj (map_get_In _ _ _ Hnd Hin) (conj Hlm _)).
  intros c Hc. destruct (I4 0%nat root _ ch c Hroot Hin Hc) as (cn & Hcn & Hpar).
  exists cn. split; [exact Hcn |].
  pose proof (I2 c cn 0%nat Hcn Hpar). apply (V1 c cn Hcn). lia.
Qed.

(** X11.  The search, then [bestPlay].  On a reachable game that has legal
    moves, [runSearch] from a new search object returns (for a UCB1 that
    is greater than [-Infinity] on visited children), and each of its
    first turns expands one more play of the root.  [bestPlay] on the
    result throws 'Child not expanded' when the search made fewer turns
    than the game has legal moves, and returns a legal move of the game
    when it made at least as many; it leaves the search object as it is. *)
Theorem runSearch_then_bestPlay (U : UCB1Model) (random : nat -> nat) (iterations : nat)
    (st : Game) :
  positiveScores U 2 ->
  reachable (currentState st) ->
  legalMoves (currentState st) <> [] ->
  exists w',
    MCTS.runSearch U iterations st (newMonteCarlo random) = (Ok tt, w') /\
    ((iterations < length (legalMoves (currentState st)))%nat ->
     MCTS.bestPlay st w' = (Throw ChildNotExpanded, w')) /\
    ((length (legalMoves (currentState st)) <= iterations)%nat ->
     exists p, MCTS.bestPlay st w' = (Ok p, w') /\
               In p (legalMoves (currentState st))).
Proof.
  intros Hpos Hr Hmoves.
  destruct (runSearch_root U Hpos random iterations st Hr Hmoves) as (w' & E & Hinv & Hentry).
  exists w'. split; [exact E |].
  pose proof Hentry as (Hmap & _ & root & Hroot & Hst & Hnd & Hlen & Hu).
  pose proof (root_entries st _ w' root Hinv Hentry Hroot) as Hent.
  rewrite (bestPlay_unfold st w' root Hmap Hroot). unfold Node.allPlays.
  split.
  - intros Hlt.
    rewrite (bestPlayLoop_throws root w' (map_values (children root)) None None);
      [reflexivity | | |].
    + intros ch Hch. exact (proj1 (Hent ch Hch)).
    + intros ch c Hch Hc. destruct (proj2 (proj2 (Hent ch Hch)) c Hc) as (cn & Hcn & _). eauto.
    + destruct (Node.unexpandedPlays root) as [| p l] eqn:Hun; [simpl in Hu; lia |].
      assert (Hin : In p (Node.unexpandedPlays root)) by (rewrite Hun; now left).
      unfold Node.unexpandedPlays in Hin. apply in_map_iff in Hin.
      destruct Hin as (ch & _ & Hch).
      apply list_elem_of_In, list_elem_of_filter in Hch. destruct Hch as [Hnone Hch].
      exists ch. split; [now apply list_elem_of_In | exact Hnone].
  - intros Hge.
    assert (Hfull : Node.unexpandedPlays root = []).
    { apply length_zero_iff_nil. lia. }
    apply fullyExpanded_unexpanded in Hfull.
    unfold Node.isFullyExpanded in Hfull. rewrite forallb_forall in Hfull.
    destruct (bestPlayLoop_first root w' (map_values (children root))) as (ch & Hch & Eloop).
    + unfold map_values. intros Hnil. apply map_eq_nil in Hnil.
      rewrite Hnil in Hlen. simpl in Hlen. symmetry in Hlen.
      apply length_zero_iff_nil in Hlen. contradiction.
    + intros ch Hch. exact (proj1 (Hent ch Hch)).
    + intros ch Hch. specialize (Hfull ch Hch). apply bool_decide_eq_true in Hfull.
      destruct (node ch) as [c |] eqn:Hc; [| contradiction].
      destruct (proj2 (proj2 (Hent ch Hch)) c Hc) as (cn & Hcn & Hn). eauto.
    + rewrite Eloop. exists (childPlay ch). split; [reflexivity |].
      exact (proj1 (proj2 (Hent ch Hch))).
Qed.

Lemma runSearch_then_bestPlay_witness :
  exists w',
    MCTS.runSearch exampleUCB1 3 (newGame initialGameState) (newMonteCarlo firstRandom) =
      (Ok tt, w') /\
    ((3 < length (legalMoves (currentState (newGame initialGameState))))%nat ->
     MCTS.bestPlay (newGame initialGameState) w' = (Throw ChildNotExpanded, w')) /\
    ((length (legalMoves (currentState (newGame initialGameState))) <= 3)%nat ->
     exists p, MCTS.bestPlay (newGame initialGameState) w' = (Ok p, w') /\
               In p (legalMoves (currentState (newGame initialGameState)))).
Proof.
  apply (runSearch_then_bestPlay exampleUCB1 firstRandom 3 (newGame initialGameState)).
  - exact positiveScores_example.
  - exact reachable_initial.
  - vm_compute. discriminate.
Defined.
